(** * Classical-cipher cryptanalysis tools: the affine and Vigenere crackers

    A shallow embedding of the key-recovery code of [tool_affinecipher]
    ([linsolve], [checkSoln], the [Crack_All] and [Crack_Best] branches of
    [main]) and of [tool_vigenerecipher] (the [Crack] branch of [main]),
    followed by the properties proved about them.

    Conventions.
    - A C++ [char] is an [ascii]; a [std::string] is a [list ascii].
      [char] is signed on the build platform, so its value as an [int] is
      [char_to_int].
    - [int] values are [Z].  Every [int] the embedded code computes is
      bounded by a few thousand, so no 32-bit wrap-around can happen and
      none is written.
    - A loop [for(int i = lo; i < hi && !done; i++)] is [for_until] over the
      index list [seq lo (hi - lo)]: the stop flag is tested before every
      iteration, as in the source.
    - The program prints rows; the embedding returns the list of rows in the
      order they are printed. *)

From Stdlib Require Import ZArith List Ascii String Lia Permutation Sorted QArith.
From stdpp Require Import gmap.
Import ListNotations.
Local Open Scope Z_scope.

(** ** Characters and strings *)

Definition code (c : ascii) : Z := Z.of_N (N_of_ascii c).

(** The value of a (signed, 8-bit) [char] promoted to [int]. *)
Definition char_to_int (c : ascii) : Z :=
  if code c <? 128 then code c else code c - 256.

(** Narrowing an integer to [char]: modulo 2^8, read as a signed value. *)
Definition to_char (z : Z) : Z :=
  let w := z mod 256 in if w <? 128 then w else w - 256.

(** [std::string::npos], the largest [size_t]. *)
Definition npos : Z := 18446744073709551615.

(** The largest [int]. *)
Definition INT_MAX : Z := 2147483647.

(** Position of the first occurrence of [c] in [s]. *)
Fixpoint index_of (c : ascii) (s : list ascii) : option nat :=
  match s with
  | [] => None
  | x :: rest =>
      if Ascii.eqb x c then Some O
      else match index_of c rest with
           | Some i => Some (S i)
           | None => None
           end
  end.

(** [s.find(c)]: the position as a [size_t], or [npos]. *)
Definition find (s : list ascii) (c : ascii) : Z :=
  match index_of c s with
  | Some i => Z.of_nat i
  | None => npos
  end.

(** [s[i]].  Reading at [s.size()] yields the terminating NUL; the embedded
    code never reads further than that when decryption preserves length. *)
Definition char_at (s : list ascii) (i : nat) : ascii := nth i s zero.

(** [tolower] in the C locale. *)
Definition tolower (c : ascii) : ascii :=
  if (65 <=? code c) && (code c <=? 90)
  then ascii_of_N (Z.to_N (code c + 32))
  else c.

(** The loop [for(i = lo; i < hi && !stop; i++) body], over [idx = seq lo (hi - lo)]. *)
Fixpoint for_until {I S : Type} (stop : S -> bool) (body : I -> S -> S)
    (idx : list I) (s : S) : S :=
  match idx with
  | [] => s
  | i :: rest => if stop s then s else for_until stop body rest (body i s)
  end.

(** Every element of [l] is related to the next one by the test [Rb]. *)
Fixpoint ascending {X : Type} (Rb : X -> X -> bool) (l : list X) : bool :=
  match l with
  | x :: (y :: _) as rest => Rb x y && ascending Rb rest
  | _ => true
  end.

(** ** The modular-arithmetic primitives of the cryptography module *)

Module cryptomath.

(** Modelled from the spec: [cryptomath::mod], the external modular
    reduction; the result lies in [[0, n)] for a positive modulus. *)
Definition mod_ (a n : Z) : Z := a mod n.

(** Modelled from the spec: [cryptomath::gcd], the external greatest common
    divisor. *)
Definition gcd (a b : Z) : Z := Z.gcd a b.

(** Modelled from the spec: [cryptomath::inverseMod], the external modular
    inverse.  It yields the [x] in [[1, n)] with [a * x = 1 (mod n)], and [0]
    when there is none ([linsolve] tests the result against [0]). *)
Definition inverseMod (a n : Z) : Z :=
  match List.find (fun x => (a * x) mod n =? 1)
                  (map Z.of_nat (seq 1 (Z.to_nat n - 1))) with
  | Some x => x
  | None => 0
  end.

End cryptomath.

(** ** The affine cipher tool *)

Module Affine.

Definition ALPHABET : list ascii :=
  list_ascii_of_string "abcdefghijklmnopqrstuvwxyz".

Definition FREQUENCIES : list ascii :=
  list_ascii_of_string "etaoinsrhdlucmfywgpbvkxqjz".

(** A printed line: the key and the decrypted text. *)
Record row := Row { row_a : Z; row_b : Z; row_text : list ascii }.

(** [linsolve]: the two arguments are pairs of [char]s read as [int]s. *)
Definition linsolve (p1 p2 : Z * Z) : Z * Z :=
  let x1 := fst p1 in let y1 := snd p1 in
  let x2 := fst p2 in let y2 := snd p2 in
  let inv := cryptomath.inverseMod (cryptomath.mod_ (x2 - x1) 26) 26 in
  if inv =? 0 then (0, 0)
  else
    let alpha := cryptomath.mod_ ((y2 - y1) * inv) 26 in
    let beta := cryptomath.mod_ (y1 - x1 * alpha) 26 in
    if cryptomath.gcd alpha 26 =? 1 then (alpha, beta) else (0, 0).

(** [make_pair(ALPHABET.find(p.first), ALPHABET.find(p.second))] converted to
    [pair<char, char>]: a symbol outside the alphabet becomes [(char)npos = -1]. *)
Definition residues (p : ascii * ascii) : Z * Z :=
  (to_char (find ALPHABET (fst p)), to_char (find ALPHABET (snd p))).

(** Modelled from the spec: [affine::transformer(a, b, ALPHABET, false).decrypt],
    the external cipher primitive: a letter is lower-cased and taken to
    [(c - b) * a^-1 mod 26], any other character is copied as it is. *)
Definition decrypt_char (a b : Z) (c : ascii) : ascii :=
  match index_of (tolower c) ALPHABET with
  | Some y =>
      nth (Z.to_nat (((Z.of_nat y - b) * cryptomath.inverseMod (a mod 26) 26) mod 26))
          ALPHABET c
  | None => c
  end.

Definition affine_decrypt (a b : Z) (ciph : list ascii) : list ascii :=
  map (decrypt_char a b) ciph.

Section Crack.

(** The decryption primitive of the external cipher library,
    [affine::transformer(a, b, ALPHABET, false).decrypt]. *)
Variable decrypt : Z -> Z -> list ascii -> list ascii.

(** The loop of [checkSoln] over the known pairs, from the current value of
    [matches]. *)
Fixpoint checkSoln_loop (msg ciph : list ascii) (known : list (ascii * ascii))
    (matches : Z) : Z :=
  match known with
  | [] => matches
  | p :: rest =>
      match index_of (fst p) msg with
      | Some index =>
          if Ascii.eqb (char_at ciph index) (snd p) then
            let matches := matches + 1 in
            if matches =? 2 then matches
            else checkSoln_loop msg ciph rest matches
          else -1
      | None => checkSoln_loop msg ciph rest matches
      end
  end.

Definition checkSoln (a b : Z) (ciph : list ascii) (known : list (ascii * ascii))
    : Z * list ascii :=
  let msg := decrypt a b ciph in
  (checkSoln_loop msg ciph known 0, msg).

(** *** [-ca]: every key *)

Record scan := Scan { scan_done : bool; scan_out : list row }.

Definition Crack_All_body (ciph : list ascii) (known : list (ascii * ascii))
    (i j : nat) (s : scan) : scan :=
  let check := checkSoln (Z.of_nat i) (Z.of_nat j) ciph known in
  let printed :=
    if negb (fst check =? -1)
    then scan_out s ++ [Row (Z.of_nat i) (Z.of_nat j) (snd check)]
    else scan_out s in
  Scan (if fst check =? 2 then true else scan_done s) printed.

Definition Crack_All (ciph : list ascii) (known : list (ascii * ascii)) : list row :=
  scan_out
    (for_until scan_done
       (fun i s =>
          if cryptomath.gcd (Z.of_nat i) 26 =? 1
          then for_until scan_done (Crack_All_body ciph known i) (seq 0 26) s
          else s)
       (seq 0 26) (Scan false [])).

(** *** [-cb]: linear solving *)

Record search := Search {
  tested : gset (Z * Z);
  done : bool;
  out : list row
}.

(** The guard [soln.first && tested.insert(soln).second]: the insertion is
    only attempted for a non-zero [soln.first]. *)
Definition fresh (soln : Z * Z) (s : search) : bool :=
  negb (fst soln =? 0) && negb (bool_decide (soln ∈ tested s)).

(** Tier 1, body of the inner loop: the solution of two known pairs is
    printed as it is and ends the search. *)
Definition tier1_body (ciph : list ascii) (known : list (ascii * ascii))
    (i j : nat) (s : search) : search :=
  let knowni := residues (nth i known (zero, zero)) in
  let knownj := residues (nth j known (zero, zero)) in
  let soln := linsolve knowni knownj in
  if fresh soln s then
    let msg := decrypt (fst soln) (snd soln) ciph in
    Search ({[soln]} ∪ tested s) true (out s ++ [Row (fst soln) (snd soln) msg])
  else s.

(** The block that tiers 2 and 3 both run on a solution [soln]. *)
Definition verify (ciph : list ascii) (known : list (ascii * ascii))
    (soln : Z * Z) (s : search) : search :=
  if fresh soln s then
    let check := checkSoln (fst soln) (snd soln) ciph known in
    let printed :=
      if negb (fst check =? -1)
      then out s ++ [Row (fst soln) (snd soln) (snd check)]
      else out s in
    Search ({[soln]} ∪ tested s) (if fst check =? 2 then true else done s) printed
  else s.

(** The test of tier 2,
    [freqs[i].first != known[j].first && freqs[i].second != known[j].second]:
    [freqs[i].second] is the count, an [int]. *)
Definition tier2_guard (f : ascii * Z) (k : ascii * ascii) : bool :=
  negb (Ascii.eqb (fst f) (fst k)) && negb (snd f =? char_to_int (snd k)).

(** The hypothesis that the [i]-th most frequent ciphertext symbol is the
    [i]-th most frequent letter of English. *)
Definition possible (freqs : list (ascii * Z)) (i : nat) : Z * Z :=
  (to_char (find ALPHABET (nth i FREQUENCIES zero)),
   to_char (find ALPHABET (fst (nth i freqs (zero, 0))))).

Definition tier2_body (ciph : list ascii) (known : list (ascii * ascii))
    (freqs : list (ascii * Z)) (i j : nat) (s : search) : search :=
  if tier2_guard (nth i freqs (zero, 0)) (nth j known (zero, zero)) then
    let knownj := residues (nth j known (zero, zero)) in
    verify ciph known (linsolve knownj (possible freqs i)) s
  else s.

Definition tier3_body (ciph : list ascii) (known : list (ascii * ascii))
    (freqs : list (ascii * Z)) (i j : nat) (s : search) : search :=
  verify ciph known (linsolve (possible freqs i) (possible freqs j)) s.

Definition tier1 (ciph : list ascii) (known : list (ascii * ascii))
    (s : search) : search :=
  for_until done
    (fun i s =>
       for_until done (tier1_body ciph known i)
         (seq (i + 1) (length known - (i + 1))) s)
    (seq 0 (length known)) s.

Definition tier2 (ciph : list ascii) (known : list (ascii * ascii))
    (freqs : list (ascii * Z)) (s : search) : search :=
  for_until done
    (fun i s =>
       for_until done (tier2_body ciph known freqs i) (seq 0 (length known)) s)
    (seq 0 26) s.

Definition tier3 (ciph : list ascii) (known : list (ascii * ascii))
    (freqs : list (ascii * Z)) (s : search) : search :=
  for_until done
    (fun i s =>
       for_until done (tier3_body ciph known freqs i) (seq (i + 1) (26 - (i + 1))) s)
    (seq 0 26) s.

(** The [-cb] branch.  [freqs] is the 255-entry table of the whole input after
    [countFrequencies] and [std::sort] (external code and an unspecified order
    among equal counts), taken as given. *)
Definition Crack_Best (ciph : list ascii) (known : list (ascii * ascii))
    (freqs : list (ascii * Z)) : list row :=
  let s1 := tier1 ciph known (Search ∅ false []) in
  if done s1 then out s1
  else
    let s2 := tier2 ciph known freqs s1 in
    if done s2 then out s2
    else out (tier3 ciph known freqs s2).

End Crack.

End Affine.

(** ** The Vigenere cipher tool *)

Module Vigenere.

Definition ALPHABET : list ascii :=
  list_ascii_of_string "abcdefghijklmnopqrstuvwxyz".

(** *** Numbers

    The tool computes with [double].  The embedding is written over an
    interface of the operations the code uses, so that its statements do not
    depend on how sums and products round; [Q_arith] below is the instance of
    exact rationals. *)
Record arith := Arith {
  num : Type;
  num_zero : num;                 (* the literal 0 *)
  num_add : num -> num -> num;    (* x + y *)
  num_mul : num -> num -> num;    (* x * y *)
  num_gt : num -> num -> bool;    (* x > y *)
  num_ratio : Z -> Z -> num;      (* n / (double) d, for d <> 0 *)
  num_milli : Z -> num            (* the literal .ddd, d thousandths *)
}.

Definition Q_arith : arith :=
  {| num := Q;
     num_zero := 0%Q;
     num_add := Qplus;
     num_mul := Qmult;
     num_gt := fun x y => negb (Qle_bool x y);
     num_ratio := fun n d => (inject_Z n / inject_Z d)%Q;
     num_milli := fun d => (d # 1000)%Q |}.

(** *** Undefined behaviour

    What the C++ code leaves undefined is an explicit fault of the embedding. *)
Inductive fault :=
| DivisionByZero
| IndexOutOfBounds (index : Z)
| UninitializedRead
| SignedOverflow.

Inductive result (A : Type) :=
| Ok (a : A)
| Undefined (f : fault).
Arguments Ok {A} a.
Arguments Undefined {A} f.

(** Sequencing: a fault ends the computation. *)
#[global] Instance result_bind : MBind result :=
  fun A B (k : A -> result B) (r : result A) =>
    match r with
    | Ok a => k a
    | Undefined f => Undefined f
    end.

(** *** Reading the sample *)

Definition in_alphabet (c : ascii) : bool :=
  match index_of c ALPHABET with
  | Some _ => true
  | None => false
  end.

(** The inner [for(char c_ : line)]: the letters of a line, lower-cased. *)
Definition letters_of (line : list ascii) : list ascii :=
  List.filter in_alphabet (map tolower line).

(** [while(stream && ciph.size() < 2000)]: the stream is the list of its
    lines; the size of [ciph] is tested before a line is read. *)
Fixpoint read_sample (lines : list (list ascii)) (ciph : list ascii) : list ascii :=
  match lines with
  | [] => ciph
  | line :: rest =>
      if Z.of_nat (length ciph) <? 2000
      then read_sample rest (ciph ++ letters_of line)
      else ciph
  end.

(** *** Key-length estimation *)

(** The value of [matches] after the loop
    [for(int j = 0, k = i; k < ciph.size(); j++, k++)] for the shift [i], when
    the loop ends. *)
Definition matches_for (ciph : list ascii) (i : nat) : Z :=
  fold_left
    (fun matches j =>
       if Ascii.eqb (char_at ciph j) (char_at ciph (j + i)) then matches + 1 else matches)
    (seq 0 (length ciph - i)) 0.

(** The loop for the shift [i].  Its counter [k] is an [int] that is
    incremented until it reaches [ciph.size()]: when the loop is entered
    ([i < ciph.size()]) and the size is above [INT_MAX], the increment at
    [k = INT_MAX] overflows. *)
Definition count_matches (ciph : list ascii) (i : nat) : result Z :=
  if (i <? length ciph)%nat && (INT_MAX <? Z.of_nat (length ciph))
  then Undefined SignedOverflow
  else Ok (matches_for ciph i).

Record guess := Guess { guessLengths : list nat; guessMatches : Z }.

(** The two tests on [matches] that close a turn of the outer loop. *)
Definition guess_update (g : guess) (i : nat) (matches : Z) : guess :=
  if guessMatches g <? matches then Guess [i] matches
  else if matches =? guessMatches g then Guess (guessLengths g ++ [i]) (guessMatches g)
  else g.

Definition guess_step (ciph : list ascii) (g : guess) (i : nat) : result guess :=
  matches ← count_matches ciph i;
  Ok (guess_update g i matches).

(** [for(int i = 1; i <= key_max; i++)] over the values [idx] of [i] still to
    come.  [i] is an [int] and [key_max] a [uint64_t]: the test is made on
    [i] converted, so that for [key_max >= INT_MAX] the turn for
    [i = INT_MAX] is run and the increment after it overflows. *)
Fixpoint estimate_loop (ciph : list ascii) (idx : list nat) (g : guess)
    : result guess :=
  match idx with
  | [] => Ok g
  | i :: rest =>
      g' ← guess_step ciph g i;
      if INT_MAX <=? Z.of_nat i then Undefined SignedOverflow
      else estimate_loop ciph rest g'
  end.

Definition estimate (ciph : list ascii) (key_max : nat) : result guess :=
  estimate_loop ciph (seq 1 key_max) (Guess [] 0).

(** *** One symbol of the key *)

(** [for(int i = start; i < ciph.size(); i += len) ciph_.push_back(ciph[i])].
    For [len >= 1] the loop runs at most [ciph.size()] times.  [i] is an
    [int]: after a symbol is taken, [i += len] overflows when [i + len] is
    above [INT_MAX]. *)
Fixpoint column_from (fuel : nat) (ciph : list ascii) (i len : nat)
    : result (list ascii) :=
  match fuel with
  | O => Ok []
  | S fuel =>
      match nth_error ciph i with
      | Some c =>
          if INT_MAX <? Z.of_nat i + Z.of_nat len then Undefined SignedOverflow
          else rest ← column_from fuel ciph (i + len) len; Ok (c :: rest)
      | None => Ok []
      end
  end.

Definition column (ciph : list ascii) (start len : nat) : result (list ascii) :=
  column_from (length ciph) ciph start len.

(** [freqs[i] = make_pair(i, 0)] for [i] in [[0, 255)]. *)
Definition init_table : list (ascii * Z) :=
  map (fun i => (ascii_of_nat i, 0)) (seq 0 255).

(** The lambda [inc]: [p.second++]. *)
Definition inc (p : ascii * Z) : ascii * Z := (fst p, snd p + 1).

(** Modelled from the spec: [frequency::countFrequencies], the external
    frequency counter: it scans the symbols and applies [inc] to the entry of
    the table at the position of each symbol.  (A position outside the table
    leaves it unchanged.) *)
Fixpoint countFrequencies (text : list ascii) (table : list (ascii * Z))
    (inc : ascii * Z -> ascii * Z) : list (ascii * Z) :=
  match text with
  | [] => table
  | c :: rest => countFrequencies rest (alter inc (nat_of_ascii c) table) inc
  end.

(** What [std::sort] with the comparison [l.second > r.second] guarantees of
    its result: a rearrangement of the table in which no later count is
    larger than an earlier one.  The order of equal counts is not specified. *)
Definition sorted_by_count (table sorted : list (ascii * Z)) : Prop :=
  Permutation table sorted /\
  StronglySorted (fun l r => snd r <= snd l) sorted.

(** One rearrangement [std::sort] may produce: equal counts keep the order of
    the table. *)
Fixpoint insert_desc (e : ascii * Z) (l : list (ascii * Z)) : list (ascii * Z) :=
  match l with
  | [] => [e]
  | x :: rest =>
      if snd x <=? snd e then e :: x :: rest else x :: insert_desc e rest
  end.

Definition sort_desc (l : list (ascii * Z)) : list (ascii * Z) :=
  fold_right insert_desc [] l.

(** The index written for the entry of the symbol [c]: [freqs[i].first - 'a']. *)
Definition write_index (c : ascii) : Z := char_to_int c - 97.

Section Crack.

Variable A : arith.

(** [std::sort(freqs.begin(), freqs.end(), ...)]. *)
Variable sort : list (ascii * Z) -> list (ascii * Z).

(** The reference frequencies of the English letters. *)
Definition FREQUENCIES : list (num A) :=
  map (num_milli A)
    [82; 15; 28; 43; 127; 22; 20; 61; 70; 2;
     8; 40; 24; 67; 75; 19; 1; 60; 63; 91;
     28; 10; 23; 1; 20; 1].

(** [W[freqs[i].first - 'a'] = freqs[i].second / (double) ciph_.size()] over
    the entries [top] still to be written.  Both a zero divisor and an index
    outside [W] are undefined; the division is looked at first. *)
Fixpoint percentages_loop (top : list (ascii * Z)) (size : Z) (W : list (num A))
    : result (list (num A)) :=
  match top with
  | [] => Ok W
  | e :: rest =>
      if size =? 0 then Undefined DivisionByZero
      else
        let index := write_index (fst e) in
        if (0 <=? index) && (index <? 26)
        then percentages_loop rest size
               (<[Z.to_nat index := num_ratio A (snd e) size]> W)
        else Undefined (IndexOutOfBounds index)
  end.

(** [vector<double> W(26)] and the loop [for(int i = 0; i < 26; i++)]. *)
Definition percentages (freqs : list (ascii * Z)) (size : Z) : result (list (num A)) :=
  percentages_loop (firstn 26 freqs) size (repeat (num_zero A) 26).

(** [dot] for the shift [i]: the inner loop over [j], with [freq] starting at
    [(26 - i) % 26] and advancing cyclically. *)
Definition dot (W : list (num A)) (i : nat) : num A :=
  fst (fold_left
         (fun (st : num A * nat) j =>
            (num_add A (fst st)
               (num_mul A (nth (snd st) FREQUENCIES (num_zero A)) (nth j W (num_zero A))),
             ((snd st + 1) mod 26)%nat))
         (seq 0 26) (num_zero A, ((26 - i) mod 26)%nat)).

(** [maxDot] and [maxShift]; [maxShift] is declared without a value. *)
Record best := Best { maxDot : num A; maxShift : option nat }.

Definition shift_step (W : list (num A)) (b : best) (i : nat) : best :=
  let d := dot W i in
  if num_gt A d (maxDot b) then Best d (Some i) else b.

Definition best_shift (W : list (num A)) : option nat :=
  maxShift (fold_left (shift_step W) (seq 0 26) (Best (num_zero A) None)).

(** The symbol appended to the key, [ALPHABET[maxShift]]. *)
Definition key_symbol (W : list (num A)) : result ascii :=
  match best_shift W with
  | Some s => Ok (char_at ALPHABET s)
  | None => Undefined UninitializedRead
  end.

(** The body of [for(int start = 0; start < len; start++)]. *)
Definition column_symbol (ciph : list ascii) (len start : nat) : result ascii :=
  ciph_ ← column ciph start len;
  let freqs := sort (countFrequencies ciph_ init_table inc) in
  W ← percentages freqs (Z.of_nat (length ciph_));
  key_symbol W.

Fixpoint recover_from (ciph : list ascii) (len : nat) (starts : list nat)
    (key : list ascii) : result (list ascii) :=
  match starts with
  | [] => Ok key
  | start :: rest =>
      c ← column_symbol ciph len start;
      recover_from ciph len rest (key ++ [c])
  end.

Definition recover_key (ciph : list ascii) (len : nat) : result (list ascii) :=
  recover_from ciph len (seq 0 len) [].

(** The [Crack] branch: the estimation, then one potential key per guessed
    length. *)
Definition Crack (lines : list (list ascii)) (key_max : nat)
    : result (list (result (list ascii))) :=
  let ciph := read_sample lines [] in
  g ← estimate ciph key_max;
  Ok (map (recover_key ciph) (guessLengths g)).

End Crack.

End Vigenere.

(** ** Vocabulary of the statements *)

Module Spec.

Import Affine.

(** The prefix of [l] up to and including its first element that satisfies [p]. *)
Fixpoint take_through {X : Type} (p : X -> bool) (l : list X) : list X :=
  match l with
  | [] => []
  | x :: rest => if p x then [x] else x :: take_through p rest
  end.

(** The keys of the exhaustive search: [a] in [[1, 26)] coprime with 26 and
    [b] in [[0, 26)], [a] ascending, then [b] ascending. *)
Definition candidates : list (nat * nat) :=
  list_prod (List.filter (fun a => Z.gcd (Z.of_nat a) 26 =? 1) (seq 1 25)) (seq 0 26).

Definition lex_lt (k1 k2 : nat * nat) : Prop :=
  (fst k1 < fst k2 \/ (fst k1 = fst k2 /\ snd k1 < snd k2))%nat.

(** The MatchScore of the key [k] and the row printed for it. *)
Definition score (decrypt : Z -> Z -> list ascii -> list ascii)
    (ciph : list ascii) (known : list (ascii * ascii)) (k : nat * nat) : Z :=
  fst (checkSoln decrypt (Z.of_nat (fst k)) (Z.of_nat (snd k)) ciph known).

Definition row_of (decrypt : Z -> Z -> list ascii -> list ascii)
    (ciph : list ascii) (k : nat * nat) : row :=
  Row (Z.of_nat (fst k)) (Z.of_nat (snd k))
      (decrypt (Z.of_nat (fst k)) (Z.of_nat (snd k)) ciph).

(** The key scores 2, which ends the search; the key is printed, its score
    not being -1. *)
Definition confident (decrypt : Z -> Z -> list ascii -> list ascii)
    (ciph : list ascii) (known : list (ascii * ascii)) (k : nat * nat) : bool :=
  score decrypt ciph known k =? 2.

Definition accepted (decrypt : Z -> Z -> list ascii -> list ascii)
    (ciph : list ascii) (known : list (ascii * ascii)) (k : nat * nat) : bool :=
  negb (score decrypt ciph known k =? -1).

(** The keys looked at before the search ends: all of them up to the first
    one that scores 2. *)
Definition evaluated (decrypt : Z -> Z -> list ascii -> list ascii)
    (ciph : list ascii) (known : list (ascii * ascii)) : list (nat * nat) :=
  take_through (confident decrypt ciph known) candidates.

(** A known pair whose plain symbol occurs in the decrypted text. *)
Definition occurs (msg : list ascii) (p : ascii * ascii) : bool :=
  match index_of (fst p) msg with
  | Some _ => true
  | None => false
  end.

(** At the first occurrence of the plain symbol, the ciphertext holds the
    cipher symbol of the pair. *)
Definition agrees (msg ciph : list ascii) (p : ascii * ascii) : bool :=
  match index_of (fst p) msg with
  | Some i => Ascii.eqb (char_at ciph i) (snd p)
  | None => false
  end.

(** The plain symbol occurs, and somewhere it stands for another cipher
    symbol than the one of the pair. *)
Definition contradicted (msg ciph : list ascii) (p : ascii * ascii) : Prop :=
  exists i, nth_error msg i = Some (fst p) /\ char_at ciph i <> snd p.

(** The score in terms of the known pairs that occur, in list order. *)
Definition score_of_occurring (msg ciph : list ascii)
    (occurring : list (ascii * ascii)) : Z :=
  match occurring with
  | [] => 0
  | p :: rest =>
      if agrees msg ciph p then
        match rest with
        | [] => 1
        | q :: _ => if agrees msg ciph q then 2 else -1
        end
      else -1
  end.

(** [inv] is an inverse of [d] modulo 26. *)
Definition is_inverse (d inv : Z) : Prop := (d * inv) mod 26 = 1.

(** A row printed after [checkSoln] accepted its key. *)
Definition verified (decrypt : Z -> Z -> list ascii -> list ascii)
    (ciph : list ascii) (known : list (ascii * ascii)) (r : row) : Prop :=
  fst (checkSoln decrypt (row_a r) (row_b r) ciph known) <> -1 /\
  row_text r = snd (checkSoln decrypt (row_a r) (row_b r) ciph known).

(** The pairs of indices [i < j < n], in the order of two nested loops. *)
Definition index_pairs (n : nat) : list (nat * nat) :=
  flat_map (fun i => map (pair i) (seq (i + 1) (n - (i + 1)))) (seq 0 n).

(** The solution of the known pairs at the indices [k]. *)
Definition known_solution (known : list (ascii * ascii)) (k : nat * nat) : Z * Z :=
  linsolve (residues (nth (fst k) known (zero, zero)))
           (residues (nth (snd k) known (zero, zero))).

(** A row printed by tier 1: the first non-zero solution of two known pairs,
    decrypted and not scored.  It is the solution of the pairs at some
    [i < j], and the pairs at every [(i', j')] before [(i, j)] have none. *)
Definition solved_from_known (decrypt : Z -> Z -> list ascii -> list ascii)
    (ciph : list ascii) (known : list (ascii * ascii)) (r : row) : Prop :=
  exists i j, (i < j < length known)%nat /\
    linsolve (residues (nth i known (zero, zero)))
             (residues (nth j known (zero, zero))) = (row_a r, row_b r) /\
    row_a r <> 0 /\
    row_text r = decrypt (row_a r) (row_b r) ciph /\
    forall i' j', (i' < j' < length known)%nat -> lex_lt (i', j') (i, j) ->
      fst (linsolve (residues (nth i' known (zero, zero)))
                    (residues (nth j' known (zero, zero)))) = 0.

(** Tier 1 either prints nothing and goes on, no two known pairs having a
    solution, or prints one row and stops. *)
Definition tier1_state (decrypt : Z -> Z -> list ascii -> list ascii)
    (ciph : list ascii) (known : list (ascii * ascii)) (s : search) : Prop :=
  (done s = false /\ out s = [] /\
   forall i j, (i < j < length known)%nat ->
     fst (linsolve (residues (nth i known (zero, zero)))
                   (residues (nth j known (zero, zero)))) = 0) \/
  (done s = true /\ exists r, out s = [r] /\ solved_from_known decrypt ciph known r).

(** Following the spec's words: a frequency hypothesis (plain, cipher)
    collides with a known pair when it shares its plain or its cipher symbol. *)
Definition spec_collides (hypothesis known : ascii * ascii) : bool :=
  Ascii.eqb (fst hypothesis) (fst known) || Ascii.eqb (snd hypothesis) (snd known).

(** The hypothesis of tier 2 for rank [i], as symbols. *)
Definition hypothesis (freqs : list (ascii * Z)) (i : nat) : ascii * ascii :=
  (nth i FREQUENCIES zero, fst (nth i freqs (zero, 0))).

(** Following the spec's words: the number of positions [i] with
    [ciphertext[i] == ciphertext[i + L]]. *)
Definition coincidences (ciph : list ascii) (L : nat) : nat :=
  length (List.filter (fun i => Ascii.eqb (char_at ciph i) (char_at ciph (i + L)))
                      (seq 0 (length ciph - L))).

(** Following the spec's words: the lengths in [[1, key_max]] whose count is
    the largest, in ascending order. *)
Definition retained (ciph : list ascii) (key_max : nat) : list nat :=
  List.filter
    (fun L => forallb (fun L' => (coincidences ciph L' <=? coincidences ciph L)%nat)
                      (seq 1 key_max))
    (seq 1 key_max).

(** The largest count met over the lengths [l], and at least 0. *)
Definition max_count (ciph : list ascii) (l : list nat) : Z :=
  fold_right (fun L m => Z.max (Vigenere.matches_for ciph L) m) 0 l.

(** Following the spec's words:
    [score(s) = sum over j of reference[(s + j) mod 26] * columnFreq[j]],
    the terms added in ascending [j]. *)
Definition spec_score (A : Vigenere.arith) (W : list (Vigenere.num A)) (s : nat)
    : Vigenere.num A :=
  fold_left
    (fun acc j =>
       Vigenere.num_add A acc
         (Vigenere.num_mul A
            (nth ((s + j) mod 26)%nat (Vigenere.FREQUENCIES A) (Vigenere.num_zero A))
            (nth j W (Vigenere.num_zero A))))
    (seq 0 26) (Vigenere.num_zero A).

(** The sum with the reference taken at [(j - s) mod 26], the terms added in
    ascending [j]. *)
Definition shifted_score (A : Vigenere.arith) (W : list (Vigenere.num A)) (s : nat)
    : Vigenere.num A :=
  fold_left
    (fun acc j =>
       Vigenere.num_add A acc
         (Vigenere.num_mul A
            (nth ((j + 26 - s) mod 26)%nat (Vigenere.FREQUENCIES A) (Vigenere.num_zero A))
            (nth j W (Vigenere.num_zero A))))
    (seq 0 26) (Vigenere.num_zero A).

(** The number of symbols of [text] at the position [i] of the table. *)
Definition occurrences (text : list ascii) (i : nat) : Z :=
  Z.of_nat (length (List.filter (fun c => (nat_of_ascii c =? i)%nat) text)).

(** The table of the counts of [text], in the order of the symbols. *)
Definition counted (text : list ascii) : list (ascii * Z) :=
  map (fun i => (ascii_of_nat i, occurrences text i)) (seq 0 255).

(** An entry with a count above 0. *)
Definition positive (e : ascii * Z) : bool := 0 <? snd e.

(** The index written for the symbol [c] lies inside [W]. *)
Definition in_bounds (c : ascii) : Prop := 0 <= Vigenere.write_index c < 26.

End Spec.

(** ** Inputs of the examples *)

Module Examples.

Definition text (s : string) : list ascii := list_ascii_of_string s.

(** Three known pairs, the third at odds with the key the first two fix. *)
Definition known3 : list (ascii * ascii) :=
  [("a"%char, "b"%char); ("b"%char, "c"%char); ("c"%char, "z"%char)].

(** One known pair, and the sorted table of the text [xx]. *)
Definition known_x : list (ascii * ascii) := [("x"%char, "c"%char)].
Definition known_e : list (ascii * ascii) := [("e"%char, "x"%char)].
Definition table_with_top (c : ascii) (n : Z) : list (ascii * Z) :=
  (c, n) :: List.filter (fun e => negb (Ascii.eqb (fst e) c)) Vigenere.init_table.
Definition freqs_xx : list (ascii * Z) := table_with_top "x"%char 2.

(** The sorted table of the text [d]. *)
Definition freqs_d : list (ascii * Z) := table_with_top "d"%char 1.

(** The percentages of a column that holds the letter [b] only. *)
Definition W_b : list Q := <[1%nat := 1%Q]> (repeat 0%Q 26).

End Examples.

(** ** The command lines of the two tools *)

(** The first character of an argument, [argv[i][0]]; the terminating NUL for
    an empty argument. *)
Definition first_char (arg : string) : ascii :=
  match arg with
  | String c _ => c
  | EmptyString => zero
  end.

Module AffineCli.

Inductive Input := Input_None | Input_File | Input_Term.
Inductive Output := Output_None | Output_File | Output_Term.
Inductive Mode := Mode_None | Encrypt | Decrypt | Crack_All | Crack_Best.

(** The values [processArgs] hands back.  [a] and [b] are [None] as long as
    the flags [a_] and [b_] are false. *)
Record options := Options {
  inMode : Input;
  outMode : Output;
  op : Mode;
  a : option Z;
  b : option Z;
  input : string;
  output : string;
  known : list (ascii * ascii)
}.

Definition start : options :=
  Options Input_None Output_None Mode_None None None EmptyString EmptyString [].

Definition is_none_in (m : Input) : bool :=
  match m with Input_None => true | _ => false end.
Definition is_none_out (m : Output) : bool :=
  match m with Output_None => true | _ => false end.
Definition is_none_op (m : Mode) : bool :=
  match m with Mode_None => true | _ => false end.

Definition one_operation : string := "Choose exactly one operation [-e, -d, -ca, -cb]".
Definition one_input : string := "Choose exactly one input mode [-it, -if]".
Definition one_output : string := "Choose exactly one output mode [-ot, -of]".
Definition enter_a : string := "Enter a with -a [int]".
Definition enter_b : string := "Enter b with -b [int]".

Section Parse.

(** [std::stoll]; [None] when it throws. *)
Variable stoll : string -> option Z.

Definition set_op (m : Mode) (o : options) : options :=
  Options (inMode o) (outMode o) m (a o) (b o) (input o) (output o) (known o).

(** The loop over [argv[1 ..]], from the arguments [args] still to be read:
    the message handed to [help] when [processArgs] returns false, or the
    values at the end of the loop. *)
Fixpoint parse (args : list string) (o : options) : string + options :=
  match args with
  | [] => inr o
  | arg :: rest =>
      if String.eqb arg "-a" then
        match a o, rest with
        | None, value :: rest' =>
            match stoll value with
            | Some n =>
                parse rest' (Options (inMode o) (outMode o) (op o) (Some n) (b o)
                                     (input o) (output o) (known o))
            | None => inl enter_a
            end
        | _, _ => inl enter_a
        end
      else if String.eqb arg "-b" then
        match b o, rest with
        | None, value :: rest' =>
            match stoll value with
            | Some n =>
                parse rest' (Options (inMode o) (outMode o) (op o) (a o) (Some n)
                                     (input o) (output o) (known o))
            | None => inl enter_b
            end
        | _, _ => inl enter_b
        end
      else if String.eqb arg "-it" then
        if is_none_in (inMode o) then
          match rest with
          | text :: rest' =>
              parse rest' (Options Input_Term (outMode o) (op o) (a o) (b o)
                                   text (output o) (known o))
          | [] => inl "Enter text with -it {text}"%string
          end
        else inl one_input
      else if String.eqb arg "-if" then
        if is_none_in (inMode o) then
          match rest with
          | file :: rest' =>
              parse rest' (Options Input_File (outMode o) (op o) (a o) (b o)
                                   file (output o) (known o))
          | [] => inl "Enter file name with -if {file}"%string
          end
        else inl one_input
      else if String.eqb arg "-ot" then
        if is_none_out (outMode o) then
          parse rest (Options (inMode o) Output_Term (op o) (a o) (b o)
                              (input o) (output o) (known o))
        else inl one_output
      else if String.eqb arg "-of" then
        if is_none_out (outMode o) then
          match rest with
          | file :: rest' =>
              parse rest' (Options (inMode o) Output_File (op o) (a o) (b o)
                                   (input o) file (known o))
          | [] => inl "Enter file name with -of {file}"%string
          end
        else inl one_output
      else if String.eqb arg "-e" then
        if is_none_op (op o) then parse rest (set_op Encrypt o) else inl one_operation
      else if String.eqb arg "-d" then
        if is_none_op (op o) then parse rest (set_op Decrypt o) else inl one_operation
      else if String.eqb arg "-ca" then
        if is_none_op (op o) then parse rest (set_op Crack_All o) else inl one_operation
      else if String.eqb arg "-cb" then
        if is_none_op (op o) then parse rest (set_op Crack_Best o) else inl one_operation
      else if String.eqb arg "-k" then
        match rest with
        | from :: to :: rest' =>
            parse rest' (Options (inMode o) (outMode o) (op o) (a o) (b o)
                                 (input o) (output o)
                                 (known o ++ [(first_char from, first_char to)]))
        | _ => parse rest o
        end
      else inl ("Unknown option: " ++ arg)%string
  end.

(** The tests after the loop. *)
Definition complete (o : options) : string + options :=
  if is_none_op (op o) then inl one_operation
  else if is_none_in (inMode o) then inl one_input
  else
    match op o with
    | Encrypt | Decrypt =>
        match a o with
        | None => inl enter_a
        | Some _ =>
            match b o with
            | None => inl enter_b
            | Some _ => if is_none_out (outMode o) then inl one_output else inr o
            end
        end
    | _ => inr o
    end.

(** [processArgs] on [argv[1 ..]]. *)
Definition processArgs (args : list string) : string + options :=
  match parse args start with
  | inl message => inl message
  | inr o => complete o
  end.

End Parse.

End AffineCli.

Module VigenereCli.

Inductive Input := Input_None | Input_File | Input_Term.
Inductive Output := Output_None | Output_File | Output_Term.
Inductive Mode := Mode_None | Encrypt | Decrypt | Crack.

Record options := Options {
  inMode : Input;
  outMode : Output;
  op : Mode;
  key : string;
  key_max : Z;
  input : string;
  output : string
}.

Definition start : options :=
  Options Input_None Output_None Mode_None EmptyString 0 EmptyString EmptyString.

Definition is_none_in (m : Input) : bool :=
  match m with Input_None => true | _ => false end.
Definition is_none_out (m : Output) : bool :=
  match m with Output_None => true | _ => false end.
Definition is_none_op (m : Mode) : bool :=
  match m with Mode_None => true | _ => false end.
Definition is_crack (m : Mode) : bool :=
  match m with Crack => true | _ => false end.

Definition one_operation : string := "Choose exactly one operation [-e, -d, -c]".
Definition one_input : string := "Choose exactly one input mode [-it, -if]".
Definition one_output : string := "Choose exactly one output mode [-ot, -of]".
Definition enter_key : string := "Enter key with -k [key]".
Definition max_length : string := "Specify the max key length with -c [max length]".

Section Parse.

(** [std::stoull]; [None] when it throws. *)
Variable stoull : string -> option Z.

Fixpoint parse (args : list string) (o : options) : string + options :=
  match args with
  | [] => inr o
  | arg :: rest =>
      if String.eqb arg "-k" then
        match rest with
        | value :: rest' =>
            parse rest' (Options (inMode o) (outMode o) (op o) value (key_max o)
                                 (input o) (output o))
        | [] => inl enter_key
        end
      else if String.eqb arg "-it" then
        if is_none_in (inMode o) then
          match rest with
          | text :: rest' =>
              parse rest' (Options Input_Term (outMode o) (op o) (key o) (key_max o)
                                   text (output o))
          | [] => inl "Enter text with -it {text}"%string
          end
        else inl one_input
      else if String.eqb arg "-if" then
        if is_none_in (inMode o) then
          match rest with
          | file :: rest' =>
              parse rest' (Options Input_File (outMode o) (op o) (key o) (key_max o)
                                   file (output o))
          | [] => inl "Enter file name with -if {file}"%string
          end
        else inl one_input
      else if String.eqb arg "-ot" then
        if is_none_out (outMode o) then
          parse rest (Options (inMode o) Output_Term (op o) (key o) (key_max o)
                              (input o) (output o))
        else inl one_output
      else if String.eqb arg "-of" then
        if is_none_out (outMode o) then
          match rest with
          | file :: rest' =>
              parse rest' (Options (inMode o) Output_File (op o) (key o) (key_max o)
                                   (input o) file)
          | [] => inl "Enter file name with -of {file}"%string
          end
        else inl one_output
      else if String.eqb arg "-e" then
        if is_none_op (op o) then
          parse rest (Options (inMode o) (outMode o) Encrypt (key o) (key_max o)
                              (input o) (output o))
        else inl one_operation
      else if String.eqb arg "-d" then
        if is_none_op (op o) then
          parse rest (Options (inMode o) (outMode o) Decrypt (key o) (key_max o)
                              (input o) (output o))
        else inl one_operation
      else if String.eqb arg "-c" then
        if is_none_op (op o) then
          match rest with
          | value :: rest' =>
              match stoull value with
              | Some n =>
                  parse rest' (Options (inMode o) (outMode o) Crack (key o) n
                                       (input o) (output o))
              | None => inl max_length
              end
          | [] => inl max_length
          end
        else inl one_operation
      else inl ("Unknown option: " ++ arg)%string
  end.

Definition complete (o : options) : string + options :=
  if is_none_op (op o) then inl one_operation
  else if is_none_in (inMode o) then inl one_input
  else if is_crack (op o) then inr o
  else if is_none_out (outMode o) then inl one_output
  else if String.eqb (key o) "" then inl enter_key
  else inr o.

Definition processArgs (args : list string) : string + options :=
  match parse args start with
  | inl message => inl message
  | inr o => complete o
  end.

End Parse.

End VigenereCli.

(** ** The hexadecimal text of the DES tools *)

Module Hex.

Definition digits : list ascii := list_ascii_of_string "0123456789abcdef".

(** [find_first_not_of("0123456789abcdef")] does not stop at [c]. *)
Definition is_hex (c : ascii) : bool :=
  match index_of c digits with
  | Some _ => true
  | None => false
  end.

(** [c >= 'a' ? c - 'a' + 10 : c - '0']. *)
Definition digit_value (c : ascii) : Z :=
  if 97 <=? char_to_int c then char_to_int c - 97 + 10 else char_to_int c - 48.

(** An [int] pushed on a string: converted to [char]. *)
Definition char_of_int (v : Z) : ascii := ascii_of_N (Z.to_N (v mod 256)).

(** The loop [for(int i = 0; i < input.size(); i += 2)] on an input of even
    size. *)
Fixpoint bytes_of_pairs (input : list ascii) : list ascii :=
  match input with
  | hi :: lo :: rest =>
      char_of_int (Z.lor (Z.shiftl (digit_value hi) 4) (digit_value lo))
      :: bytes_of_pairs rest
  | _ => []
  end.

(** [charsFromHex]; [None] when it throws. *)
Definition charsFromHex (input : list ascii) : option (list ascii) :=
  let input := map tolower input in
  if forallb is_hex input then
    let input := if Nat.odd (length input) then input ++ ["0"%char] else input in
    Some (bytes_of_pairs input)
  else None.

(** [v >= 10 ? v - 10 + 'a' : v + '0']. *)
Definition digit_char (v : Z) : ascii :=
  char_of_int (if 10 <=? v then v - 10 + 97 else v + 48).

Definition hexFromChars (input : list ascii) : list ascii :=
  flat_map (fun c1 => let c := code c1 in
                      [digit_char (Z.shiftr c 4); digit_char (Z.land c 15)])
           input.

End Hex.

(** ** The blocks of the simplified DES tool *)

Module Des4Tool.

(** Three bytes read into two blocks ([uint16_t]):
    [block1 = (blocks[0] << 4) | (blocks[1] >> 4)] and
    [block2 = (blocks[1] << 8) | blocks[2]]. *)
Definition split (b0 b1 b2 : Z) : Z * Z :=
  ((Z.lor (Z.shiftl b0 4) (Z.shiftr b1 4)) mod 65536,
   (Z.lor (Z.shiftl b1 8) b2) mod 65536).

(** Two blocks written back to three bytes ([uint8_t]). *)
Definition join (block1 block2 : Z) : Z * Z * Z :=
  ((Z.shiftr (Z.land block1 4080) 4) mod 256,
   (Z.lor (Z.shiftl (Z.land block1 15) 4) (Z.shiftr (Z.land block2 3840) 8)) mod 256,
   (Z.land block2 255) mod 256).

(** One turn of the loop of [main] on three bytes, with the cipher [op]
    ([des4::encrypt] or [des4::decrypt] with the key and 4 rounds). *)
Definition process (op : Z -> Z) (b0 b1 b2 : Z) : Z * Z * Z :=
  let blocks := split b0 b1 b2 in
  join (op (fst blocks)) (op (snd blocks)).

(** The loop of [main] over the bytes of the input (in the file mode): three
    bytes are read at a time into [blocks], which is cleared before; the loop
    ends at a read that gets nothing; three bytes are written for every
    group read, also for a last group of one or two. *)
Fixpoint run (op : Z -> Z) (input : list Z) : list Z :=
  match input with
  | [] => []
  | [b0] => let '(c0, c1, c2) := process op b0 0 0 in [c0; c1; c2]
  | [b0; b1] => let '(c0, c1, c2) := process op b0 b1 0 in [c0; c1; c2]
  | b0 :: b1 :: b2 :: rest =>
      let '(c0, c1, c2) := process op b0 b1 b2 in c0 :: c1 :: c2 :: run op rest
  end.

(** [key_val |= ((key[i] - '0') << 8 - i)] for [i] in [[0, 9)], on a key
    of the characters [0] and [1]; [key_val] is a [uint16_t]. *)
Definition key_val (key : list ascii) : Z :=
  fold_left
    (fun key_val i =>
       (Z.lor key_val (Z.shiftl (char_to_int (char_at key i) - 48) (8 - Z.of_nat i)))
       mod 65536)
    (seq 0 9) 0.

(** The test on the key: nine characters, each [0] or [1]. *)
Definition key_ok (key : list ascii) : bool :=
  forallb (fun c => Ascii.eqb c "0"%char || Ascii.eqb c "1"%char) key
  && (length key =? 9)%nat.

End Des4Tool.

(** ** The blocks of the RSA tool *)

Module RsaTool.

(** [blockSize]: the loop [while(a * 255 < n)], at most [fuel] times. *)
Fixpoint blockSize_loop (fuel : nat) (a p n : Z) : Z :=
  match fuel with
  | O => p
  | S fuel => if a * 255 <? n then blockSize_loop fuel (a * 256) (p + 1) n else p
  end.

(** The loop multiplies [a] by 256 each time, so it runs fewer than [n]
    times. *)
Definition blockSize (n : Z) : Z := blockSize_loop (Z.to_nat n) 1 0 n.

(** An input stream: the bytes still to be read, and whether the stream is
    good. *)
Record stream := Stream { rest : list Z; good : bool }.

(** [in.get()] kept in an [unsigned char]: the next byte; at the end of the
    input the stream fails and [get] returns [EOF], -1, that is 255. *)
Definition get (s : stream) : Z * stream :=
  if good s then
    match rest s with
    | b :: r => (b, Stream r true)
    | [] => (255, Stream [] false)
    end
  else (255, s).

Section Blocks.

(** [cryptomath::powInt<mpz_class>], of the library. *)
Variable powInt : Z -> Z -> Z.

(** The loop of [encrypt] that builds a block,
    [for(i = 0; i < chars && (c = in.get()); block = block + c * powInt(256, chars - (i++) - 1))],
    from [i] on, with [todo = chars - i]. *)
Fixpoint read_block (todo : nat) (chars i block : Z) (s : stream) : Z * stream :=
  match todo with
  | O => (block, s)
  | S todo =>
      let '(c, s') := get s in
      if c =? 0 then (block, s')
      else read_block todo chars (i + 1) (block + c * powInt 256 (chars - i - 1)) s'
  end.

(** The loop [while(in)] of [encrypt], at most [fuel] times: the blocks it
    hands to [powMod], or [None] when the loop has not ended by then. *)
Fixpoint encrypt_loop (fuel : nat) (chars : Z) (s : stream) : option (list Z) :=
  match fuel with
  | O => if good s then None else Some []
  | S fuel =>
      if good s then
        let '(block, s') := read_block (Z.to_nat chars) chars 0 0 s in
        option_map (cons block) (encrypt_loop fuel chars s')
      else Some []
  end.

(** The loop of [decrypt] that takes a block apart, [todo] characters still
    to write: [c = (block / power).get_ui()] kept in an [unsigned char],
    [block = block - c * power], [power = power / 256]. *)
Fixpoint chars_of_loop (todo : nat) (block power : Z) : list Z :=
  match todo with
  | O => []
  | S todo =>
      let c := Z.abs (Z.quot block power) mod 256 in
      c :: chars_of_loop todo (block - c * power) (Z.quot power 256)
  end.

(** The characters [decrypt] writes for a decrypted block; [chars - 1] is
    computed in [uint64_t]. *)
Definition chars_of (chars : Z) (block : Z) : list Z :=
  chars_of_loop (Z.to_nat chars) block (powInt 256 ((chars - 1) mod 2 ^ 64)).

End Blocks.

End RsaTool.

(** ** Vocabulary of the further properties *)

Module Terms.

(** The letter with the residue [x]. *)
Definition letter (x : Z) : ascii := nth (Z.to_nat x) Affine.ALPHABET zero.

(** The key of a printed row. *)
Definition key_of (r : Affine.row) : Z * Z := (Affine.row_a r, Affine.row_b r).

(** A key of the affine cipher over 26 letters. *)
Definition valid_key (k : Z * Z) : Prop :=
  0 < fst k < 26 /\ Z.gcd (fst k) 26 = 1 /\ 0 <= snd k < 26.

(** What the [-cb] search keeps true of its state: the printed keys are
    valid, pairwise distinct, and all in the set of tested keys. *)
Definition search_invariant (s : Affine.search) : Prop :=
  NoDup (map key_of (Affine.out s))
  /\ (forall r, In r (Affine.out s) -> key_of r ∈ Affine.tested s)
  /\ Forall (fun r => valid_key (key_of r)) (Affine.out s).

(** The position of [W] written for an entry of the table. *)
Definition slot (e : ascii * Z) : nat := Z.to_nat (Vigenere.write_index (fst e)).

(** The assignment [W[freqs[i].first - 'a'] = freqs[i].second / size]. *)
Definition write_slot (A : Vigenere.arith) (size : Z)
    (W : list (Vigenere.num A)) (e : ascii * Z) : list (Vigenere.num A) :=
  <[slot e := Vigenere.num_ratio A (snd e) size]> W.

(** The entries of the table for the 26 letters, [a] first. *)
Definition letter_entries (col : list ascii) : list (ascii * Z) :=
  map (fun i => (ascii_of_nat i, Spec.occurrences col i)) (seq 97 26).

(** For each letter, its count in the column divided by the size of the
    column. *)
Definition letter_percentages (A : Vigenere.arith) (col : list ascii)
    : list (Vigenere.num A) :=
  map (fun j => Vigenere.num_ratio A (Spec.occurrences col (97 + j))
                                    (Z.of_nat (length col)))
      (seq 0 26).

(** The pairs of ranks the third tier goes through, in its order. *)
Definition rank_pairs : list (nat * nat) :=
  flat_map (fun i => map (pair i) (seq (i + 1) (26 - (i + 1)))) (seq 0 26).

(** The key each pair of ranks stands for: the solution of the two
    hypotheses "the symbol of this rank is the letter of this rank". *)
Definition rank_solutions (freqs : list (ascii * Z)) : list (Z * Z) :=
  map (fun k => Affine.linsolve (Affine.possible freqs (fst k))
                                (Affine.possible freqs (snd k)))
      rank_pairs.

(** The first occurrences of the elements of [l] that are not in [seen]. *)
Fixpoint first_occurrences (seen l : list (Z * Z)) : list (Z * Z) :=
  match l with
  | [] => []
  | k :: rest =>
      if bool_decide (k ∈ seen) then first_occurrences seen rest
      else k :: first_occurrences (k :: seen) rest
  end.

(** The arguments of one hint, [-k from to]. *)
Definition hint (p : string * string) : list string := ["-k"%string; fst p; snd p].

(** The pair of characters kept of a hint. *)
Definition hint_chars (p : string * string) : ascii * ascii :=
  (first_char (fst p), first_char (snd p)).

(** The flags that select the values of the affine tool. *)
Definition affine_op_flag (m : AffineCli.Mode) : string :=
  match m with
  | AffineCli.Encrypt => "-e"
  | AffineCli.Decrypt => "-d"
  | AffineCli.Crack_All => "-ca"
  | AffineCli.Crack_Best => "-cb"
  | AffineCli.Mode_None => ""
  end.

Definition affine_in_flag (m : AffineCli.Input) : string :=
  match m with
  | AffineCli.Input_Term => "-it"
  | AffineCli.Input_File => "-if"
  | AffineCli.Input_None => ""
  end.

Definition affine_out_flag (m : AffineCli.Output) : string :=
  match m with
  | AffineCli.Output_Term => "-ot"
  | AffineCli.Output_File => "-of"
  | AffineCli.Output_None => ""
  end.

(** What reading the arguments [args] may change, from the values [o] to
    the values [o']: a value is as it was, or its flag is among [args] (and
    for an input, [a] and [b], the argument it was read from). *)
Definition affine_read (stoll : string -> option Z) (args : list string)
    (o o' : AffineCli.options) : Prop :=
  (AffineCli.op o' = AffineCli.op o \/ In (affine_op_flag (AffineCli.op o')) args)
  /\ ((AffineCli.inMode o' = AffineCli.inMode o /\ AffineCli.input o' = AffineCli.input o)
      \/ (In (affine_in_flag (AffineCli.inMode o')) args /\ In (AffineCli.input o') args))
  /\ (AffineCli.outMode o' = AffineCli.outMode o
      \/ In (affine_out_flag (AffineCli.outMode o')) args)
  /\ (AffineCli.a o' = AffineCli.a o
      \/ (In "-a"%string args /\ exists v, In v args /\ stoll v = AffineCli.a o'))
  /\ (AffineCli.b o' = AffineCli.b o
      \/ (In "-b"%string args /\ exists v, In v args /\ stoll v = AffineCli.b o')).

(** The same for the Vigenere tool. *)
Definition vigenere_op_flag (m : VigenereCli.Mode) : string :=
  match m with
  | VigenereCli.Encrypt => "-e"
  | VigenereCli.Decrypt => "-d"
  | VigenereCli.Crack => "-c"
  | VigenereCli.Mode_None => ""
  end.

Definition vigenere_in_flag (m : VigenereCli.Input) : string :=
  match m with
  | VigenereCli.Input_Term => "-it"
  | VigenereCli.Input_File => "-if"
  | VigenereCli.Input_None => ""
  end.

Definition vigenere_out_flag (m : VigenereCli.Output) : string :=
  match m with
  | VigenereCli.Output_Term => "-ot"
  | VigenereCli.Output_File => "-of"
  | VigenereCli.Output_None => ""
  end.

Definition vigenere_read (stoull : string -> option Z) (args : list string)
    (o o' : VigenereCli.options) : Prop :=
  ((VigenereCli.op o' = VigenereCli.op o /\ VigenereCli.key_max o' = VigenereCli.key_max o)
   \/ (In (vigenere_op_flag (VigenereCli.op o')) args
       /\ (VigenereCli.op o' = VigenereCli.Crack ->
           exists v, In v args /\ stoull v = Some (VigenereCli.key_max o'))))
  /\ ((VigenereCli.inMode o' = VigenereCli.inMode o
       /\ VigenereCli.input o' = VigenereCli.input o)
      \/ (In (vigenere_in_flag (VigenereCli.inMode o')) args
          /\ In (VigenereCli.input o') args))
  /\ (VigenereCli.outMode o' = VigenereCli.outMode o
      \/ In (vigenere_out_flag (VigenereCli.outMode o')) args)
  /\ (VigenereCli.key o' = VigenereCli.key o
      \/ (In "-k"%string args /\ In (VigenereCli.key o') args)).

(** An instance of [stoll] and [stoull] for the examples: the value of one
    decimal digit. *)
Definition one_digit (v : string) : option Z :=
  match v with
  | String c EmptyString =>
      if (48 <=? code c) && (code c <=? 57) then Some (code c - 48) else None
  | _ => None
  end.

(** A value of a [uint8_t]. *)
Definition byte (b : Z) : Prop := 0 <= b < 256.

(** The nine binary digits of [v], the highest first. *)
Definition key_text (v : Z) : list ascii :=
  map (fun i => if Z.testbit v (8 - Z.of_nat i) then "1"%char else "0"%char) (seq 0 9).

(** The number whose digits in base 256 are [cs], the highest first. *)
Definition number (cs : list Z) : Z := fold_left (fun v c => v * 256 + c) cs 0.

End Terms.

(** * Properties *)

(** ** Loops *)

Section Loops.

Context {I S : Type} (stop : S -> bool).

Lemma for_until_stop (body : I -> S -> S) (idx : list I) (s : S) :
  stop s = true -> for_until stop body idx s = s.
Proof.
  intros Hs. destruct idx as [|i rest]; simpl; [reflexivity|].
  now rewrite Hs.
Qed.

Lemma for_until_app (body : I -> S -> S) (l1 l2 : list I) (s : S) :
  for_until stop body (l1 ++ l2) s =
  for_until stop body l2 (for_until stop body l1 s).
Proof.
  revert s. induction l1 as [|i l1 IH]; intros s; simpl; [reflexivity|].
  destruct (stop s) eqn:Hs; [|apply IH].
  symmetry. now apply for_until_stop.
Qed.

(** An invariant of the state is kept by the loop when every iteration that
    is run keeps it. *)
Lemma for_until_invariant (P : S -> Prop) (body : I -> S -> S) (idx : list I) (s : S) :
  P s ->
  (forall i s', In i idx -> stop s' = false -> P s' -> P (body i s')) ->
  P (for_until stop body idx s).
Proof.
  revert s. induction idx as [|i rest IH]; intros s Hs Hbody; simpl; [exact Hs|].
  destruct (stop s) eqn:Hstop; [exact Hs|].
  apply IH.
  - apply Hbody; [now left | exact Hstop | exact Hs].
  - intros i' s' Hin. apply Hbody. now right.
Qed.

(** An iteration that leaves the state as it is hands the loop over to the
    next index. *)
Lemma for_until_skip (body : I -> S -> S) (i : I) (rest : list I) (s : S) :
  body i s = s ->
  for_until stop body (i :: rest) s = for_until stop body rest s.
Proof.
  intros Hb. simpl. rewrite Hb.
  destruct (stop s) eqn:Hs; [|reflexivity].
  symmetry. now apply for_until_stop.
Qed.

End Loops.

Lemma for_until_map {I J S : Type} (stop : S -> bool) (f : I -> J)
    (body : J -> S -> S) (idx : list I) (s : S) :
  for_until stop body (map f idx) s = for_until stop (fun i => body (f i)) idx s.
Proof.
  revert s. induction idx as [|i rest IH]; intros s; simpl; [reflexivity|].
  now rewrite IH.
Qed.

(** Two nested loops on the same flag are one loop over the pairs of indices. *)
Lemma for_until_nested {I J S : Type} (stop : S -> bool) (guard : I -> bool)
    (body : I -> J -> S -> S) (outer : list I) (inner : list J) (s : S) :
  for_until stop
    (fun i s => if guard i then for_until stop (body i) inner s else s) outer s =
  for_until stop (fun k => body (fst k) (snd k))
    (flat_map (fun i => if guard i then map (pair i) inner else []) outer) s.
Proof.
  revert s. induction outer as [|i rest IH]; intros s; simpl; [reflexivity|].
  rewrite for_until_app, <- IH.
  destruct (stop s) eqn:Hs.
  - rewrite (for_until_stop stop _ _ s Hs). now rewrite for_until_stop.
  - f_equal. destruct (guard i); [|reflexivity].
    now rewrite for_until_map.
Qed.

Lemma for_until_nested_dep {I J S : Type} (stop : S -> bool)
    (body : I -> J -> S -> S) (outer : list I) (inner : I -> list J) (s : S) :
  for_until stop (fun i s => for_until stop (body i) (inner i) s) outer s =
  for_until stop (fun k => body (fst k) (snd k))
    (flat_map (fun i => map (pair i) (inner i)) outer) s.
Proof.
  revert s. induction outer as [|i rest IH]; intros s; cbn [for_until flat_map];
    [reflexivity|].
  rewrite for_until_app, <- IH.
  destruct (stop s) eqn:Hs.
  - rewrite (for_until_stop stop _ _ s Hs). now rewrite for_until_stop.
  - f_equal. now rewrite for_until_map.
Qed.

(** ** The exhaustive search [-ca] *)

Section CrackAll.

Import Affine Spec.

Variable decrypt : Z -> Z -> list ascii -> list ascii.
Variable ciph : list ascii.
Variable known : list (ascii * ascii).

Lemma step_eq (k : nat * nat) (d : bool) (acc : list row) :
  Crack_All_body decrypt ciph known (fst k) (snd k) (Scan d acc) =
  Scan (if confident decrypt ciph known k then true else d)
       (if accepted decrypt ciph known k
        then acc ++ [row_of decrypt ciph k] else acc).
Proof. reflexivity. Qed.

Lemma scan_loop (l : list (nat * nat)) (acc : list row) :
  scan_out (for_until scan_done
              (fun k => Crack_All_body decrypt ciph known (fst k) (snd k))
              l (Scan false acc)) =
  acc ++ map (row_of decrypt ciph)
             (List.filter (accepted decrypt ciph known)
                          (take_through (confident decrypt ciph known) l)).
Proof.
  revert acc. induction l as [|k rest IH]; intros acc.
  - simpl. now rewrite app_nil_r.
  - cbn [for_until take_through scan_done]. rewrite step_eq.
    destruct (confident decrypt ciph known k) eqn:H2.
    + rewrite for_until_stop by reflexivity.
      assert (Hok : accepted decrypt ciph known k = true).
      { unfold accepted. unfold confident in H2. apply Z.eqb_eq in H2. now rewrite H2. }
      cbn [List.filter map scan_out]. now rewrite Hok.
    + cbn [List.filter map].
      destruct (accepted decrypt ciph known k); rewrite IH; [|reflexivity].
      cbn [map]. now rewrite <- app_assoc.
Qed.

Lemma candidates_flat :
  flat_map (fun i => if cryptomath.gcd (Z.of_nat i) 26 =? 1
                     then map (pair i) (seq 0 26) else [])
           (seq 0 26) = candidates.
Proof. vm_compute. reflexivity. Qed.

Lemma Crack_All_nested :
  Crack_All decrypt ciph known =
  scan_out (for_until scan_done
              (fun k => Crack_All_body decrypt ciph known (fst k) (snd k))
              candidates (Scan false [])).
Proof.
  unfold Crack_All. f_equal.
  rewrite <- candidates_flat.
  apply (for_until_nested scan_done
           (fun i => cryptomath.gcd (Z.of_nat i) 26 =? 1)
           (Crack_All_body decrypt ciph known)).
Qed.

Lemma scan_loop_nil (l : list (nat * nat)) :
  scan_out (for_until scan_done
              (fun k => Crack_All_body decrypt ciph known (fst k) (snd k))
              l (Scan false [])) =
  map (row_of decrypt ciph)
      (List.filter (accepted decrypt ciph known)
                   (take_through (confident decrypt ciph known) l)).
Proof. exact (scan_loop l []). Qed.

Lemma Crack_All_flat :
  Crack_All decrypt ciph known =
  map (row_of decrypt ciph)
      (List.filter (accepted decrypt ciph known) (evaluated decrypt ciph known)).
Proof.
  rewrite Crack_All_nested, scan_loop_nil. unfold evaluated. reflexivity.
Qed.

End CrackAll.

Section TakeThrough.

Import Spec.

Context {X : Type} (p : X -> bool).

(** [take_through] keeps everything when nothing satisfies [p], and otherwise
    stops right after the first element that does. *)
Lemma take_through_split (l : list X) :
  (take_through p l = l /\ forall x, In x l -> p x = false) \/
  (exists pre k post,
      l = pre ++ k :: post /\ take_through p l = pre ++ [k] /\
      p k = true /\ forall x, In x pre -> p x = false).
Proof.
  induction l as [|x rest IH]; simpl.
  - left. split; [reflexivity | intros ? []].
  - destruct (p x) eqn:Hx.
    + right. exists [], x, rest. repeat split; try reflexivity; try assumption.
      intros ? [].
    + destruct IH as [[Heq Hall] | (pre & k & post & Hl & Ht & Hk & Hpre)].
      * left. split; [now rewrite Heq|].
        intros y [<- | Hy]; [assumption | now apply Hall].
      * right. exists (x :: pre), k, post. repeat split.
        -- simpl. now rewrite Hl.
        -- simpl. now rewrite Ht.
        -- assumption.
        -- intros y [<- | Hy]; [assumption | now apply Hpre].
Qed.

End TakeThrough.

Section SortedCheck.

Context {X : Type} (R : X -> X -> Prop) (Rb : X -> X -> bool).
Hypothesis Rb_sound : forall x y, Rb x y = true -> R x y.

Lemma ascending_Sorted (l : list X) : ascending Rb l = true -> Sorted R l.
Proof.
  induction l as [|x [|y rest] IH]; intros H.
  - constructor.
  - repeat constructor.
  - simpl in H. apply andb_prop in H as [Hxy Hrest].
    constructor; [now apply IH | constructor; now apply Rb_sound].
Qed.

End SortedCheck.

Lemma candidates_sorted : StronglySorted Spec.lex_lt Spec.candidates.
Proof.
  apply Sorted_StronglySorted.
  - intros [a1 b1] [a2 b2] [a3 b3]. unfold Spec.lex_lt. simpl. lia.
  - apply (ascending_Sorted Spec.lex_lt
             (fun k1 k2 => (fst k1 <? fst k2)%nat
                           || ((fst k1 =? fst k2)%nat && (snd k1 <? snd k2)%nat))).
    + intros [a1 b1] [a2 b2]. unfold Spec.lex_lt. simpl. intros H.
      apply orb_prop in H as [H | H].
      * left. now apply Nat.ltb_lt.
      * right. apply andb_prop in H as [H1 H2].
        split; [now apply Nat.eqb_eq | now apply Nat.ltb_lt].
    + vm_compute. reflexivity.
Qed.

Lemma candidates_in (a b : nat) :
  In (a, b) Spec.candidates <->
  (1 <= a < 26)%nat /\ Z.gcd (Z.of_nat a) 26 = 1 /\ (b < 26)%nat.
Proof.
  unfold Spec.candidates. rewrite in_prod_iff, filter_In, !in_seq, Z.eqb_eq. lia.
Qed.

(** C2. The exhaustive search [-ca] prints, in order, the keys [(a, b)] with
    a MatchScore other than -1 among the keys it evaluates; the keys it
    evaluates are those with [a] in [[1, 26)] coprime with 26 and [b] in
    [[0, 26)], by ascending [a] and then ascending [b], up to and including
    the first key whose MatchScore is 2, after which nothing more is
    evaluated. *)
Theorem Crack_All_prints_evaluated_matches
    (decrypt : Z -> Z -> list ascii -> list ascii)
    (ciph : list ascii) (known : list (ascii * ascii)) :
  Affine.Crack_All decrypt ciph known =
    map (Spec.row_of decrypt ciph)
        (List.filter (Spec.accepted decrypt ciph known)
                     (Spec.evaluated decrypt ciph known))
  /\ (forall r, In r (Affine.Crack_All decrypt ciph known) <->
        exists k, In k (Spec.evaluated decrypt ciph known) /\
                  Spec.score decrypt ciph known k <> -1 /\
                  r = Spec.row_of decrypt ciph k)
  /\ (forall a b, In (a, b) Spec.candidates <->
        (1 <= a < 26)%nat /\ Z.gcd (Z.of_nat a) 26 = 1 /\ (b < 26)%nat)
  /\ StronglySorted Spec.lex_lt Spec.candidates
  /\ ((Spec.evaluated decrypt ciph known = Spec.candidates /\
       forall k, In k Spec.candidates -> Spec.score decrypt ciph known k <> 2)
      \/ exists pre k post,
           Spec.candidates = pre ++ k :: post /\
           Spec.evaluated decrypt ciph known = pre ++ [k] /\
           Spec.score decrypt ciph known k = 2 /\
           forall k', In k' pre -> Spec.score decrypt ciph known k' <> 2).
Proof.
  split; [apply Crack_All_flat|].
  split.
  { intros r. rewrite Crack_All_flat, in_map_iff. split.
    - intros (k & Hr & Hk). apply filter_In in Hk as [Hk Hok].
      exists k. split; [assumption|]. split; [|now symmetry].
      unfold Spec.accepted in Hok.
      apply negb_true_iff, Z.eqb_neq in Hok. exact Hok.
    - intros (k & Hk & Hok & ->). exists k. split; [reflexivity|].
      apply filter_In. split; [assumption|].
      unfold Spec.accepted. now apply negb_true_iff, Z.eqb_neq. }
  split; [exact candidates_in|].
  split; [exact candidates_sorted|].
  unfold Spec.evaluated.
  destruct (take_through_split (Spec.confident decrypt ciph known) Spec.candidates)
    as [[Heq Hall] | (pre & k & post & Hl & Ht & Hk & Hpre)];
    unfold Spec.confident in *.
  - left. split; [assumption|].
    intros k Hk. now apply Z.eqb_neq, Hall.
  - right. exists pre, k, post. repeat split; try assumption.
    + now apply Z.eqb_eq.
    + intros k' Hk'. now apply Z.eqb_neq, Hpre.
Qed.

(** ** [linsolve] *)

Lemma range26_forallb (P : Z -> bool) :
  forallb P (map Z.of_nat (seq 0 26)) = true ->
  forall d, 0 <= d < 26 -> P d = true.
Proof.
  intros H d Hd. rewrite forallb_forall in H. apply H.
  apply in_map_iff. exists (Z.to_nat d). split; [lia|].
  apply in_seq. lia.
Qed.

Lemma inverseMod_26_sound (d : Z) :
  0 <= d < 26 ->
  cryptomath.inverseMod d 26 = 0 \/
  (0 < cryptomath.inverseMod d 26 < 26 /\ (d * cryptomath.inverseMod d 26) mod 26 = 1).
Proof.
  intros Hd.
  pose proof (range26_forallb
    (fun d => let v := cryptomath.inverseMod d 26 in
              (v =? 0) || ((0 <? v) && (v <? 26) && ((d * v) mod 26 =? 1)))
    eq_refl d Hd) as H.
  cbv beta zeta in H. apply orb_prop in H as [H | H].
  - left. now apply Z.eqb_eq.
  - right. apply andb_prop in H as [H H3]. apply andb_prop in H as [H1 H2].
    apply Z.ltb_lt in H1, H2. apply Z.eqb_eq in H3. lia.
Qed.

Lemma inverseMod_26_complete (d v : Z) :
  0 <= d < 26 -> 0 <= v < 26 -> (d * v) mod 26 = 1 ->
  cryptomath.inverseMod d 26 = v.
Proof.
  intros Hd Hv H.
  pose proof (range26_forallb
    (fun d => forallb
       (fun v => negb ((d * v) mod 26 =? 1) || (cryptomath.inverseMod d 26 =? v))
       (map Z.of_nat (seq 0 26)))
    eq_refl d Hd) as H1.
  cbv beta in H1.
  pose proof (range26_forallb _ H1 v Hv) as H2. cbv beta in H2.
  apply Z.eqb_eq in H. rewrite H in H2. simpl in H2. now apply Z.eqb_eq.
Qed.

(** With an inverse of the difference at hand, the code's inverse is its
    residue. *)
Lemma inverseMod_of_inverse (d inv : Z) :
  Spec.is_inverse d inv ->
  cryptomath.inverseMod (d mod 26) 26 = inv mod 26 /\ inv mod 26 <> 0.
Proof.
  unfold Spec.is_inverse. intros H.
  rewrite Z.mul_mod in H by lia.
  assert (Hd : 0 <= d mod 26 < 26) by (apply Z.mod_pos_bound; lia).
  assert (Hv : 0 <= inv mod 26 < 26) by (apply Z.mod_pos_bound; lia).
  split; [now apply inverseMod_26_complete|].
  intros H0. rewrite H0, Z.mul_0_r in H. discriminate H.
Qed.

Lemma linsolve_with_inverse (x1 y1 x2 y2 inv : Z) :
  Spec.is_inverse (x2 - x1) inv ->
  Affine.linsolve (x1, y1) (x2, y2) =
  let alpha := ((y2 - y1) * inv) mod 26 in
  if Z.gcd alpha 26 =? 1 then (alpha, (y1 - alpha * x1) mod 26) else (0, 0).
Proof.
  intros H. apply inverseMod_of_inverse in H as [Hinv Hne].
  unfold Affine.linsolve, cryptomath.mod_, cryptomath.gcd. cbn [fst snd].
  rewrite Hinv. apply Z.eqb_neq in Hne. rewrite Hne.
  rewrite Z.mul_mod_idemp_r by lia. cbv zeta.
  now rewrite (Z.mul_comm x1).
Qed.

Lemma linsolve_without_inverse (x1 y1 x2 y2 : Z) :
  (forall inv, ~ Spec.is_inverse (x2 - x1) inv) ->
  Affine.linsolve (x1, y1) (x2, y2) = (0, 0).
Proof.
  intros H.
  assert (Hd : 0 <= (x2 - x1) mod 26 < 26) by (apply Z.mod_pos_bound; lia).
  unfold Affine.linsolve, cryptomath.mod_. cbn [fst snd].
  destruct (inverseMod_26_sound _ Hd) as [H0 | [_ H1]].
  - now rewrite H0.
  - exfalso. apply (H (cryptomath.inverseMod ((x2 - x1) mod 26) 26)).
    unfold Spec.is_inverse. now rewrite <- Z.mul_mod_idemp_l by lia.
Qed.

(** The first component of a result is zero for the sentinel only. *)
Lemma linsolve_first_zero (p1 p2 : Z * Z) :
  fst (Affine.linsolve p1 p2) = 0 -> Affine.linsolve p1 p2 = (0, 0).
Proof.
  unfold Affine.linsolve, cryptomath.gcd.
  destruct (_ =? 0); [reflexivity|]. cbv zeta.
  destruct (Z.gcd _ 26 =? 1) eqn:Hg; [|reflexivity].
  cbn [fst]. intros H0. rewrite H0 in Hg. discriminate Hg.
Qed.

(** ** [checkSoln] *)

Lemma index_of_nth_error (c : ascii) (s : list ascii) (i : nat) :
  index_of c s = Some i -> nth_error s i = Some c.
Proof.
  revert i. induction s as [|x rest IH]; intros i; simpl; [discriminate|].
  destruct (Ascii.eqb x c) eqn:Hx.
  - intros [= <-]. apply Ascii.eqb_eq in Hx. now subst.
  - destruct (index_of c rest) as [k|]; [|discriminate].
    intros [= <-]. now apply IH.
Qed.

Section CheckSoln.

Import Affine Spec.

Variable decrypt : Z -> Z -> list ascii -> list ascii.
Variables msg ciph : list ascii.

(** After one match, the next known pair that occurs decides. *)
Lemma checkSoln_loop_after_match (known : list (ascii * ascii)) :
  checkSoln_loop msg ciph known 1 =
  match List.filter (occurs msg) known with
  | [] => 1
  | q :: _ => if agrees msg ciph q then 2 else -1
  end.
Proof.
  induction known as [|p rest IH]; [reflexivity|].
  cbn [checkSoln_loop List.filter]. unfold occurs at 1.
  destruct (index_of (fst p) msg) as [i|] eqn:Hi; [|exact IH].
  unfold agrees. rewrite Hi.
  now destruct (Ascii.eqb (char_at ciph i) (snd p)).
Qed.

Lemma checkSoln_loop_score (known : list (ascii * ascii)) :
  checkSoln_loop msg ciph known 0 =
  score_of_occurring msg ciph (List.filter (occurs msg) known).
Proof.
  induction known as [|p rest IH]; [reflexivity|].
  cbn [checkSoln_loop List.filter]. unfold occurs at 1.
  destruct (index_of (fst p) msg) as [i|] eqn:Hi; [|exact IH].
  cbn [score_of_occurring]. unfold agrees at 1. rewrite Hi.
  destruct (Ascii.eqb (char_at ciph i) (snd p)); [|reflexivity].
  cbn zeta. change (0 + 1 =? 2) with false. cbn iota.
  change (0 + 1) with 1. rewrite checkSoln_loop_after_match.
  now destruct (List.filter (occurs msg) rest).
Qed.

(** A pair that occurs and does not agree is contradicted. *)
Lemma disagree_contradicted (p : ascii * ascii) :
  occurs msg p = true -> agrees msg ciph p = false -> contradicted msg ciph p.
Proof.
  unfold occurs, agrees, contradicted.
  destruct (index_of (fst p) msg) as [i|] eqn:Hi; [|discriminate].
  intros _ H. exists i. split; [now apply index_of_nth_error|].
  intros Heq. apply Ascii.eqb_eq in Heq. congruence.
Qed.

End CheckSoln.

(** C3 (amended). [checkSoln] returns the decrypted text and a score fixed by
    the known pairs whose plain symbol occurs in that text, taken in list
    order and each tested at the first occurrence of its plain symbol: 0 when
    no known pair occurs, 1 when exactly one occurs and it agrees, 2 when the
    first two that occur both agree, and -1 when the first one that occurs
    disagrees, or the first agrees and the second disagrees.  So the score is
    0 exactly when no known plain symbol is in the text, and -1 only when
    some known pair is contradicted; pairs after the second agreeing one are
    not looked at. *)
Theorem checkSoln_scores_first_occurring
    (decrypt : Z -> Z -> list ascii -> list ascii) (a b : Z)
    (ciph : list ascii) (known : list (ascii * ascii)) :
  snd (Affine.checkSoln decrypt a b ciph known) = decrypt a b ciph
  /\ fst (Affine.checkSoln decrypt a b ciph known) =
       Spec.score_of_occurring (decrypt a b ciph) ciph
         (List.filter (Spec.occurs (decrypt a b ciph)) known)
  /\ (fst (Affine.checkSoln decrypt a b ciph known) = 0 <->
        forall p, In p known -> Spec.occurs (decrypt a b ciph) p = false)
  /\ (fst (Affine.checkSoln decrypt a b ciph known) = -1 ->
        exists p, In p known /\ Spec.contradicted (decrypt a b ciph) ciph p).
Proof.
  unfold Affine.checkSoln. cbn [fst snd].
  rewrite checkSoln_loop_score.
  set (msg := decrypt a b ciph).
  split; [reflexivity|]. split; [reflexivity|].
  assert (Hin : forall p, In p (List.filter (Spec.occurs msg) known) ->
                          In p known /\ Spec.occurs msg p = true)
    by (intros p; apply filter_In).
  split; [split|].
  - intros H0 p Hp.
    destruct (Spec.occurs msg p) eqn:Ho; [|reflexivity].
    assert (Hf : In p (List.filter (Spec.occurs msg) known))
      by (apply filter_In; now split).
    destruct (List.filter (Spec.occurs msg) known) as [|q [|q' rest]];
      [destruct Hf | |]; simpl in H0;
      repeat match type of H0 with
             | context [if ?c then _ else _] => destruct c
             end; discriminate H0.
  - intros Hnone.
    destruct (List.filter (Spec.occurs msg) known) as [|q rest] eqn:Hf; [reflexivity|].
    destruct (Hin q (or_introl eq_refl)) as [Hq Ho].
    rewrite (Hnone q Hq) in Ho. discriminate Ho.
  - intros Hm.
    destruct (List.filter (Spec.occurs msg) known) as [|q rest]; [discriminate Hm|].
    simpl in Hm.
    destruct (Spec.agrees msg ciph q) eqn:Hq.
    + destruct rest as [|q' rest]; [discriminate Hm|].
      destruct (Spec.agrees msg ciph q') eqn:Hq'; [discriminate Hm|].
      destruct (Hin q' (or_intror (or_introl eq_refl))) as [Hk Ho].
      exists q'. split; [assumption|]. now apply disagree_contradicted.
    + destruct (Hin q (or_introl eq_refl)) as [Hk Ho].
      exists q. split; [assumption|]. now apply disagree_contradicted.
Qed.

(** C3, as stated, fails: with the key [(1, 1)] the ciphertext [bcd] decrypts
    to [abc]; the first two known pairs agree, so the score is 2 and not -1,
    although the third known pair, [c -> z], is contradicted ([c] stands for
    [d]). *)
Lemma checkSoln_two_matches_hide_contradiction :
  ~ (fst (Affine.checkSoln Affine.affine_decrypt 1 1
            (Examples.text "bcd") Examples.known3) = -1 <->
     exists p, In p Examples.known3 /\
       Spec.contradicted (Affine.affine_decrypt 1 1 (Examples.text "bcd"))
                         (Examples.text "bcd") p).
Proof.
  intros [_ H].
  assert (Hs : fst (Affine.checkSoln Affine.affine_decrypt 1 1
                      (Examples.text "bcd") Examples.known3) = 2)
    by (vm_compute; reflexivity).
  rewrite Hs in H. enough (2 = -1) by discriminate. apply H.
  exists ("c"%char, "z"%char). split.
  - right. right. now left.
  - exists 2%nat. split; [vm_compute; reflexivity|].
    vm_compute. discriminate.
Qed.

(** ** The search by linear solving [-cb] *)

Lemma StronglySorted_append {X : Type} (R : X -> X -> Prop) (l1 l2 : list X) :
  (forall x1 x2, In x1 l1 -> In x2 l2 -> R x1 x2) ->
  StronglySorted R l1 -> StronglySorted R l2 -> StronglySorted R (l1 ++ l2).
Proof.
  intros Hcross H1 H2. induction H1 as [|x l1 Hl1 IH Hx]; simpl; [exact H2|].
  constructor.
  - apply IH. intros x1 x2 Hx1. apply Hcross. now right.
  - apply List.Forall_app. split; [exact Hx|].
    apply List.Forall_forall. intros y Hy. apply Hcross; [now left | exact Hy].
Qed.

Section CrackBest.

Import Affine Spec.

Variable decrypt : Z -> Z -> list ascii -> list ascii.
Variable ciph : list ascii.
Variable known : list (ascii * ascii).

Lemma fresh_sentinel (s : search) : fresh (0, 0) s = false.
Proof. reflexivity. Qed.

Lemma fresh_nonzero (soln : Z * Z) (s : search) :
  fresh soln s = true -> fst soln <> 0.
Proof.
  unfold fresh. intros H. apply andb_prop in H as [H _].
  now apply negb_true_iff, Z.eqb_neq in H.
Qed.

(** The sentinel is dropped by each of the three callers. *)
Lemma verify_sentinel (s : search) : verify decrypt ciph known (0, 0) s = s.
Proof. reflexivity. Qed.

Lemma tier1_body_sentinel (i j : nat) (s : search) :
  linsolve (residues (nth i known (zero, zero)))
           (residues (nth j known (zero, zero))) = (0, 0) ->
  tier1_body decrypt ciph known i j s = s.
Proof. unfold tier1_body. now intros ->. Qed.

Lemma tier2_body_sentinel (freqs : list (ascii * Z)) (i j : nat) (s : search) :
  linsolve (residues (nth j known (zero, zero))) (possible freqs i) = (0, 0) ->
  tier2_body decrypt ciph known freqs i j s = s.
Proof.
  unfold tier2_body. intros ->.
  now destruct (tier2_guard _ _).
Qed.

Lemma tier3_body_sentinel (freqs : list (ascii * Z)) (i j : nat) (s : search) :
  linsolve (possible freqs i) (possible freqs j) = (0, 0) ->
  tier3_body decrypt ciph known freqs i j s = s.
Proof. unfold tier3_body. now intros ->. Qed.

(** The pairs of indices are all the [i < j < n], in ascending order. *)
Lemma index_pairs_in (n i j : nat) :
  In (i, j) (index_pairs n) <-> (i < j < n)%nat.
Proof.
  unfold index_pairs. rewrite in_flat_map. split.
  - intros (i' & Hi' & Hin). apply in_map_iff in Hin as (j' & [= -> ->] & Hj').
    apply in_seq in Hi', Hj'. lia.
  - intros H. exists i. split; [apply in_seq; lia|].
    apply in_map_iff. exists j. split; [reflexivity | apply in_seq; lia].
Qed.

Lemma row_pairs_sorted (i start len : nat) :
  StronglySorted lex_lt (map (pair i) (seq start len)).
Proof.
  revert start. induction len as [|len IH]; intro start; cbn [seq map]; constructor.
  - apply IH.
  - apply List.Forall_forall. intros k Hk.
    apply in_map_iff in Hk as (j & <- & Hj). apply in_seq in Hj.
    unfold lex_lt. cbn [fst snd]. lia.
Qed.

Lemma index_pairs_from_sorted (n start len : nat) :
  StronglySorted lex_lt
    (flat_map (fun i => map (pair i) (seq (i + 1) (n - (i + 1)))) (seq start len))
  /\ forall k,
       In k (flat_map (fun i => map (pair i) (seq (i + 1) (n - (i + 1))))
               (seq start len)) ->
       (start <= fst k)%nat.
Proof.
  revert start. induction len as [|len IH]; intro start; cbn [seq flat_map].
  - split; [constructor | intros k []].
  - destruct (IH (S start)) as [IHs IHb]. split.
    + apply StronglySorted_append; [| apply row_pairs_sorted | exact IHs].
      intros k1 k2 H1 H2. apply in_map_iff in H1 as (j & <- & _).
      apply IHb in H2. unfold lex_lt. cbn [fst snd]. lia.
    + intros k Hk. apply in_app_or in Hk as [Hk | Hk].
      * apply in_map_iff in Hk as (j & <- & _). cbn [fst]. lia.
      * apply IHb in Hk. lia.
Qed.

Lemma index_pairs_sorted (n : nat) : StronglySorted lex_lt (index_pairs n).
Proof. apply index_pairs_from_sorted. Qed.

Lemma sorted_after {X : Type} (R : X -> X -> Prop) (pre post : list X) (k x : X) :
  StronglySorted R (pre ++ k :: post) -> In x post -> R k x.
Proof.
  induction pre as [|y pre IH]; cbn [app]; intros Hs Hx.
  - apply StronglySorted_inv in Hs as [_ Hall].
    rewrite List.Forall_forall in Hall. now apply Hall.
  - apply StronglySorted_inv in Hs as [Hs _]. now apply IH.
Qed.

(** The pairs before a pair of the list are those listed before it. *)
Lemma index_pairs_before (n : nat) (pre post : list (nat * nat)) (k k' : nat * nat) :
  index_pairs n = pre ++ k :: post ->
  (fst k' < snd k' < n)%nat -> lex_lt k' k -> In k' pre.
Proof.
  intros Hl Hk' Hlt.
  assert (Hin : In k' (index_pairs n)).
  { destruct k' as [i' j']. now apply index_pairs_in. }
  pose proof (index_pairs_sorted n) as Hs. rewrite Hl in Hin, Hs.
  apply in_app_or in Hin as [Hin | [<- | Hin]]; [exact Hin | |].
  - exfalso. unfold lex_lt in Hlt. lia.
  - exfalso. apply (sorted_after _ _ _ _ _ Hs) in Hin.
    unfold lex_lt in Hlt, Hin. lia.
Qed.

Lemma tier1_flat (s : search) :
  tier1 decrypt ciph known s =
  for_until done (fun k => tier1_body decrypt ciph known (fst k) (snd k))
    (index_pairs (length known)) s.
Proof.
  unfold tier1, index_pairs.
  exact (for_until_nested_dep done (tier1_body decrypt ciph known)
           (seq 0 (length known))
           (fun i => seq (i + 1) (length known - (i + 1))) s).
Qed.

Lemma tier1_body_start (k : nat * nat) :
  tier1_body decrypt ciph known (fst k) (snd k) (Search ∅ false []) =
  if negb (fst (known_solution known k) =? 0)
  then Search ({[known_solution known k]} ∪ ∅) true
         [Row (fst (known_solution known k)) (snd (known_solution known k))
              (decrypt (fst (known_solution known k)) (snd (known_solution known k))
                       ciph)]
  else Search ∅ false [].
Proof.
  unfold tier1_body, fresh, known_solution. cbv zeta. cbn [tested out app].
  rewrite bool_decide_eq_false_2 by apply not_elem_of_empty.
  cbn [negb]. rewrite andb_true_r. reflexivity.
Qed.

(** Tier 1 on a list of pairs: nothing, when no pair has a solution, or the
    solution of the first pair that has one. *)
Lemma tier1_scan (l : list (nat * nat)) :
  (for_until done (fun k => tier1_body decrypt ciph known (fst k) (snd k)) l
     (Search ∅ false []) = Search ∅ false []
   /\ forall k, In k l -> fst (known_solution known k) = 0)
  \/ exists pre k post,
       l = pre ++ k :: post
       /\ (forall k', In k' pre -> fst (known_solution known k') = 0)
       /\ fst (known_solution known k) <> 0
       /\ for_until done (fun k => tier1_body decrypt ciph known (fst k) (snd k)) l
            (Search ∅ false [])
          = Search ({[known_solution known k]} ∪ ∅) true
              [Row (fst (known_solution known k)) (snd (known_solution known k))
                   (decrypt (fst (known_solution known k))
                            (snd (known_solution known k)) ciph)].
Proof.
  induction l as [|k rest IH].
  - left. split; [reflexivity | intros k []].
  - cbn [for_until done]. rewrite tier1_body_start.
    destruct (fst (known_solution known k) =? 0) eqn:Hz; cbn [negb].
    + apply Z.eqb_eq in Hz.
      destruct IH as [[Hrun Hall] | (pre & k0 & post & Hl & Hpre & Hk0 & Hrun)].
      * left. split; [exact Hrun|]. intros k' [<- | Hk']; [exact Hz | now apply Hall].
      * right. exists (k :: pre), k0, post. split; [now rewrite Hl|].
        split; [|split; [exact Hk0 | exact Hrun]].
        intros k' [<- | Hk']; [exact Hz | now apply Hpre].
    + apply Z.eqb_neq in Hz. right. exists [], k, rest.
      split; [reflexivity|]. split; [intros k' []|]. split; [exact Hz|].
      now apply for_until_stop.
Qed.

Lemma tier1_invariant :
  tier1_state decrypt ciph known (tier1 decrypt ciph known (Search ∅ false [])).
Proof.
  rewrite tier1_flat.
  destruct (tier1_scan (index_pairs (length known)))
    as [[Hrun Hall] | (pre & k & post & Hl & Hpre & Hk & Hrun)]; rewrite Hrun.
  - left. split; [reflexivity|]. split; [reflexivity|].
    intros i j Hij. apply (Hall (i, j)). now apply index_pairs_in.
  - right. split; [reflexivity|].
    eexists. split; [reflexivity|].
    assert (Hin : In k (index_pairs (length known))).
    { rewrite Hl. apply in_or_app. right. now left. }
    destruct k as [i j]. apply index_pairs_in in Hin.
    exists i, j. cbn [row_a row_b row_text].
    split; [exact Hin|].
    split; [change (known_solution known (i, j)
                    = (fst (known_solution known (i, j)),
                       snd (known_solution known (i, j))));
            apply surjective_pairing|].
    split; [exact Hk|]. split; [reflexivity|].
    intros i' j' Hij' Hlt.
    apply (Hpre (i', j')).
    now apply (index_pairs_before (length known) pre post (i, j) (i', j')).
Qed.

(** Tiers 2 and 3 only ever add rows that [checkSoln] accepted. *)
Lemma verify_keeps (base : list row) (soln : Z * Z) (s : search) :
  (exists later, out s = base ++ later /\ Forall (verified decrypt ciph known) later) ->
  exists later, out (verify decrypt ciph known soln s) = base ++ later /\
                Forall (verified decrypt ciph known) later.
Proof.
  intros (later & Hout & Hall). unfold verify.
  destruct (fresh soln s); [|now exists later].
  cbn [out].
  destruct (negb _) eqn:Hok; [|now exists later].
  exists (later ++ [Row (fst soln) (snd soln)
                      (snd (checkSoln decrypt (fst soln) (snd soln) ciph known))]).
  split; [now rewrite Hout, app_assoc|].
  apply List.Forall_app. split; [assumption|].
  constructor; [|constructor].
  split; [|reflexivity]. cbn [row_a row_b].
  now apply negb_true_iff, Z.eqb_neq in Hok.
Qed.

Lemma tier2_keeps (freqs : list (ascii * Z)) (base : list row) (s : search) :
  (exists later, out s = base ++ later /\ Forall (verified decrypt ciph known) later) ->
  exists later, out (tier2 decrypt ciph known freqs s) = base ++ later /\
                Forall (verified decrypt ciph known) later.
Proof.
  intros Hs. unfold tier2.
  apply for_until_invariant; [exact Hs|].
  intros i s1 _ _ Hs1.
  apply for_until_invariant; [exact Hs1|].
  intros j s2 _ _ Hs2. unfold tier2_body.
  destruct (tier2_guard _ _); [|exact Hs2].
  now apply verify_keeps.
Qed.

Lemma tier3_keeps (freqs : list (ascii * Z)) (base : list row) (s : search) :
  (exists later, out s = base ++ later /\ Forall (verified decrypt ciph known) later) ->
  exists later, out (tier3 decrypt ciph known freqs s) = base ++ later /\
                Forall (verified decrypt ciph known) later.
Proof.
  intros Hs. unfold tier3.
  apply for_until_invariant; [exact Hs|].
  intros i s1 _ _ Hs1.
  apply for_until_invariant; [exact Hs1|].
  intros j s2 _ _ Hs2. unfold tier3_body.
  now apply verify_keeps.
Qed.

End CrackBest.

(** C1 (amended). In the [-cb] search every row printed by tiers 2 and 3 was
    verified: its key was scored by [checkSoln] on the ciphertext line, the
    score was not -1, and the text printed is the decryption [checkSoln]
    returned.  Tier 1 is different: it prints at most one row, the first
    non-zero solution of two known pairs, decrypted but not scored, and the
    search ends there.  The first: the pairs are taken at [i < j] in the
    order of the two loops, the row is the solution of the first of them
    that has one, and nothing is printed only when none has. *)
Theorem Crack_Best_verifies_after_tier1
    (decrypt : Z -> Z -> list ascii -> list ascii)
    (ciph : list ascii) (known : list (ascii * ascii)) (freqs : list (ascii * Z)) :
  exists first later,
    Affine.Crack_Best decrypt ciph known freqs = first ++ later
    /\ first = Affine.out (Affine.tier1 decrypt ciph known (Affine.Search ∅ false []))
    /\ (length first <= 1)%nat
    /\ Forall (Spec.solved_from_known decrypt ciph known) first
    /\ (first = [] ->
        forall i j, (i < j < length known)%nat ->
          fst (Affine.linsolve (Affine.residues (nth i known (zero, zero)))
                               (Affine.residues (nth j known (zero, zero)))) = 0)
    /\ (first = [] \/ later = [])
    /\ Forall (Spec.verified decrypt ciph known) later.
Proof.
  unfold Affine.Crack_Best.
  pose proof (tier1_invariant decrypt ciph known) as H1.
  set (s1 := Affine.tier1 decrypt ciph known _) in *.
  destruct H1 as [(Hd & Hout & Hnone) | [Hd (r & Hout & Hr)]]; rewrite Hd.
  - cbv zeta.
    assert (H2 : exists later,
               Affine.out (Affine.tier2 decrypt ciph known freqs s1) = [] ++ later /\
               Forall (Spec.verified decrypt ciph known) later).
    { apply tier2_keeps. exists []. now rewrite Hout. }
    assert (H3 : exists later,
               (if Affine.done (Affine.tier2 decrypt ciph known freqs s1)
                then Affine.out (Affine.tier2 decrypt ciph known freqs s1)
                else Affine.out (Affine.tier3 decrypt ciph known freqs
                                   (Affine.tier2 decrypt ciph known freqs s1)))
               = [] ++ later /\
               Forall (Spec.verified decrypt ciph known) later).
    { destruct (Affine.done (Affine.tier2 decrypt ciph known freqs s1));
        [exact H2 | now apply tier3_keeps]. }
    destruct H3 as (later & Ho & Hall). exists [], later.
    split; [exact Ho|]. split; [now symmetry|]. split; [simpl; lia|].
    split; [constructor|]. split; [intros _; exact Hnone|].
    split; [now left | exact Hall].
  - exists [r], [].
    split; [now rewrite Hout|]. split; [now symmetry|]. split; [simpl; lia|].
    split; [now repeat constructor|]. split; [discriminate|].
    split; [now right | constructor].
Qed.

(** C1, as stated, fails at tier 1: with the known pairs [a -> b], [b -> c]
    and [c -> z] and the ciphertext [d], the first two pairs solve to the key
    [(1, 1)], which is printed although its MatchScore is -1 ([d] decrypts to
    [c], and [c -> z] is known). *)
Lemma tier1_prints_a_contradicted_key :
  ~ (forall r,
       In r (Affine.Crack_Best Affine.affine_decrypt (Examples.text "d")
               Examples.known3 Examples.freqs_d) ->
       fst (Affine.checkSoln Affine.affine_decrypt (Affine.row_a r) (Affine.row_b r)
              (Examples.text "d") Examples.known3) <> -1).
Proof.
  intros H.
  apply (H (Affine.Row 1 1 (Examples.text "c"))).
  - vm_compute. now left.
  - vm_compute. reflexivity.
Qed.

(** C6. [linsolve] returns [alpha = (y2 - y1) * inverse(x2 - x1) mod 26] and
    [beta = y1 - alpha * x1 mod 26] when the difference [x2 - x1] has an
    inverse modulo 26 and [alpha] is coprime with 26, and the sentinel
    [(0, 0)] otherwise; a first component 0 always means the sentinel.  Each
    of the three callers drops the sentinel: the body of its loop leaves the
    state (the set of tested keys, the flag, the printed rows) as it was, and
    the loop goes on with the next index. *)
Theorem linsolve_solution_or_sentinel (x1 y1 x2 y2 : Z) :
  (forall inv,
      Spec.is_inverse (x2 - x1) inv ->
      Z.gcd (((y2 - y1) * inv) mod 26) 26 = 1 ->
      Affine.linsolve (x1, y1) (x2, y2) =
        (((y2 - y1) * inv) mod 26, (y1 - ((y2 - y1) * inv) mod 26 * x1) mod 26))
  /\ (forall inv,
        Spec.is_inverse (x2 - x1) inv ->
        Z.gcd (((y2 - y1) * inv) mod 26) 26 <> 1 ->
        Affine.linsolve (x1, y1) (x2, y2) = (0, 0))
  /\ ((forall inv, ~ Spec.is_inverse (x2 - x1) inv) ->
        Affine.linsolve (x1, y1) (x2, y2) = (0, 0))
  /\ (fst (Affine.linsolve (x1, y1) (x2, y2)) = 0 ->
        Affine.linsolve (x1, y1) (x2, y2) = (0, 0))
  /\ (forall decrypt ciph known freqs i j rest s,
        (Affine.linsolve (Affine.residues (nth i known (zero, zero)))
                         (Affine.residues (nth j known (zero, zero))) = (0, 0) ->
         Affine.tier1_body decrypt ciph known i j s = s /\
         for_until Affine.done (Affine.tier1_body decrypt ciph known i) (j :: rest) s =
         for_until Affine.done (Affine.tier1_body decrypt ciph known i) rest s)
        /\ (Affine.linsolve (Affine.residues (nth j known (zero, zero)))
                            (Affine.possible freqs i) = (0, 0) ->
            Affine.tier2_body decrypt ciph known freqs i j s = s /\
            for_until Affine.done (Affine.tier2_body decrypt ciph known freqs i)
              (j :: rest) s =
            for_until Affine.done (Affine.tier2_body decrypt ciph known freqs i) rest s)
        /\ (Affine.linsolve (Affine.possible freqs i) (Affine.possible freqs j) = (0, 0) ->
            Affine.tier3_body decrypt ciph known freqs i j s = s /\
            for_until Affine.done (Affine.tier3_body decrypt ciph known freqs i)
              (j :: rest) s =
            for_until Affine.done (Affine.tier3_body decrypt ciph known freqs i) rest s)).
Proof.
  split; [|split; [|split; [|split]]].
  - intros inv Hinv Hg. rewrite (linsolve_with_inverse _ _ _ _ inv Hinv).
    cbv zeta. apply Z.eqb_eq in Hg. now rewrite Hg.
  - intros inv Hinv Hg. rewrite (linsolve_with_inverse _ _ _ _ inv Hinv).
    cbv zeta. apply Z.eqb_neq in Hg. now rewrite Hg.
  - apply linsolve_without_inverse.
  - apply linsolve_first_zero.
  - intros decrypt ciph known freqs i j rest s. repeat split.
    + now apply tier1_body_sentinel.
    + now apply for_until_skip, tier1_body_sentinel.
    + now apply tier2_body_sentinel.
    + now apply for_until_skip, tier2_body_sentinel.
    + now apply tier3_body_sentinel.
    + now apply for_until_skip, tier3_body_sentinel.
Qed.

(** The pairs [(0, 1)] and [(1, 2)] ([a -> b] and [b -> c]) solve to [(1, 1)]. *)
Lemma linsolve_solution_or_sentinel_witness :
  Spec.is_inverse (1 - 0) 1 /\
  Z.gcd (((2 - 1) * 1) mod 26) 26 = 1 /\
  Affine.linsolve (0, 1) (1, 2) = (1, 1).
Proof.
  split; [reflexivity|]. split; [reflexivity|].
  exact (proj1 (linsolve_solution_or_sentinel 0 1 1 2) 1 eq_refl eq_refl).
Defined.

(** C7 (the code departs from the claim).  For the text [xx] the most frequent
    symbol [x] is taken for [e].  With the known pair [x -> c] the hypothesis
    [e -> x] shares neither symbol with the known pair, yet the code skips
    the combination: it holds the ciphertext symbol against the known plain
    symbol.  The key [(3, 11)] that the combination solves to, which
    [checkSoln] scores 0, is neither solved nor verified there.  With the
    known pair [e -> x] the hypothesis collides with it in both symbols and
    is not skipped: the count 2 is held against the character code of [x]. *)
Theorem tier2_guard_tests_the_wrong_fields :
  Spec.spec_collides (Spec.hypothesis Examples.freqs_xx 0)
                     (nth 0 Examples.known_x (zero, zero)) = false
  /\ Affine.tier2_guard (nth 0 Examples.freqs_xx (zero, 0))
                        (nth 0 Examples.known_x (zero, zero)) = false
  /\ (forall s, Affine.tier2_body Affine.affine_decrypt (Examples.text "xx")
                  Examples.known_x Examples.freqs_xx 0 0 s = s)
  /\ Affine.linsolve (Affine.residues (nth 0 Examples.known_x (zero, zero)))
                     (Affine.possible Examples.freqs_xx 0) = (3, 11)
  /\ fst (Affine.checkSoln Affine.affine_decrypt 3 11 (Examples.text "xx")
            Examples.known_x) = 0
  /\ Spec.spec_collides (Spec.hypothesis Examples.freqs_xx 0)
                        (nth 0 Examples.known_e (zero, zero)) = true
  /\ Affine.tier2_guard (nth 0 Examples.freqs_xx (zero, 0))
                        (nth 0 Examples.known_e (zero, zero)) = true.
Proof.
  repeat split; try (vm_compute; reflexivity).
Qed.

Lemma filter_none {X : Type} (f : X -> bool) (l : list X) :
  Forall (fun x => f x = false) l -> List.filter f l = [].
Proof.
  induction 1 as [|x rest Hx _ IH]; simpl; [reflexivity|].
  now rewrite Hx.
Qed.

(** ** Key-length estimation *)

Section Estimate.

Import Vigenere Spec.

Variable ciph : list ascii.

Lemma count_fold (c : nat -> bool) (l : list nat) (a : Z) :
  fold_left (fun m j => if c j then m + 1 else m) l a =
  a + Z.of_nat (length (List.filter c l)).
Proof.
  revert a. induction l as [|j rest IH]; intros a; simpl; [lia|].
  rewrite IH. destruct (c j); simpl; lia.
Qed.

(** The count of the code is the count of the spec. *)
Lemma count_matches_coincidences (L : nat) :
  matches_for ciph L = Z.of_nat (coincidences ciph L).
Proof. unfold matches_for, coincidences. now rewrite count_fold. Qed.

Lemma max_count_snoc (l : list nat) (x : nat) :
  max_count ciph (l ++ [x]) = Z.max (max_count ciph l) (matches_for ciph x).
Proof.
  unfold max_count. rewrite fold_right_app. simpl.
  pose proof (count_matches_coincidences x) as Hx.
  generalize dependent (matches_for ciph x). intros c Hc.
  induction l as [|y rest IH]; simpl; lia.
Qed.

Lemma max_count_bound (l : list nat) (y : nat) :
  In y l -> matches_for ciph y <= max_count ciph l.
Proof.
  induction l as [|x rest IH]; simpl; [intros []|].
  intros [<- | Hy]; [lia|]. specialize (IH Hy). lia.
Qed.

Lemma max_count_attained (l : list nat) :
  max_count ciph l = 0 \/ exists y, In y l /\ max_count ciph l = matches_for ciph y.
Proof.
  induction l as [|x rest IH]; simpl; [now left|].
  destruct (Z.max_spec (matches_for ciph x) (max_count ciph rest)) as [[_ ->] | [_ ->]].
  - destruct IH as [H0 | (y & Hy & Heq)]; [now left|].
    right. exists y. split; [now right | assumption].
  - right. exists x. split; [now left | reflexivity].
Qed.

(** The state of the estimation loop after the lengths [l]. *)
Lemma estimate_fold (l : list nat) :
  fold_left (fun g i => guess_update g i (matches_for ciph i)) l (Guess [] 0) =
  Guess (List.filter (fun L => matches_for ciph L =? max_count ciph l) l)
        (max_count ciph l).
Proof.
  induction l as [|x l IH] using rev_ind; [reflexivity|].
  rewrite fold_left_app, IH. cbn [fold_left]. unfold guess_update. cbn [guessMatches guessLengths].
  rewrite max_count_snoc, List.filter_app. cbn [List.filter].
  destruct (max_count ciph l <? matches_for ciph x) eqn:Hlt.
  - apply Z.ltb_lt in Hlt. rewrite Z.max_r by lia. rewrite Z.eqb_refl.
    f_equal. rewrite filter_none; [reflexivity|].
    apply List.Forall_forall. intros y Hy. apply max_count_bound in Hy.
    apply Z.eqb_neq. lia.
  - apply Z.ltb_ge in Hlt. rewrite Z.max_l by lia.
    destruct (matches_for ciph x =? max_count ciph l); [reflexivity|].
    now rewrite app_nil_r.
Qed.

Lemma kept_retained (key_max : nat) :
  guessLengths (fold_left (fun g i => guess_update g i (matches_for ciph i))
                  (seq 1 key_max) (Guess [] 0))
  = retained ciph key_max.
Proof.
  unfold retained. rewrite estimate_fold. cbn [guessLengths].
  apply filter_ext_in. intros L HL.
  destruct (forallb _ _) eqn:Hall.
  - rewrite forallb_forall in Hall. apply Z.eqb_eq.
    pose proof (max_count_bound _ _ HL) as Hle.
    destruct (max_count_attained (seq 1 key_max)) as [H0 | (y & Hy & Heq)].
    + rewrite count_matches_coincidences in *. lia.
    + specialize (Hall y Hy). apply Nat.leb_le in Hall.
      rewrite !count_matches_coincidences in *. lia.
  - apply Z.eqb_neq. intros Heq.
    assert (forallb (fun L' => (coincidences ciph L' <=? coincidences ciph L)%nat)
                    (seq 1 key_max) = true); [|congruence].
    apply forallb_forall. intros y Hy. apply Nat.leb_le.
    pose proof (max_count_bound _ _ Hy) as Hle.
    rewrite !count_matches_coincidences in *. lia.
Qed.

(** Within the range of [int] the loops run as on the integers. *)
Lemma count_matches_ok (i : nat) :
  Z.of_nat (length ciph) <= INT_MAX ->
  count_matches ciph i = Ok (matches_for ciph i).
Proof.
  intro H. unfold count_matches.
  rewrite (proj2 (Z.ltb_ge _ _) H), andb_false_r. reflexivity.
Qed.

Lemma estimate_loop_ok (idx : list nat) (g : guess) :
  Z.of_nat (length ciph) <= INT_MAX ->
  Forall (fun i => Z.of_nat i < INT_MAX) idx ->
  estimate_loop ciph idx g =
  Ok (fold_left (fun g i => guess_update g i (matches_for ciph i)) idx g).
Proof.
  intros Hlen Hidx. revert g.
  induction Hidx as [|i rest Hi _ IH]; intro g; [reflexivity|].
  cbn [estimate_loop fold_left]. unfold guess_step.
  rewrite (count_matches_ok i Hlen). cbn [mbind result_bind].
  rewrite (proj2 (Z.leb_gt _ _) Hi). apply IH.
Qed.

Lemma estimate_ok (key_max : nat) :
  Z.of_nat (length ciph) <= INT_MAX -> Z.of_nat key_max < INT_MAX ->
  estimate ciph key_max =
  Ok (fold_left (fun g i => guess_update g i (matches_for ciph i))
        (seq 1 key_max) (Guess [] 0)).
Proof.
  intros Hlen Hmax. apply estimate_loop_ok; [exact Hlen|].
  apply List.Forall_forall. intros i Hi. apply in_seq in Hi. lia.
Qed.

(** The only fault of the estimation is the overflow of a counter. *)
Lemma guess_step_fault (g : guess) (i : nat) :
  (exists g', guess_step ciph g i = Ok g')
  \/ guess_step ciph g i = Undefined SignedOverflow.
Proof.
  unfold guess_step, count_matches.
  destruct (_ && _); [right | left; eexists]; reflexivity.
Qed.

Lemma estimate_loop_overflow (n start : nat) (g : guess) :
  Z.of_nat start <= INT_MAX -> INT_MAX < Z.of_nat start + Z.of_nat n ->
  estimate_loop ciph (seq start n) g = Undefined SignedOverflow.
Proof.
  revert start g. induction n as [|n IH]; intros start g Hs Hn; [lia|].
  cbn [seq estimate_loop].
  destruct (guess_step_fault g start) as [(g' & ->) | ->]; [|reflexivity].
  cbn [mbind result_bind].
  destruct (INT_MAX <=? Z.of_nat start) eqn:Hle; [reflexivity|].
  apply Z.leb_gt in Hle. apply IH; lia.
Qed.

Lemma estimate_overflow (key_max : nat) :
  INT_MAX <= Z.of_nat key_max ->
  estimate ciph key_max = Undefined SignedOverflow.
Proof.
  intro H. apply estimate_loop_overflow; unfold INT_MAX in *; lia.
Qed.

End Estimate.





(** C8 (the code departs from the claim).  The size of the sample is tested
    before a line is read, not while its letters are added: a single line of
    2001 letters gives a sample of 2001 symbols, and a sample of 1999 symbols
    still takes the whole of the next line. *)
Theorem read_sample_exceeds_the_cap :
  length (Vigenere.read_sample [repeat "a"%char 2001] []) = 2001%nat
  /\ length (Vigenere.read_sample
               [repeat "a"%char 1999; repeat "B"%char 5; Examples.text "xx"] [])
     = 2004%nat.
Proof. split; vm_compute; reflexivity. Qed.

(** ** Sorting the table *)

Lemma insert_desc_Permutation (e : ascii * Z) (l : list (ascii * Z)) :
  Permutation (e :: l) (Vigenere.insert_desc e l).
Proof.
  induction l as [|x rest IH]; simpl; [reflexivity|].
  destruct (snd x <=? snd e); [reflexivity|].
  rewrite perm_swap. now constructor.
Qed.

Lemma insert_desc_sorted (e : ascii * Z) (l : list (ascii * Z)) :
  StronglySorted (fun l r => snd r <= snd l) l ->
  StronglySorted (fun l r => snd r <= snd l) (Vigenere.insert_desc e l).
Proof.
  induction 1 as [|x rest Hrest IH Hx]; simpl.
  - repeat constructor.
  - destruct (snd x <=? snd e) eqn:Hle.
    + apply Z.leb_le in Hle. constructor; [now constructor|].
      constructor; [exact Hle|].
      eapply List.Forall_impl; [|exact Hx]. simpl. intros y Hy. lia.
    + apply Z.leb_gt in Hle. constructor; [exact IH|].
      eapply Permutation_Forall; [apply insert_desc_Permutation|].
      constructor; [lia | exact Hx].
Qed.

(** [sort_desc] is one of the results [std::sort] may give. *)
Lemma sort_desc_sorted (table : list (ascii * Z)) :
  Vigenere.sorted_by_count table (Vigenere.sort_desc table).
Proof.
  unfold Vigenere.sorted_by_count, Vigenere.sort_desc.
  induction table as [|e rest [IHp IHs]]; simpl.
  - split; constructor.
  - split.
    + rewrite <- insert_desc_Permutation. now constructor.
    + now apply insert_desc_sorted.
Qed.

(** ** Empty columns *)

Section EmptyColumn.

Import Vigenere.

Variable A : arith.
Variable sort : list (ascii * Z) -> list (ascii * Z).
Hypothesis sort_sorted : forall table, sorted_by_count table (sort table).

Lemma column_beyond_end (ciph : list ascii) (start len : nat) :
  (length ciph <= start)%nat -> column ciph start len = Ok [].
Proof.
  intros H. unfold column.
  destruct (length ciph) eqn:Hn; [reflexivity|]. cbn [column_from].
  now rewrite (proj2 (nth_error_None ciph start)) by lia.
Qed.

Lemma sort_length (table : list (ascii * Z)) : length (sort table) = length table.
Proof. symmetry. apply Permutation_length, sort_sorted. Qed.

Lemma percentages_of_nothing (table : list (ascii * Z)) :
  table <> [] -> percentages A (sort table) 0 = Undefined DivisionByZero.
Proof.
  intros Hne. unfold percentages.
  pose proof (sort_length table) as Hlen.
  destruct (sort table) as [|e rest]; [|reflexivity].
  destruct table; [congruence | discriminate Hlen].
Qed.

Lemma column_symbol_beyond_end (ciph : list ascii) (len start : nat) :
  (length ciph <= start)%nat ->
  column_symbol A sort ciph len start = Undefined DivisionByZero.
Proof.
  intros H. unfold column_symbol.
  rewrite (column_beyond_end ciph start len H).
  cbn [mbind result_bind countFrequencies length Z.of_nat].
  now rewrite percentages_of_nothing.
Qed.

Lemma recover_key_of_nothing (len : nat) :
  recover_key A sort [] (S len) = Undefined DivisionByZero.
Proof.
  unfold recover_key. cbn [seq recover_from].
  rewrite column_symbol_beyond_end by (simpl; lia). reflexivity.
Qed.

Lemma retained_of_nothing (key_max : nat) :
  Spec.retained [] key_max = seq 1 key_max.
Proof.
  unfold Spec.retained. apply forallb_filter_id.
  apply forallb_forall. intros L _.
  apply forallb_forall. intros L' _. reflexivity.
Qed.

Lemma recover_keys_of_nothing (start n : nat) :
  map (recover_key A sort []) (seq (S start) n) =
  repeat (Undefined DivisionByZero) n.
Proof.
  revert start. induction n as [|n IH]; intros start; [reflexivity|].
  cbn [seq map repeat]. now rewrite recover_key_of_nothing, IH.
Qed.

Lemma estimate_of_nothing (key_max : nat) :
  Z.of_nat key_max < INT_MAX ->
  exists g, estimate [] key_max = Ok g /\ guessLengths g = seq 1 key_max.
Proof.
  intro Hmax. eexists. split.
  - apply estimate_ok; [cbn [length]; unfold INT_MAX; lia | exact Hmax].
  - now rewrite kept_retained, retained_of_nothing.
Qed.

Lemma Crack_of_nothing (key_max : nat) :
  Z.of_nat key_max < INT_MAX ->
  Crack A sort [] key_max = Ok (repeat (Undefined DivisionByZero) key_max).
Proof.
  intro Hmax. unfold Crack. cbn [read_sample].
  destruct (estimate_of_nothing key_max Hmax) as (g & -> & Hg).
  cbn [mbind result_bind]. rewrite Hg.
  f_equal. apply recover_keys_of_nothing.
Qed.

Lemma Crack_overflow (lines : list (list ascii)) (key_max : nat) :
  INT_MAX <= Z.of_nat key_max ->
  Crack A sort lines key_max = Undefined SignedOverflow.
Proof.
  intro Hmax. unfold Crack. cbv zeta.
  now rewrite estimate_overflow.
Qed.

End EmptyColumn.

(** C9. The percentage of a column is the count divided by the size of the
    column, and nothing tests that size: for a column that starts at or after
    the end of the sample the size is 0 and the division by zero is carried
    out, so the percentages (and the key) are undefined.  Such a column is
    reached: on an empty input every length up to [key_max] is kept, and the
    first column of each of them is empty.  (For [key_max] from [INT_MAX] on
    the counter of the estimation overflows before any column is made.) *)
Theorem empty_column_divides_by_zero
    (A : Vigenere.arith) (sort : list (ascii * Z) -> list (ascii * Z)) :
  (forall table, Vigenere.sorted_by_count table (sort table)) ->
  (forall ciph len start,
      (length ciph <= start)%nat ->
      Vigenere.column ciph start len = Vigenere.Ok []
      /\ Vigenere.percentages A
           (sort (Vigenere.countFrequencies [] Vigenere.init_table Vigenere.inc))
           (Z.of_nat (length (@nil ascii)))
         = Vigenere.Undefined Vigenere.DivisionByZero
      /\ Vigenere.column_symbol A sort ciph len start
         = Vigenere.Undefined Vigenere.DivisionByZero)
  /\ (forall key_max,
        Z.of_nat key_max < INT_MAX ->
        (exists g, Vigenere.estimate [] key_max = Vigenere.Ok g
                   /\ Vigenere.guessLengths g = seq 1 key_max)
        /\ Vigenere.Crack A sort [] key_max
           = Vigenere.Ok (repeat (Vigenere.Undefined Vigenere.DivisionByZero) key_max))
  /\ (forall key_max,
        INT_MAX <= Z.of_nat key_max ->
        Vigenere.Crack A sort [] key_max = Vigenere.Undefined Vigenere.SignedOverflow).
Proof.
  intros Hsort. split; [|split].
  - intros ciph len start H.
    split; [now apply column_beyond_end|].
    split; [|now apply column_symbol_beyond_end].
    cbn [Vigenere.countFrequencies length Z.of_nat].
    now apply percentages_of_nothing.
  - intros key_max Hmax. split.
    + now apply estimate_of_nothing.
    + now apply Crack_of_nothing.
  - intros key_max Hmax. now apply Crack_overflow.
Qed.

(** On an empty input with [key_max = 2], with exact rationals and the stable
    sort, both keys are undefined by a division by zero. *)
Lemma empty_column_divides_by_zero_witness :
  Vigenere.Crack Vigenere.Q_arith Vigenere.sort_desc [] 2 =
  Vigenere.Ok [Vigenere.Undefined Vigenere.DivisionByZero;
               Vigenere.Undefined Vigenere.DivisionByZero].
Proof.
  exact (proj2 (proj1 (proj2 (empty_column_divides_by_zero
                                Vigenere.Q_arith Vigenere.sort_desc sort_desc_sorted))
                 2%nat eq_refl)).
Defined.

(** ** The shift search *)

Section ShiftSearch.

Import Vigenere.

Variable A : arith.

(** What the search needs of [>]: it is asymmetric, and a value above [y] is
    above everything that is not above [y]. *)
Hypothesis gt_asym : forall x y, num_gt A x y = true -> num_gt A y x = false.
Hypothesis gt_above : forall x y z,
  num_gt A x y = true -> num_gt A z y = false -> num_gt A x z = true.

Variable W : list (num A).

Lemma gt_irrefl (x : num A) : num_gt A x x = false.
Proof.
  destruct (num_gt A x x) eqn:H; [|reflexivity].
  pose proof (gt_asym x x H). congruence.
Qed.

Lemma dot_shifted (s : nat) : (s < 26)%nat -> dot A W s = Spec.shifted_score A W s.
Proof.
  intros Hs.
  do 26 (destruct s as [|s]; [reflexivity|]). lia.
Qed.

(** The state of the search after the shifts [0 .. n-1]. *)
Lemma shift_search_state (n : nat) :
  let b := fold_left (shift_step A W) (seq 0 n) (Best A (num_zero A) None) in
  match maxShift A b with
  | None =>
      maxDot A b = num_zero A /\
      forall t, (t < n)%nat -> num_gt A (dot A W t) (num_zero A) = false
  | Some s =>
      (s < n)%nat /\ maxDot A b = dot A W s /\
      num_gt A (dot A W s) (num_zero A) = true /\
      (forall t, (t < n)%nat -> num_gt A (dot A W t) (dot A W s) = false) /\
      (forall t, (t < s)%nat -> num_gt A (dot A W s) (dot A W t) = true)
  end.
Proof.
  induction n as [|n IH]; [simpl; split; [reflexivity | intros; lia]|].
  rewrite seq_S, fold_left_app. cbn [fold_left Nat.add].
  set (b := fold_left (shift_step A W) (seq 0 n) (Best A (num_zero A) None)) in *.
  cbv zeta in IH.
  assert (Hstep : shift_step A W b n =
                  if num_gt A (dot A W n) (maxDot A b)
                  then Best A (dot A W n) (Some n) else b) by reflexivity.
  cbv zeta. rewrite Hstep. clear Hstep.
  destruct (num_gt A (dot A W n) (maxDot A b)) eqn:Hgt.
  - cbn [maxShift maxDot].
    assert (Hup : forall t, (t < n)%nat -> num_gt A (dot A W n) (dot A W t) = true).
    { intros t Ht. destruct (maxShift A b) as [s|].
      - destruct IH as (_ & Hmax & _ & Hall & _). rewrite Hmax in Hgt.
        apply (gt_above _ (dot A W s)); [exact Hgt | now apply Hall].
      - destruct IH as (Hmax & Hall). rewrite Hmax in Hgt.
        apply (gt_above _ (num_zero A)); [exact Hgt | now apply Hall]. }
    assert (Hpos : num_gt A (dot A W n) (num_zero A) = true).
    { destruct (maxShift A b) as [s|].
      - destruct IH as (_ & Hmax & Hpos & _). rewrite Hmax in Hgt.
        apply (gt_above _ (dot A W s)); [exact Hgt | now apply gt_asym].
      - destruct IH as (Hmax & _). now rewrite Hmax in Hgt. }
    split; [lia|]. split; [reflexivity|]. split; [exact Hpos|]. split; [|exact Hup].
    intros t Ht. destruct (Nat.eq_dec t n) as [-> | Hne]; [apply gt_irrefl|].
    apply gt_asym, Hup. lia.
  - destruct (maxShift A b) as [s|].
    + destruct IH as (Hs & Hmax & Hpos & Hall & Hbefore). rewrite Hmax in Hgt.
      split; [lia|]. split; [exact Hmax|]. split; [exact Hpos|]. split; [|exact Hbefore].
      intros t Ht. destruct (Nat.eq_dec t n) as [-> | Hne]; [exact Hgt|].
      apply Hall. lia.
    + destruct IH as (Hmax & Hall). rewrite Hmax in Hgt.
      split; [exact Hmax|].
      intros t Ht. destruct (Nat.eq_dec t n) as [-> | Hne]; [exact Hgt|].
      apply Hall. lia.
Qed.

End ShiftSearch.

Lemma Q_gt_asym (x y : Q) :
  negb (Qle_bool x y) = true -> negb (Qle_bool y x) = false.
Proof.
  rewrite negb_true_iff, negb_false_iff, Qle_bool_iff.
  intros H. apply Qlt_le_weak, Qnot_le_lt.
  intros Hle. apply Qle_bool_iff in Hle. congruence.
Qed.

Lemma Q_gt_above (x y z : Q) :
  negb (Qle_bool x y) = true -> negb (Qle_bool z y) = false ->
  negb (Qle_bool x z) = true.
Proof.
  rewrite !negb_true_iff, negb_false_iff, Qle_bool_iff.
  intros Hxy Hzy.
  destruct (Qle_bool x z) eqn:Hxz; [|reflexivity].
  apply Qle_bool_iff in Hxz.
  assert (Hle : (x <= y)%Q) by (now apply Qle_trans with z).
  apply Qle_bool_iff in Hle. congruence.
Qed.

(** C4 (amended). For every shift [s] in [[0, 26)] the score the code computes
    is the sum over [j] of [reference[(j - s) mod 26] * W[j]], the reference
    shifted back by [s].  When some score is above 0, the key symbol is
    [ALPHABET[s]] for the first shift [s], in ascending order, whose score no
    other score exceeds: the scores of all earlier shifts are strictly
    smaller.  When no score is above 0, no shift is ever recorded and the key
    symbol is read from a variable that was never set. *)
Theorem best_shift_first_maximum (A : Vigenere.arith)
    (gt_asym : forall x y,
        Vigenere.num_gt A x y = true -> Vigenere.num_gt A y x = false)
    (gt_above : forall x y z,
        Vigenere.num_gt A x y = true -> Vigenere.num_gt A z y = false ->
        Vigenere.num_gt A x z = true)
    (W : list (Vigenere.num A)) :
  (forall s, (s < 26)%nat -> Vigenere.dot A W s = Spec.shifted_score A W s)
  /\ match Vigenere.best_shift A W with
     | Some s =>
         (s < 26)%nat
         /\ Vigenere.key_symbol A W = Vigenere.Ok (char_at Vigenere.ALPHABET s)
         /\ Vigenere.num_gt A (Vigenere.dot A W s) (Vigenere.num_zero A) = true
         /\ (forall t, (t < 26)%nat ->
               Vigenere.num_gt A (Vigenere.dot A W t) (Vigenere.dot A W s) = false)
         /\ (forall t, (t < s)%nat ->
               Vigenere.num_gt A (Vigenere.dot A W s) (Vigenere.dot A W t) = true)
     | None =>
         Vigenere.key_symbol A W = Vigenere.Undefined Vigenere.UninitializedRead
         /\ forall t, (t < 26)%nat ->
               Vigenere.num_gt A (Vigenere.dot A W t) (Vigenere.num_zero A) = false
     end.
Proof.
  split; [apply dot_shifted|].
  pose proof (shift_search_state A gt_asym gt_above W 26) as H. cbv zeta in H.
  unfold Vigenere.key_symbol, Vigenere.best_shift.
  destruct (Vigenere.maxShift A _) as [s|].
  - destruct H as (Hs & _ & Hpos & Hall & Hbefore). now repeat split.
  - destruct H as (_ & Hall). now split.
Qed.

(** With exact rationals and a column of the letter [b] only, the search
    settles on the shift 23 and the key symbol [x]. *)
Lemma best_shift_first_maximum_witness :
  (forall s, (s < 26)%nat ->
     Vigenere.dot Vigenere.Q_arith Examples.W_b s =
     Spec.shifted_score Vigenere.Q_arith Examples.W_b s)
  /\ match Vigenere.best_shift Vigenere.Q_arith Examples.W_b with
     | Some s =>
         (s < 26)%nat
         /\ Vigenere.key_symbol Vigenere.Q_arith Examples.W_b
            = Vigenere.Ok (char_at Vigenere.ALPHABET s)
         /\ Vigenere.num_gt Vigenere.Q_arith
              (Vigenere.dot Vigenere.Q_arith Examples.W_b s)
              (Vigenere.num_zero Vigenere.Q_arith) = true
         /\ (forall t, (t < 26)%nat ->
               Vigenere.num_gt Vigenere.Q_arith
                 (Vigenere.dot Vigenere.Q_arith Examples.W_b t)
                 (Vigenere.dot Vigenere.Q_arith Examples.W_b s) = false)
         /\ (forall t, (t < s)%nat ->
               Vigenere.num_gt Vigenere.Q_arith
                 (Vigenere.dot Vigenere.Q_arith Examples.W_b s)
                 (Vigenere.dot Vigenere.Q_arith Examples.W_b t) = true)
     | None =>
         Vigenere.key_symbol Vigenere.Q_arith Examples.W_b
         = Vigenere.Undefined Vigenere.UninitializedRead
         /\ forall t, (t < 26)%nat ->
               Vigenere.num_gt Vigenere.Q_arith
                 (Vigenere.dot Vigenere.Q_arith Examples.W_b t)
                 (Vigenere.num_zero Vigenere.Q_arith) = false
     end.
Proof.
  exact (best_shift_first_maximum Vigenere.Q_arith Q_gt_asym Q_gt_above Examples.W_b).
Defined.

(** C4, as stated, fails: for a column of the letter [b] only, the score of
    the shift 1 is [reference[0] = .082], not the [reference[2] = .028] of the
    formula with [(s + j) mod 26]; the key symbol is [x] (shift 23, where the
    code's score is [reference[4] = .127]), while the formula of the claim is
    largest at the shift 3, the symbol [d]. *)
Lemma score_is_not_the_forward_shift :
  ~ (forall s, (s < 26)%nat ->
       (Vigenere.dot Vigenere.Q_arith Examples.W_b s ==
        Spec.spec_score Vigenere.Q_arith Examples.W_b s)%Q)
  /\ (Vigenere.dot Vigenere.Q_arith Examples.W_b 1 == 82 # 1000)%Q
  /\ (Spec.spec_score Vigenere.Q_arith Examples.W_b 1 == 28 # 1000)%Q
  /\ Vigenere.key_symbol Vigenere.Q_arith Examples.W_b = Vigenere.Ok "x"%char
  /\ (forall s, (s < 26)%nat -> s <> 3%nat ->
        (Spec.spec_score Vigenere.Q_arith Examples.W_b s <
         Spec.spec_score Vigenere.Q_arith Examples.W_b 3)%Q).
Proof.
  split; [|split; [|split; [|split]]].
  - intros H. specialize (H 1%nat ltac:(lia)). vm_compute in H. discriminate H.
  - vm_compute. reflexivity.
  - vm_compute. reflexivity.
  - vm_compute. reflexivity.
  - intros s Hs Hne.
    do 26 (destruct s as [|s]; [first [congruence | vm_compute; reflexivity]|]). lia.
Qed.

(** ** The frequency table of a column *)

Section Table.

Import Vigenere Spec.

Lemma alter_map_seq {X : Type} (g : X -> X) (h : nat -> X) (k start n : nat) :
  alter g k (map h (seq start n)) =
  map (fun i => if (i =? start + k)%nat then g (h i) else h i) (seq start n).
Proof.
  revert k start. induction n as [|n IH]; intros k start; [reflexivity|].
  cbn [seq map]. destruct k as [|k]; simpl.
  - rewrite Nat.add_0_r, Nat.eqb_refl. f_equal.
    apply map_ext_in. intros i Hi. apply in_seq in Hi.
    now rewrite (proj2 (Nat.eqb_neq i start)) by lia.
  - rewrite (proj2 (Nat.eqb_neq start (start + S k))) by lia. f_equal.
    fold (alter g k (map h (seq (S start) n))).
    rewrite IH. apply map_ext. intros i.
    now replace (S start + k)%nat with (start + S k)%nat by lia.
Qed.

Lemma countFrequencies_from (text : list ascii) (f : nat -> Z) :
  countFrequencies text (map (fun i => (ascii_of_nat i, f i)) (seq 0 255)) inc =
  map (fun i => (ascii_of_nat i, f i + occurrences text i)) (seq 0 255).
Proof.
  revert f. induction text as [|c rest IH]; intros f.
  - cbn [countFrequencies]. apply map_ext. intros i.
    unfold occurrences. cbn [List.filter length]. f_equal. lia.
  - cbn [countFrequencies]. rewrite alter_map_seq. unfold inc. cbn [fst snd Nat.add].
    rewrite (map_ext _ (fun i => (ascii_of_nat i,
                                   f i + (if (i =? nat_of_ascii c)%nat then 1 else 0)))).
    + rewrite IH. apply map_ext. intros i. f_equal.
      unfold occurrences. cbn [List.filter].
      rewrite (Nat.eqb_sym (nat_of_ascii c) i).
      destruct (i =? nat_of_ascii c)%nat; cbn [length]; lia.
    + intros i. destruct (i =? nat_of_ascii c)%nat; f_equal; lia.
Qed.

Lemma countFrequencies_counted (text : list ascii) :
  countFrequencies text init_table inc = counted text.
Proof. exact (countFrequencies_from text (fun _ => 0)). Qed.

Lemma occurrences_nonneg (text : list ascii) (i : nat) : 0 <= occurrences text i.
Proof. unfold occurrences. lia. Qed.

Lemma occurrences_positive (text : list ascii) (i : nat) :
  0 < occurrences text i -> exists c, In c text /\ nat_of_ascii c = i.
Proof.
  unfold occurrences. intros H.
  destruct (List.filter _ text) as [|c rest] eqn:Hf; [simpl in H; lia|].
  assert (Hc : In c (List.filter (fun c => (nat_of_ascii c =? i)%nat) text))
    by (rewrite Hf; now left).
  apply filter_In in Hc as [Hin Heq]. exists c. split; [assumption|].
  now apply Nat.eqb_eq.
Qed.

Lemma occurrences_of_member (text : list ascii) (c : ascii) :
  In c text -> 0 < occurrences text (nat_of_ascii c).
Proof.
  intros Hin. unfold occurrences.
  assert (Hc : In c (List.filter (fun x => (nat_of_ascii x =? nat_of_ascii c)%nat) text))
    by (apply filter_In; split; [assumption | apply Nat.eqb_refl]).
  destruct (List.filter _ text); [destruct Hc | simpl; lia].
Qed.

End Table.

(** ** The symbols of a column *)

Section Columns.

Import Vigenere Spec.

Lemma in_alphabet_In (c : ascii) : in_alphabet c = true -> In c ALPHABET.
Proof.
  unfold in_alphabet. destruct (index_of c ALPHABET) as [i|] eqn:Hi; [|discriminate].
  intros _. apply index_of_nth_error in Hi. now apply nth_error_In in Hi.
Qed.

Lemma In_in_alphabet (c : ascii) : In c ALPHABET -> in_alphabet c = true.
Proof.
  intros H. simpl in H.
  repeat (destruct H as [<- | H]; [reflexivity|]). destruct H.
Qed.

(** The sample holds letters only. *)
Lemma read_sample_letters (lines : list (list ascii)) (ciph : list ascii) :
  Forall (fun c => in_alphabet c = true) ciph ->
  Forall (fun c => in_alphabet c = true) (read_sample lines ciph).
Proof.
  revert ciph. induction lines as [|line rest IH]; intros ciph H; simpl; [exact H|].
  destruct (_ <? 2000); [|exact H].
  apply IH, List.Forall_app. split; [exact H|].
  apply List.Forall_forall. intros c Hc. unfold letters_of in Hc.
  now apply filter_In in Hc as [_ Hc].
Qed.

Lemma column_from_In (fuel : nat) (ciph : list ascii) (i len : nat)
    (col : list ascii) (c : ascii) :
  column_from fuel ciph i len = Ok col -> In c col -> In c ciph.
Proof.
  revert i col. induction fuel as [|fuel IH]; intros i col; cbn [column_from].
  - intros [= <-] [].
  - destruct (nth_error ciph i) as [x|] eqn:Hx; [|intros [= <-] []].
    destruct (INT_MAX <? _); [discriminate|].
    destruct (column_from fuel ciph (i + len) len) as [rest|f] eqn:Hrest;
      cbn [mbind result_bind]; [|discriminate].
    intros [= <-] [<- | H]; [now apply nth_error_In in Hx | now apply (IH _ _ Hrest)].
Qed.

(** The fuel of [column] is enough: for [len >= 1] the column holds the
    symbols at [start], [start + len], ... up to the end of the sample. *)
Lemma column_from_nth (fuel : nat) (ciph : list ascii) (i len : nat)
    (col : list ascii) (k : nat) :
  (1 <= len)%nat -> (length ciph <= i + fuel)%nat ->
  column_from fuel ciph i len = Ok col ->
  nth_error col k =
  if (i + k * len <? length ciph)%nat then nth_error ciph (i + k * len) else None.
Proof.
  intros Hlen. revert i col k. induction fuel as [|fuel IH]; intros i col k Hfuel.
  - cbn [column_from]. intros [= <-].
    rewrite (proj2 (Nat.ltb_ge _ _)) by nia. now destruct k.
  - cbn [column_from]. destruct (nth_error ciph i) as [x|] eqn:Hx.
    + destruct (INT_MAX <? _); [discriminate|].
      destruct (column_from fuel ciph (i + len) len) as [rest|f] eqn:Hrest;
        cbn [mbind result_bind]; [|discriminate].
      intros [= <-].
      destruct k as [|k].
      * cbn [nth_error]. rewrite Nat.mul_0_l, Nat.add_0_r.
        assert (Hi : (i < length ciph)%nat) by (apply nth_error_Some; congruence).
        now rewrite (proj2 (Nat.ltb_lt _ _) Hi).
      * cbn [nth_error]. rewrite (IH (i + len)%nat rest k ltac:(lia) Hrest).
        now replace (i + len + k * len)%nat with (i + S k * len)%nat by lia.
    + intros [= <-]. apply nth_error_None in Hx.
      rewrite (proj2 (Nat.ltb_ge _ _)) by nia. now destruct k.
Qed.

Lemma column_nth (ciph : list ascii) (start len : nat) (col : list ascii) (k : nat) :
  (1 <= len)%nat ->
  column ciph start len = Ok col ->
  nth_error col k =
  if (start + k * len <? length ciph)%nat
  then nth_error ciph (start + k * len) else None.
Proof. intros Hlen. apply column_from_nth; [assumption | lia]. Qed.

(** No increment of the index overflows when the size of the sample and the
    length together stay within [INT_MAX + 1]. *)
Lemma column_from_ok (fuel : nat) (ciph : list ascii) (i len : nat) :
  Z.of_nat (length ciph) + Z.of_nat len <= INT_MAX + 1 ->
  exists col, column_from fuel ciph i len = Ok col.
Proof.
  intro Hb. revert i. induction fuel as [|fuel IH]; intro i; cbn [column_from].
  - now eexists.
  - destruct (nth_error ciph i) as [x|] eqn:Hx; [|now eexists].
    assert (Hi : (i < length ciph)%nat) by (apply nth_error_Some; congruence).
    rewrite (proj2 (Z.ltb_ge _ _)) by lia.
    destruct (IH (i + len)%nat) as (rest & ->). cbn [mbind result_bind].
    now eexists.
Qed.

Lemma column_ok (ciph : list ascii) (start len : nat) :
  Z.of_nat (length ciph) + Z.of_nat len <= INT_MAX + 1 ->
  exists col, column ciph start len = Ok col.
Proof. apply column_from_ok. Qed.

(** The first increment overflows already when [start + len] is above
    [INT_MAX]. *)
Lemma column_overflow (ciph : list ascii) (start len : nat) :
  (start < length ciph)%nat -> INT_MAX < Z.of_nat start + Z.of_nat len ->
  column ciph start len = Undefined SignedOverflow.
Proof.
  intros Hs Hb. unfold column.
  destruct (length ciph) as [|n] eqn:Hn; [lia|]. cbn [column_from].
  destruct (nth_error ciph start) as [x|] eqn:Hx.
  - now rewrite (proj2 (Z.ltb_lt _ _) Hb).
  - apply nth_error_None in Hx. lia.
Qed.

Lemma column_letters (lines : list (list ascii)) (start len : nat) (col : list ascii) :
  column (read_sample lines []) start len = Ok col ->
  Forall (fun c => in_alphabet c = true) col.
Proof.
  intro Hcol. apply List.Forall_forall. intros c Hc.
  apply (column_from_In _ _ _ _ _ _ Hcol) in Hc.
  pose proof (read_sample_letters lines [] (List.Forall_nil _)) as H.
  rewrite List.Forall_forall in H. now apply H.
Qed.

(** A letter is written inside [W], any other symbol outside. *)
Lemma letter_in_bounds (c : ascii) : in_alphabet c = true -> in_bounds c.
Proof.
  intros H. apply in_alphabet_In in H. simpl in H. unfold in_bounds.
  repeat (destruct H as [<- | H];
          [vm_compute; split; [discriminate | reflexivity]|]).
  destruct H.
Qed.

Lemma other_out_of_bounds (i : nat) :
  (i < 255)%nat -> in_alphabet (ascii_of_nat i) = false ->
  ~ in_bounds (ascii_of_nat i).
Proof.
  intros Hi Hc Hb. unfold in_bounds in Hb.
  assert (Hall : forallb
            (fun i => in_alphabet (ascii_of_nat i)
                      || negb ((0 <=? write_index (ascii_of_nat i))
                               && (write_index (ascii_of_nat i) <? 26)))
            (seq 0 255) = true) by (vm_compute; reflexivity).
  rewrite forallb_forall in Hall.
  specialize (Hall i ltac:(apply in_seq; lia)). rewrite Hc in Hall. simpl in Hall.
  apply negb_true_iff, andb_false_iff in Hall as [H | H].
  - apply Z.leb_gt in H. lia.
  - apply Z.ltb_ge in H. lia.
Qed.

End Columns.

(** ** The 26 entries that are written *)

Section Top.

Import Vigenere Spec.

Lemma filter_Permutation {X : Type} (f : X -> bool) (l l' : list X) :
  Permutation l l' -> Permutation (List.filter f l) (List.filter f l').
Proof.
  induction 1 as [|x l l' _ IH|x y l|l l' l'' _ IH1 _ IH2]; simpl.
  - constructor.
  - destruct (f x); [now constructor | exact IH].
  - destruct (f x), (f y); try reflexivity. apply perm_swap.
  - now transitivity (List.filter f l').
Qed.

Lemma filter_split_Permutation {X : Type} (f : X -> bool) (l : list X) :
  Permutation l (List.filter f l ++ List.filter (fun x => negb (f x)) l).
Proof.
  induction l as [|x rest IH]; simpl; [constructor|].
  destruct (f x); simpl; [now constructor|].
  rewrite <- Permutation_middle. now constructor.
Qed.

Lemma filter_length_le {X : Type} (f g : X -> bool) (l : list X) :
  (forall x, In x l -> f x = true -> g x = true) ->
  (length (List.filter f l) <= length (List.filter g l))%nat.
Proof.
  induction l as [|x rest IH]; intros H; simpl; [lia|].
  assert (IH' : (length (List.filter f rest) <= length (List.filter g rest))%nat).
  { apply IH. intros y Hy. apply H. now right. }
  destruct (f x) eqn:Hf.
  - rewrite (H x (or_introl eq_refl) Hf). simpl. lia.
  - destruct (g x); simpl; lia.
Qed.

(** In a table sorted by descending count that has [n] positive entries, the
    first [n] entries are positive. *)
Lemma top_positive (sorted : list (ascii * Z)) (n : nat) :
  StronglySorted (fun l r => snd r <= snd l) sorted ->
  (n <= length (List.filter positive sorted))%nat ->
  Forall (fun e => positive e = true) (firstn n sorted).
Proof.
  intros Hs. revert n. induction Hs as [|x rest Hrest IH Hx]; intros n Hn.
  - rewrite firstn_nil. constructor.
  - destruct n as [|n]; [constructor|]. simpl in Hn |- *.
    destruct (positive x) eqn:Hp.
    + constructor; [exact Hp|]. apply IH. simpl in Hn. lia.
    + exfalso.
      rewrite (filter_none positive rest) in Hn; [simpl in Hn; lia|].
      eapply List.Forall_impl; [|exact Hx]. simpl. intros y Hy.
      unfold positive in *. apply Z.ltb_ge in Hp. apply Z.ltb_ge. lia.
Qed.

Variable col : list ascii.
Hypothesis col_letters : Forall (fun c => in_alphabet c = true) col.

(** A positive entry of the table of [col] is the entry of a letter of [col]. *)
Lemma positive_entry (i : nat) :
  (i < 255)%nat -> 0 < occurrences col i ->
  In (ascii_of_nat i) col /\ in_alphabet (ascii_of_nat i) = true.
Proof.
  intros Hi Hp. apply occurrences_positive in Hp as (c & Hc & <-).
  rewrite ascii_nat_embedding. split; [exact Hc|].
  rewrite List.Forall_forall in col_letters. now apply col_letters.
Qed.

Lemma entry_of_member (i : nat) :
  (i < 255)%nat -> In (ascii_of_nat i) col -> 0 < occurrences col i.
Proof.
  intros Hi Hc. apply occurrences_of_member in Hc.
  now rewrite nat_ascii_embedding in Hc by lia.
Qed.

Lemma positive_counted :
  List.filter positive (counted col) =
  map (fun i => (ascii_of_nat i, occurrences col i))
      (List.filter (fun i => 0 <? occurrences col i) (seq 0 255)).
Proof. unfold counted. now rewrite filter_map_swap. Qed.

(** When every letter occurs, the positive entries are the 26 letters. *)
Lemma positive_when_complete :
  (forall c, In c ALPHABET -> In c col) ->
  length (List.filter positive (counted col)) = 26%nat.
Proof.
  intros Hall. rewrite positive_counted, length_map.
  rewrite (filter_ext_in _ (fun i => in_alphabet (ascii_of_nat i))).
  - vm_compute. reflexivity.
  - intros i Hi. apply in_seq in Hi.
    destruct (in_alphabet (ascii_of_nat i)) eqn:Hc.
    + apply Z.ltb_lt, entry_of_member; [lia|]. now apply Hall, in_alphabet_In.
    + apply Z.ltb_ge.
      destruct (Z.lt_ge_cases 0 (occurrences col i)) as [Hp | Hp]; [|lia].
      apply positive_entry in Hp as [_ Hp]; [congruence | lia].
Qed.

(** When a letter is missing, at most 25 entries are positive. *)
Lemma positive_when_incomplete (c0 : ascii) :
  In c0 ALPHABET -> ~ In c0 col ->
  (length (List.filter positive (counted col)) <= 25)%nat.
Proof.
  intros Hc0 Hmiss. rewrite positive_counted, length_map.
  transitivity (length (List.filter
                          (fun i => in_alphabet (ascii_of_nat i)
                                    && negb (Ascii.eqb (ascii_of_nat i) c0))
                          (seq 0 255))).
  - apply filter_length_le. intros i Hi Hp. apply in_seq in Hi.
    apply Z.ltb_lt, positive_entry in Hp as [Hin Hl]; [|lia].
    rewrite Hl. simpl. apply negb_true_iff, Ascii.eqb_neq. congruence.
  - simpl in Hc0.
    repeat (destruct Hc0 as [<- | Hc0]; [vm_compute; lia|]). destruct Hc0.
Qed.

Lemma counted_head :
  counted col = (zero, 0) :: map (fun i => (ascii_of_nat i, occurrences col i)) (seq 1 254).
Proof.
  unfold counted. cbn [seq map]. f_equal. f_equal.
  pose proof (occurrences_nonneg col 0).
  destruct (Z.lt_ge_cases 0 (occurrences col 0)) as [Hp | Hp]; [|lia].
  apply positive_entry in Hp as [_ Hp]; [discriminate Hp | lia].
Qed.

End Top.

Section WriteIndex.

Import Vigenere Spec.

Variable col : list ascii.
Hypothesis col_letters : Forall (fun c => in_alphabet c = true) col.

Lemma counted_entry (e : ascii * Z) :
  In e (counted col) ->
  exists i, (i < 255)%nat /\ e = (ascii_of_nat i, occurrences col i).
Proof.
  unfold counted. intros H. apply in_map_iff in H as (i & <- & Hi).
  apply in_seq in Hi. exists i. split; [lia | reflexivity].
Qed.

(** Every letter occurs: whatever the order of equal counts, the 26 entries
    written are letters. *)
Lemma complete_in_bounds (sorted : list (ascii * Z)) :
  (forall c, In c ALPHABET -> In c col) ->
  sorted_by_count (counted col) sorted ->
  Forall (fun e => in_bounds (fst e)) (firstn 26 sorted).
Proof.
  intros Hall [Hperm Hsorted].
  assert (Htop : Forall (fun e => positive e = true) (firstn 26 sorted)).
  { apply top_positive; [exact Hsorted|].
    rewrite <- (Permutation_length (filter_Permutation positive _ _ Hperm)).
    now rewrite (positive_when_complete col col_letters Hall). }
  apply List.Forall_forall. intros e He.
  rewrite List.Forall_forall in Htop. pose proof (Htop e He) as Hp.
  assert (He' : In e sorted).
  { rewrite <- (firstn_skipn 26 sorted). apply in_or_app. now left. }
  apply (Permutation_in _ (Permutation_sym Hperm)) in He'.
  rename He' into Hin. clear He. rename Hin into He.
  apply counted_entry in He as (i & Hi & ->).
  unfold positive in Hp. cbn [fst snd] in *. apply Z.ltb_lt in Hp.
  apply letter_in_bounds.
  now apply (positive_entry col col_letters i Hi).
Qed.

(** A letter is missing: the order that puts the positive counts first and
    leaves the other entries as they were in the table is sorted, and it has
    the entry of the character 0 among the first 26. *)
Lemma incomplete_out_of_bounds (c0 : ascii) :
  In c0 ALPHABET -> ~ In c0 col ->
  exists sorted e,
    sorted_by_count (counted col) sorted /\ In e (firstn 26 sorted) /\
    snd e = 0 /\ in_alphabet (fst e) = false /\ ~ in_bounds (fst e) /\
    exists top rest,
      firstn 26 sorted = top ++ e :: rest /\
      Forall (fun x => in_bounds (fst x)) top.
Proof.
  intros Hc0 Hmiss.
  set (P := List.filter positive (counted col)).
  set (Z0 := List.filter (fun e => negb (positive e)) (counted col)).
  exists (sort_desc P ++ Z0), (zero, 0).
  destruct (sort_desc_sorted P) as [HPperm HPsorted].
  assert (HZ0 : forall e, In e Z0 -> snd e = 0).
  { intros e He. apply filter_In in He as [He Hn].
    apply counted_entry in He as (i & _ & ->). cbn [snd].
    unfold positive in Hn. cbn [snd] in Hn.
    apply negb_true_iff, Z.ltb_ge in Hn.
    pose proof (occurrences_nonneg col i). lia. }
  assert (HPpos : forall e, In e (sort_desc P) -> 0 < snd e).
  { intros e He. apply (Permutation_in _ (Permutation_sym HPperm)) in He.
    apply filter_In in He as [_ He]. now apply Z.ltb_lt in He. }
  assert (Hhead : exists rest, Z0 = (zero, 0) :: rest).
  { unfold Z0. rewrite (counted_head col col_letters).
    generalize (map (fun i => (ascii_of_nat i, occurrences col i)) (seq 1 254)).
    intros T. eexists. reflexivity. }
  destruct Hhead as (rest & Hrest).
  assert (HPlen : (length (sort_desc P) <= 25)%nat).
  { rewrite <- (Permutation_length HPperm).
    exact (positive_when_incomplete col col_letters c0 Hc0 Hmiss). }
  split; [split|].
  - rewrite <- HPperm. apply filter_split_Permutation.
  - apply StronglySorted_append; [| exact HPsorted |].
    + intros x1 x2 H1 H2. apply HPpos in H1. apply HZ0 in H2. lia.
    + clearbody Z0. clear Hrest. induction Z0 as [|x l IH]; constructor.
      * apply IH. intros e He. apply HZ0. now right.
      * apply List.Forall_forall. intros y Hy.
        rewrite (HZ0 x (or_introl eq_refl)), (HZ0 y (or_intror Hy)). lia.
  - split; [|split; [reflexivity|split; [reflexivity|split]]].
    + rewrite firstn_app, Hrest.
      apply in_or_app. right.
      destruct (26 - length (sort_desc P))%nat as [|m] eqn:Hm; [lia|].
      now left.
    + apply (other_out_of_bounds 0); [lia | reflexivity].
    + exists (sort_desc P), (firstn (25 - length (sort_desc P)) rest). split.
      * rewrite firstn_app, Hrest, firstn_all2 by lia.
        replace (26 - length (sort_desc P))%nat
          with (S (25 - length (sort_desc P))) by lia.
        rewrite firstn_cons. reflexivity.
      * apply List.Forall_forall. intros e He.
        apply (Permutation_in _ (Permutation_sym HPperm)) in He.
        apply filter_In in He as [He Hp].
        apply counted_entry in He as (i & Hi & ->).
        unfold positive in Hp. cbn [fst snd] in *. apply Z.ltb_lt in Hp.
        apply letter_in_bounds.
        now apply (positive_entry col col_letters i Hi).
Qed.

End WriteIndex.

(** * Further properties of the affine tool *)

(** ** What [linsolve] solves *)

Lemma mod26_eq (a b k : Z) : a = b + k * 26 -> a mod 26 = b mod 26.
Proof. intros ->. apply Z_mod_plus_full. Qed.

Lemma linsolve_cases (x1 y1 x2 y2 : Z) :
  Affine.linsolve (x1, y1) (x2, y2) = (0, 0) \/
  exists inv,
    0 < inv < 26 /\ Spec.is_inverse (x2 - x1) inv /\
    Z.gcd (((y2 - y1) * inv) mod 26) 26 = 1 /\
    Affine.linsolve (x1, y1) (x2, y2) =
      (((y2 - y1) * inv) mod 26, (y1 - ((y2 - y1) * inv) mod 26 * x1) mod 26).
Proof.
  assert (Hd : 0 <= (x2 - x1) mod 26 < 26) by (apply Z.mod_pos_bound; lia).
  destruct (inverseMod_26_sound _ Hd) as [H0 | [Hr H1]].
  - left. unfold Affine.linsolve, cryptomath.mod_. cbn [fst snd]. now rewrite H0.
  - set (inv := cryptomath.inverseMod ((x2 - x1) mod 26) 26) in *.
    assert (Hinv : Spec.is_inverse (x2 - x1) inv).
    { unfold Spec.is_inverse. now rewrite <- Z.mul_mod_idemp_l by lia. }
    rewrite (linsolve_with_inverse _ _ _ _ inv Hinv). cbv zeta.
    destruct (Z.gcd (((y2 - y1) * inv) mod 26) 26 =? 1) eqn:Hg; [|now left].
    right. exists inv. apply Z.eqb_eq in Hg. now repeat split.
Qed.

(** X1. A result of [linsolve] other than the sentinel is a valid key that
    takes both input pairs where they should go: [alpha] lies in [(0, 26)]
    and is coprime with 26, [beta] lies in [[0, 26)], and
    [alpha * x + beta = y (mod 26)] for both pairs. *)
Theorem linsolve_solves_both_pairs (x1 y1 x2 y2 : Z) :
  Affine.linsolve (x1, y1) (x2, y2) <> (0, 0) ->
  0 < fst (Affine.linsolve (x1, y1) (x2, y2)) < 26
  /\ Z.gcd (fst (Affine.linsolve (x1, y1) (x2, y2))) 26 = 1
  /\ 0 <= snd (Affine.linsolve (x1, y1) (x2, y2)) < 26
  /\ (fst (Affine.linsolve (x1, y1) (x2, y2)) * x1
      + snd (Affine.linsolve (x1, y1) (x2, y2))) mod 26 = y1 mod 26
  /\ (fst (Affine.linsolve (x1, y1) (x2, y2)) * x2
      + snd (Affine.linsolve (x1, y1) (x2, y2))) mod 26 = y2 mod 26.
Proof.
  intros Hne.
  destruct (linsolve_cases x1 y1 x2 y2) as [H0 | (inv & Hr & Hinv & Hg & ->)];
    [contradiction|].
  cbn [fst snd]. unfold Spec.is_inverse in Hinv.
  set (alpha := ((y2 - y1) * inv) mod 26) in *.
  assert (Ha : 0 <= alpha < 26) by (apply Z.mod_pos_bound; lia).
  assert (Hb : 0 <= (y1 - alpha * x1) mod 26 < 26) by (apply Z.mod_pos_bound; lia).
  assert (Ha0 : alpha <> 0).
  { intros H0. rewrite H0 in Hg. discriminate Hg. }
  split; [lia|]. split; [exact Hg|]. split; [exact Hb|].
  pose proof (Z.mod_eq ((y2 - y1) * inv) 26 ltac:(lia)) as Ea. fold alpha in Ea.
  pose proof (Z.mod_eq (y1 - alpha * x1) 26 ltac:(lia)) as Eb.
  pose proof (Z.mod_eq ((x2 - x1) * inv) 26 ltac:(lia)) as Ei. rewrite Hinv in Ei.
  set (qa := (y2 - y1) * inv / 26) in *.
  set (qb := (y1 - alpha * x1) / 26) in *.
  set (qi := (x2 - x1) * inv / 26) in *.
  split.
  - apply (mod26_eq _ _ (- qb)). lia.
  - apply (mod26_eq _ _ ((y2 - y1) * qi - qa * (x2 - x1) - qb)).
    rewrite Eb.
    assert (E : alpha * (x2 - x1) = (y2 - y1) + 26 * ((y2 - y1) * qi - qa * (x2 - x1))).
    { rewrite Ea.
      replace (((y2 - y1) * inv - 26 * qa) * (x2 - x1))
        with ((y2 - y1) * ((x2 - x1) * inv) - 26 * (qa * (x2 - x1))) by ring.
      replace ((x2 - x1) * inv) with (1 + 26 * qi) by lia. ring. }
    lia.
Qed.

(** The pairs [a -> b] and [b -> c] give the key [(1, 1)]. *)
Lemma linsolve_solves_both_pairs_witness :
  0 < fst (Affine.linsolve (0, 1) (1, 2)) < 26
  /\ Z.gcd (fst (Affine.linsolve (0, 1) (1, 2))) 26 = 1
  /\ 0 <= snd (Affine.linsolve (0, 1) (1, 2)) < 26
  /\ (fst (Affine.linsolve (0, 1) (1, 2)) * 0
      + snd (Affine.linsolve (0, 1) (1, 2))) mod 26 = 1 mod 26
  /\ (fst (Affine.linsolve (0, 1) (1, 2)) * 1
      + snd (Affine.linsolve (0, 1) (1, 2))) mod 26 = 2 mod 26.
Proof.
  apply (linsolve_solves_both_pairs 0 1 1 2). vm_compute. discriminate.
Defined.

Lemma linsolve_of_key (a b x1 x2 inv : Z) :
  0 <= a < 26 -> 0 <= b < 26 -> Z.gcd a 26 = 1 ->
  Spec.is_inverse (x2 - x1) inv ->
  Affine.linsolve (x1, (a * x1 + b) mod 26) (x2, (a * x2 + b) mod 26) = (a, b).
Proof.
  intros Ha Hb Hg Hinv.
  rewrite (linsolve_with_inverse _ _ _ _ inv Hinv). cbv zeta.
  unfold Spec.is_inverse in Hinv.
  assert (Halpha : (((a * x2 + b) mod 26 - (a * x1 + b) mod 26) * inv) mod 26 = a).
  { rewrite <- (Z.mod_small a 26) at 3 by lia.
    pose proof (Z.mod_eq (a * x2 + b) 26 ltac:(lia)) as E2.
    pose proof (Z.mod_eq (a * x1 + b) 26 ltac:(lia)) as E1.
    pose proof (Z.mod_eq ((x2 - x1) * inv) 26 ltac:(lia)) as Ei. rewrite Hinv in Ei.
    set (q2 := (a * x2 + b) / 26) in *. set (q1 := (a * x1 + b) / 26) in *.
    set (qi := (x2 - x1) * inv / 26) in *.
    apply (mod26_eq _ _ (a * qi - (q2 - q1) * inv)).
    rewrite E2, E1.
    replace ((a * x2 + b - 26 * q2 - (a * x1 + b - 26 * q1)) * inv)
      with (a * ((x2 - x1) * inv) - 26 * ((q2 - q1) * inv)) by ring.
    replace ((x2 - x1) * inv) with (1 + 26 * qi) by lia. ring. }
  rewrite Halpha. apply Z.eqb_eq in Hg. rewrite Hg. f_equal.
  rewrite <- (Z.mod_small b 26) at 2 by lia.
  pose proof (Z.mod_eq (a * x1 + b) 26 ltac:(lia)) as E1.
  apply (mod26_eq _ _ (- ((a * x1 + b) / 26))). lia.
Qed.

(** X2. [linsolve] recovers the key: from two pairs [(x, (a * x + b) mod 26)]
    made with a valid key [(a, b)], whose plain residues differ by a unit
    modulo 26, it returns [(a, b)]. *)
Theorem linsolve_recovers_the_key (a b x1 x2 inv : Z) :
  0 <= a < 26 -> 0 <= b < 26 -> Z.gcd a 26 = 1 ->
  Spec.is_inverse (x2 - x1) inv ->
  Affine.linsolve (x1, (a * x1 + b) mod 26) (x2, (a * x2 + b) mod 26) = (a, b).
Proof. exact (linsolve_of_key a b x1 x2 inv). Qed.

(** The key [(5, 8)] is recovered from the images of [a] and [b]. *)
Lemma linsolve_recovers_the_key_witness :
  Affine.linsolve (0, (5 * 0 + 8) mod 26) (1, (5 * 1 + 8) mod 26) = (5, 8).
Proof.
  apply (linsolve_recovers_the_key 5 8 0 1 1); try lia; reflexivity.
Defined.

(** ** Two known pairs *)

Lemma residue_of_letter (x : Z) :
  0 <= x < 26 -> to_char (find Affine.ALPHABET (Terms.letter x)) = x.
Proof.
  intros Hx.
  pose proof (range26_forallb
    (fun x => to_char (find Affine.ALPHABET (Terms.letter x)) =? x) eq_refl x Hx) as H.
  now apply Z.eqb_eq in H.
Qed.

Lemma residues_of_letters (x y : Z) :
  0 <= x < 26 -> 0 <= y < 26 ->
  Affine.residues (Terms.letter x, Terms.letter y) = (x, y).
Proof.
  intros Hx Hy. unfold Affine.residues. cbn [fst snd].
  now rewrite !residue_of_letter.
Qed.

Lemma fresh_first (k : Z * Z) :
  fst k <> 0 -> Affine.fresh k (Affine.Search ∅ false []) = true.
Proof.
  intros Hk. unfold Affine.fresh. cbn [Affine.tested].
  apply Z.eqb_neq in Hk. rewrite Hk. cbn [negb andb].
  apply negb_true_iff, bool_decide_eq_false. apply not_elem_of_empty.
Qed.

Lemma Crack_Best_of_two_pairs
    (decrypt : Z -> Z -> list ascii -> list ascii)
    (ciph : list ascii) (freqs : list (ascii * Z)) (a b x1 x2 inv : Z) :
  0 <= a < 26 -> 0 <= b < 26 -> Z.gcd a 26 = 1 ->
  0 <= x1 < 26 -> 0 <= x2 < 26 -> Spec.is_inverse (x2 - x1) inv ->
  Affine.Crack_Best decrypt ciph
    [(Terms.letter x1, Terms.letter ((a * x1 + b) mod 26));
     (Terms.letter x2, Terms.letter ((a * x2 + b) mod 26))] freqs
  = [Affine.Row a b (decrypt a b ciph)].
Proof.
  intros Ha Hb Hg Hx1 Hx2 Hinv.
  assert (Hy1 : 0 <= (a * x1 + b) mod 26 < 26) by (apply Z.mod_pos_bound; lia).
  assert (Hy2 : 0 <= (a * x2 + b) mod 26 < 26) by (apply Z.mod_pos_bound; lia).
  assert (Ha0 : a <> 0) by (intros ->; discriminate Hg).
  unfold Affine.Crack_Best, Affine.tier1.
  cbn [length seq Nat.add Nat.sub for_until Affine.done].
  unfold Affine.tier1_body. cbn [nth].
  rewrite !residues_of_letters by assumption.
  rewrite (linsolve_of_key a b x1 x2 inv) by assumption.
  rewrite fresh_first by exact Ha0.
  reflexivity.
Qed.

(** X3. Two correct known pairs are enough: when the only hints are two
    letter pairs made with a valid key [(a, b)] and their plain letters
    differ by a unit modulo 26, the [-cb] search prints exactly one row, the
    key [(a, b)] with its decryption, whatever the frequencies are. *)
Theorem Crack_Best_two_known_pairs
    (decrypt : Z -> Z -> list ascii -> list ascii)
    (ciph : list ascii) (freqs : list (ascii * Z)) (a b x1 x2 inv : Z) :
  0 <= a < 26 -> 0 <= b < 26 -> Z.gcd a 26 = 1 ->
  0 <= x1 < 26 -> 0 <= x2 < 26 -> Spec.is_inverse (x2 - x1) inv ->
  Affine.Crack_Best decrypt ciph
    [(Terms.letter x1, Terms.letter ((a * x1 + b) mod 26));
     (Terms.letter x2, Terms.letter ((a * x2 + b) mod 26))] freqs
  = [Affine.Row a b (decrypt a b ciph)].
Proof. exact (Crack_Best_of_two_pairs decrypt ciph freqs a b x1 x2 inv). Qed.

(** The hints [a -> i] and [b -> n] of the key [(5, 8)]. *)
Lemma Crack_Best_two_known_pairs_witness :
  Affine.Crack_Best Affine.affine_decrypt (Examples.text "ihhiwcihxisp")
    [(Terms.letter 0, Terms.letter ((5 * 0 + 8) mod 26));
     (Terms.letter 1, Terms.letter ((5 * 1 + 8) mod 26))] Examples.freqs_d
  = [Affine.Row 5 8 (Affine.affine_decrypt 5 8 (Examples.text "ihhiwcihxisp"))].
Proof.
  apply (Crack_Best_two_known_pairs Affine.affine_decrypt
           (Examples.text "ihhiwcihxisp") Examples.freqs_d 5 8 0 1 1);
    try lia; reflexivity.
Defined.

(** ** The rows of the [-cb] search *)

Lemma linsolve_valid (p1 p2 : Z * Z) :
  fst (Affine.linsolve p1 p2) <> 0 -> Terms.valid_key (Affine.linsolve p1 p2).
Proof.
  destruct p1 as [x1 y1], p2 as [x2 y2]. intros Hne.
  destruct (linsolve_cases x1 y1 x2 y2) as [H0 | (inv & _ & _ & Hg & Heq)].
  - rewrite H0 in Hne. now contradiction Hne.
  - rewrite Heq in *. cbn [fst] in Hne. unfold Terms.valid_key. cbn [fst snd].
    pose proof (Z.mod_pos_bound ((y2 - y1) * inv) 26 ltac:(lia)).
    pose proof (Z.mod_pos_bound (y1 - ((y2 - y1) * inv) mod 26 * x1) 26 ltac:(lia)).
    split; [lia|]. split; [exact Hg | lia].
Qed.

Section SearchInvariant.

Import Affine Terms.

Variable decrypt : Z -> Z -> list ascii -> list ascii.
Variable ciph : list ascii.
Variable known : list (ascii * ascii).

(** Printing the row of a fresh, valid key keeps the invariant. *)
Lemma invariant_print (soln : Z * Z) (msg : list ascii) (d : bool) (s : search) :
  valid_key soln -> fresh soln s = true -> search_invariant s ->
  search_invariant
    (Search ({[soln]} ∪ tested s) d (out s ++ [Row (fst soln) (snd soln) msg])).
Proof.
  intros Hvalid Hfresh (Hnodup & Htested & Hkeys).
  unfold fresh in Hfresh. apply andb_prop in Hfresh as [_ Hnew].
  apply negb_true_iff, bool_decide_eq_false in Hnew.
  assert (Hkey : key_of (Row (fst soln) (snd soln) msg) = soln)
    by now destruct soln.
  unfold search_invariant. cbn [out tested]. split; [|split].
  - rewrite map_app. cbn [map]. rewrite Hkey.
    apply NoDup_app. split; [exact Hnodup|]. split; [|apply NoDup_singleton].
    intros k Hk Hk'. apply list_elem_of_In in Hk.
    apply list_elem_of_singleton in Hk'. subst k.
    apply in_map_iff in Hk as (r & Hr & Hin). apply Hnew.
    rewrite <- Hr. now apply Htested.
  - intros r Hr. apply in_app_or in Hr as [Hr | [<- | []]].
    + apply elem_of_union_r. now apply Htested.
    + rewrite Hkey. apply elem_of_union_l. now apply elem_of_singleton.
  - apply List.Forall_app. split; [exact Hkeys|].
    constructor; [|constructor]. now rewrite Hkey.
Qed.

(** Recording a key without printing it keeps the invariant. *)
Lemma invariant_record (soln : Z * Z) (d : bool) (s : search) :
  search_invariant s -> search_invariant (Search ({[soln]} ∪ tested s) d (out s)).
Proof.
  intros (Hnodup & Htested & Hkeys). unfold search_invariant. cbn [out tested].
  split; [exact Hnodup|]. split; [|exact Hkeys].
  intros r Hr. apply elem_of_union_r. now apply Htested.
Qed.

Lemma invariant_verify (soln : Z * Z) (s : search) :
  (fst soln <> 0 -> valid_key soln) ->
  search_invariant s -> search_invariant (verify decrypt ciph known soln s).
Proof.
  intros Hvalid Hs. unfold verify.
  destruct (fresh soln s) eqn:Hf; [|exact Hs].
  destruct (negb _).
  - apply invariant_print; [|exact Hf | exact Hs].
    apply Hvalid. now apply (fresh_nonzero soln s).
  - now apply invariant_record.
Qed.

Lemma invariant_tier1 (s : search) :
  search_invariant s -> search_invariant (tier1 decrypt ciph known s).
Proof.
  intros Hs. unfold tier1.
  apply for_until_invariant; [exact Hs|]. intros i s1 _ _ Hs1.
  apply for_until_invariant; [exact Hs1|]. intros j s2 _ _ Hs2.
  unfold tier1_body.
  destruct (fresh _ s2) eqn:Hf; [|exact Hs2].
  apply invariant_print; [|exact Hf | exact Hs2].
  apply linsolve_valid. now apply (fresh_nonzero _ s2).
Qed.

Lemma invariant_tier2 (freqs : list (ascii * Z)) (s : search) :
  search_invariant s -> search_invariant (tier2 decrypt ciph known freqs s).
Proof.
  intros Hs. unfold tier2.
  apply for_until_invariant; [exact Hs|]. intros i s1 _ _ Hs1.
  apply for_until_invariant; [exact Hs1|]. intros j s2 _ _ Hs2.
  unfold tier2_body. destruct (tier2_guard _ _); [|exact Hs2].
  apply invariant_verify; [apply linsolve_valid | exact Hs2].
Qed.

Lemma invariant_tier3 (freqs : list (ascii * Z)) (s : search) :
  search_invariant s -> search_invariant (tier3 decrypt ciph known freqs s).
Proof.
  intros Hs. unfold tier3.
  apply for_until_invariant; [exact Hs|]. intros i s1 _ _ Hs1.
  apply for_until_invariant; [exact Hs1|]. intros j s2 _ _ Hs2.
  unfold tier3_body.
  apply invariant_verify; [apply linsolve_valid | exact Hs2].
Qed.

Lemma invariant_start : search_invariant (Search ∅ false []).
Proof.
  unfold search_invariant. cbn [out]. split; [constructor|].
  split; [intros r [] | constructor].
Qed.

End SearchInvariant.

(** X4. The [-cb] search never prints a key twice, and every key it prints is
    a valid affine key: [alpha] in [(0, 26)] coprime with 26 and [beta] in
    [[0, 26)]. *)
Theorem Crack_Best_prints_distinct_valid_keys
    (decrypt : Z -> Z -> list ascii -> list ascii)
    (ciph : list ascii) (known : list (ascii * ascii)) (freqs : list (ascii * Z)) :
  NoDup (map Terms.key_of (Affine.Crack_Best decrypt ciph known freqs))
  /\ Forall (fun r => Terms.valid_key (Terms.key_of r))
            (Affine.Crack_Best decrypt ciph known freqs).
Proof.
  pose proof (invariant_tier1 decrypt ciph known _ invariant_start) as H1.
  pose proof (invariant_tier2 decrypt ciph known freqs _ H1) as H2.
  pose proof (invariant_tier3 decrypt ciph known freqs _ H2) as H3.
  unfold Affine.Crack_Best. cbv zeta.
  destruct (Affine.done (Affine.tier1 decrypt ciph known _));
    [destruct H1 as (Hn & _ & Hv); now split|].
  destruct (Affine.done (Affine.tier2 decrypt ciph known freqs _));
    [destruct H2 as (Hn & _ & Hv); now split|].
  destruct H3 as (Hn & _ & Hv). now split.
Qed.

(** ** The exhaustive search without hints, and the range of the score *)

Lemma score_range (msg ciph : list ascii) (known : list (ascii * ascii)) :
  In (Affine.checkSoln_loop msg ciph known 0) [-1; 0; 1; 2].
Proof.
  rewrite checkSoln_loop_score.
  destruct (List.filter (Spec.occurs msg) known) as [|p [|q rest]]; simpl;
    repeat match goal with
           | |- context [if ?c then _ else _] => destruct c
           end; tauto.
Qed.

(** X5. The MatchScore [checkSoln] returns is always one of -1, 0, 1 and 2,
    and it is 0 when there are no known pairs. *)
Theorem checkSoln_score_range
    (decrypt : Z -> Z -> list ascii -> list ascii) (a b : Z)
    (ciph : list ascii) (known : list (ascii * ascii)) :
  In (fst (Affine.checkSoln decrypt a b ciph known)) [-1; 0; 1; 2]
  /\ fst (Affine.checkSoln decrypt a b ciph []) = 0.
Proof. split; [apply score_range | reflexivity]. Qed.

Lemma take_through_all {X : Type} (p : X -> bool) (l : list X) :
  (forall x, In x l -> p x = false) -> Spec.take_through p l = l.
Proof.
  induction l as [|x rest IH]; intros H; simpl; [reflexivity|].
  rewrite (H x (or_introl eq_refl)). f_equal. apply IH.
  intros y Hy. apply H. now right.
Qed.

(** X6. Without hints the exhaustive search [-ca] never stops early and
    rejects nothing: it prints the decryption under each of the 312 keys, in
    the order of the keys. *)
Theorem Crack_All_without_hints
    (decrypt : Z -> Z -> list ascii -> list ascii) (ciph : list ascii) :
  Affine.Crack_All decrypt ciph [] = map (Spec.row_of decrypt ciph) Spec.candidates
  /\ length (Affine.Crack_All decrypt ciph []) = 312%nat.
Proof.
  assert (H : Affine.Crack_All decrypt ciph [] =
              map (Spec.row_of decrypt ciph) Spec.candidates).
  { rewrite Crack_All_flat. unfold Spec.evaluated.
    rewrite take_through_all by reflexivity.
    now rewrite forallb_filter_id by (apply forallb_forall; reflexivity). }
  split; [exact H|]. rewrite H, length_map. vm_compute. reflexivity.
Qed.

(** * Further properties of the Vigenere tool *)

(** ** The sample *)

Lemma read_sample_prefix (lines : list (list ascii)) (acc : list ascii) :
  exists n, (n <= length lines)%nat
    /\ Vigenere.read_sample lines acc =
       acc ++ concat (map Vigenere.letters_of (firstn n lines))
    /\ (n = length lines
        \/ 2000 <= Z.of_nat (length (Vigenere.read_sample lines acc)))
    /\ (forall m, (m < n)%nat ->
          Z.of_nat (length (acc ++ concat (map Vigenere.letters_of (firstn m lines))))
          < 2000).
Proof.
  revert acc. induction lines as [|line rest IH]; intros acc.
  - exists 0%nat. cbn. rewrite app_nil_r.
    split; [lia|]. split; [reflexivity|]. split; [now left | intros; lia].
  - cbn [Vigenere.read_sample].
    destruct (Z.of_nat (length acc) <? 2000) eqn:Hlt.
    + apply Z.ltb_lt in Hlt.
      destruct (IH (acc ++ Vigenere.letters_of line)) as (n & Hn & Heq & Hend & Hbelow).
      exists (S n). cbn [length firstn map concat].
      split; [lia|]. split; [now rewrite Heq, <- app_assoc|].
      split; [destruct Hend as [-> | Hend]; [now left | now right]|].
      intros [|m] Hm.
      * cbn. now rewrite app_nil_r.
      * cbn [firstn map concat]. rewrite app_assoc. apply Hbelow. lia.
    + apply Z.ltb_ge in Hlt. exists 0%nat. cbn. rewrite app_nil_r.
      split; [lia|]. split; [reflexivity|]. split; [now right | intros; lia].
Qed.

(** X7. The sample is made of whole lines: it is the letters, lower-cased, of
    the first [n] lines of the input, where either all lines were read or
    the sample has reached 2000 symbols, and before each line was read the
    sample was still shorter than 2000.  So the sample exceeds 1999 symbols by
    less than the letters of the last line read.  It holds nothing but the
    letters [a] to [z]. *)
Theorem read_sample_takes_whole_lines (lines : list (list ascii)) :
  (exists n, (n <= length lines)%nat
     /\ Vigenere.read_sample lines [] =
        concat (map Vigenere.letters_of (firstn n lines))
     /\ (n = length lines
         \/ 2000 <= Z.of_nat (length (Vigenere.read_sample lines [])))
     /\ (forall m, (m < n)%nat ->
           Z.of_nat (length (concat (map Vigenere.letters_of (firstn m lines))))
           < 2000))
  /\ Forall (fun c => In c Vigenere.ALPHABET) (Vigenere.read_sample lines []).
Proof.
  split; [exact (read_sample_prefix lines [])|].
  eapply List.Forall_impl; [|apply (read_sample_letters lines []); constructor].
  intros c. apply in_alphabet_In.
Qed.

(** ** The lengths that are kept *)





(** ** Columns *)

(** X9. For a length of at least 1, with the size of the sample and the
    length together within [INT_MAX + 1] (so that the [int] index never
    overflows), the column that starts at [start] holds the symbols of the
    sample at [start], [start + len], [start + 2 len], ... as far as the
    sample goes, and nothing else; and every symbol of the sample is found in
    the column of its position modulo [len].  When the column is not empty
    and [start + len] is above [INT_MAX], the first increment of the index
    overflows. *)
Theorem column_takes_every_len_th (ciph : list ascii) (len : nat) :
  (1 <= len)%nat ->
  Z.of_nat (length ciph) + Z.of_nat len <= INT_MAX + 1 ->
  (forall start,
      exists col,
        Vigenere.column ciph start len = Vigenere.Ok col
        /\ forall k,
             nth_error col k =
             if (start + k * len <? length ciph)%nat
             then nth_error ciph (start + k * len) else None)
  /\ (forall i, (i < length ciph)%nat ->
        exists col,
          Vigenere.column ciph (i mod len) len = Vigenere.Ok col
          /\ nth_error col (i / len) = nth_error ciph i)
  /\ (forall start len',
        (start < length ciph)%nat -> INT_MAX < Z.of_nat start + Z.of_nat len' ->
        Vigenere.column ciph start len' = Vigenere.Undefined Vigenere.SignedOverflow).
Proof.
  intros Hlen Hb. split; [|split].
  - intros start. destruct (column_ok ciph start len Hb) as (col & Hcol).
    exists col. split; [exact Hcol|].
    intro k. now apply (column_nth ciph start len col k Hlen).
  - intros i Hi. destruct (column_ok ciph (i mod len) len Hb) as (col & Hcol).
    exists col. split; [exact Hcol|].
    rewrite (column_nth ciph (i mod len) len col (i / len) Hlen Hcol).
    assert (Hdiv : (i mod len + i / len * len = i)%nat).
    { pose proof (Nat.div_mod_eq i len). lia. }
    rewrite Hdiv. now rewrite (proj2 (Nat.ltb_lt _ _) Hi).
  - intros start len' Hs Ho. now apply column_overflow.
Qed.

Lemma column_takes_every_len_th_witness :
  (forall start,
      exists col,
        Vigenere.column (Examples.text "abcdefg") start 3 = Vigenere.Ok col
        /\ forall k,
             nth_error col k =
             if (start + k * 3 <? length (Examples.text "abcdefg"))%nat
             then nth_error (Examples.text "abcdefg") (start + k * 3) else None)
  /\ (forall i, (i < length (Examples.text "abcdefg"))%nat ->
        exists col,
          Vigenere.column (Examples.text "abcdefg") (i mod 3) 3 = Vigenere.Ok col
          /\ nth_error col (i / 3) = nth_error (Examples.text "abcdefg") i)
  /\ (forall start len',
        (start < length (Examples.text "abcdefg"))%nat ->
        INT_MAX < Z.of_nat start + Z.of_nat len' ->
        Vigenere.column (Examples.text "abcdefg") start len'
        = Vigenere.Undefined Vigenere.SignedOverflow).
Proof.
  apply (column_takes_every_len_th (Examples.text "abcdefg") 3).
  - lia.
  - vm_compute. discriminate.
Defined.

(** ** The recovered key *)

Section KeyShape.

Import Vigenere.

Variable A : arith.
Variable sort : list (ascii * Z) -> list (ascii * Z).

Lemma shift_fold_in (W : list (num A)) (l : list nat) (b : best A) (s : nat) :
  maxShift A (fold_left (shift_step A W) l b) = Some s ->
  maxShift A b = Some s \/ In s l.
Proof.
  revert b. induction l as [|i rest IH]; intros b H; [now left|].
  cbn [fold_left] in H. apply IH in H as [H | H]; [|right; now right].
  unfold shift_step in H.
  destruct (num_gt A (dot A W i) (maxDot A b)); [|now left].
  cbn [maxShift] in H. injection H as <-. right. now left.
Qed.

Lemma best_shift_below_26 (W : list (num A)) (s : nat) :
  best_shift A W = Some s -> (s < 26)%nat.
Proof.
  unfold best_shift. intros H.
  apply shift_fold_in in H as [H | H]; [discriminate H|].
  apply in_seq in H. lia.
Qed.

Lemma key_symbol_letter (W : list (num A)) (c : ascii) :
  key_symbol A W = Ok c -> In c ALPHABET.
Proof.
  unfold key_symbol. destruct (best_shift A W) as [s|] eqn:Hs; [|discriminate].
  intros [= <-]. apply best_shift_below_26 in Hs.
  unfold char_at. apply nth_In. exact Hs.
Qed.

Lemma column_symbol_letter (ciph : list ascii) (len start : nat) (c : ascii) :
  column_symbol A sort ciph len start = Ok c -> In c ALPHABET.
Proof.
  unfold column_symbol.
  destruct (column ciph start len) as [ciph_|f]; [|discriminate].
  cbn [mbind result_bind]. cbv zeta.
  destruct (percentages A _ _) as [W|f]; [|discriminate].
  apply key_symbol_letter.
Qed.

Lemma recover_from_shape (ciph : list ascii) (len : nat) (starts : list nat)
    (key result : list ascii) :
  recover_from A sort ciph len starts key = Ok result ->
  length result = (length key + length starts)%nat
  /\ (Forall (fun c => In c ALPHABET) key -> Forall (fun c => In c ALPHABET) result).
Proof.
  revert key. induction starts as [|start rest IH]; intros key H.
  - cbn in H. injection H as <-. cbn. split; [lia | trivial].
  - cbn [recover_from] in H.
    destruct (column_symbol A sort ciph len start) as [c|f] eqn:Hc; [|discriminate H].
    apply IH in H as [Hlen Hall]. rewrite length_app in Hlen. cbn in Hlen |- *.
    split; [lia|]. intros Hkey. apply Hall.
    apply List.Forall_app. split; [exact Hkey|].
    constructor; [|constructor]. now apply column_symbol_letter in Hc.
Qed.

End KeyShape.

(** X10. A key that is recovered without fault for the length [len] has
    exactly [len] symbols, each a letter [a] to [z]. *)
Theorem recover_key_shape (A : Vigenere.arith)
    (sort : list (ascii * Z) -> list (ascii * Z))
    (ciph : list ascii) (len : nat) (key : list ascii) :
  Vigenere.recover_key A sort ciph len = Vigenere.Ok key ->
  length key = len /\ Forall (fun c => In c Vigenere.ALPHABET) key.
Proof.
  unfold Vigenere.recover_key. intros H.
  apply recover_from_shape in H as [Hlen Hall].
  rewrite length_seq in Hlen. split; [exact Hlen | apply Hall; constructor].
Qed.

(** The text [abcdefghijklmnopqrstuvwxyze], the length 1, exact rationals and
    the stable sort: the key is [a]. *)
Lemma recover_key_shape_witness :
  length [ "a"%char ] = 1%nat /\ Forall (fun c => In c Vigenere.ALPHABET) [ "a"%char ].
Proof.
  apply (recover_key_shape Vigenere.Q_arith Vigenere.sort_desc
           (Examples.text "abcdefghijklmnopqrstuvwxyze") 1).
  vm_compute. reflexivity.
Defined.

(** ** The percentages of a complete column *)

Lemma NoDup_map_on {X Y : Type} (f : X -> Y) (l : list X) :
  (forall x y, In x l -> In y l -> f x = f y -> x = y) ->
  List.NoDup l -> List.NoDup (map f l).
Proof.
  intros Hinj Hl. induction Hl as [|x l Hx Hl IH]; cbn [map]; constructor.
  - intros Hin. apply in_map_iff in Hin as (y & Hy & Hin).
    assert (y = x) by (apply Hinj; [now right | now left | exact Hy]).
    subst y. now apply Hx.
  - apply IH. intros a b Ha Hb. apply Hinj; now right.
Qed.

Section Percentages.

Import Vigenere Spec Terms.

Variable A : arith.
Variable size : Z.
Hypothesis size_not_zero : size <> 0.

(** With a size other than 0 and entries of letters only, the loop writes
    each entry in turn. *)
Lemma percentages_loop_writes (top : list (ascii * Z)) (W : list (num A)) :
  Forall (fun e => in_bounds (fst e)) top ->
  percentages_loop A top size W = Ok (fold_left (write_slot A size) top W).
Proof.
  revert W. induction top as [|e rest IH]; intros W Hb; [reflexivity|].
  inversion Hb as [|? ? He Hrest]; subst.
  cbn [percentages_loop fold_left].
  apply Z.eqb_neq in size_not_zero. rewrite size_not_zero.
  unfold in_bounds in He.
  rewrite (proj2 (Z.leb_le _ _)) by lia. rewrite (proj2 (Z.ltb_lt _ _)) by lia.
  cbn [andb]. now apply IH.
Qed.

Lemma writes_length (top : list (ascii * Z)) (W : list (num A)) :
  length (fold_left (write_slot A size) top W) = length W.
Proof.
  revert W. induction top as [|e rest IH]; intros W; [reflexivity|].
  cbn [fold_left]. rewrite IH. unfold write_slot. apply length_insert.
Qed.

Lemma writes_elsewhere (top : list (ascii * Z)) (W : list (num A)) (j : nat) :
  (forall e, In e top -> slot e <> j) ->
  fold_left (write_slot A size) top W !! j = W !! j.
Proof.
  revert W. induction top as [|e rest IH]; intros W H; [reflexivity|].
  cbn [fold_left]. rewrite IH by (intros e' He'; apply H; now right).
  unfold write_slot. apply list_lookup_insert_ne. apply H. now left.
Qed.

(** Where no two entries share a position, the value at the position of an
    entry is the percentage of that entry. *)
Lemma writes_at (top : list (ascii * Z)) (W : list (num A)) (e : ascii * Z) :
  List.NoDup (map slot top) -> In e top -> (slot e < length W)%nat ->
  fold_left (write_slot A size) top W !! slot e = Some (num_ratio A (snd e) size).
Proof.
  revert W. induction top as [|x rest IH]; intros W Hnd Hin Hlt; [destruct Hin|].
  cbn [map] in Hnd. inversion Hnd as [|? ? Hx Hrest]; subst.
  cbn [fold_left]. destruct Hin as [-> | Hin].
  - rewrite writes_elsewhere.
    + unfold write_slot. now apply list_lookup_insert_eq.
    + intros e' He' Heq. apply Hx. rewrite <- Heq. now apply in_map.
  - apply IH; [exact Hrest | exact Hin|].
    unfold write_slot. now rewrite length_insert.
Qed.

End Percentages.

Section Complete.

Import Vigenere Spec Terms.

Variable col : list ascii.
Hypothesis col_letters : Forall (fun c => in_alphabet c = true) col.
Hypothesis col_complete : forall c, In c ALPHABET -> In c col.

Variable sorted : list (ascii * Z).
Hypothesis sorted_ok : sorted_by_count (counted col) sorted.

Lemma letter_codes (i : nat) :
  (i < 255)%nat -> in_alphabet (ascii_of_nat i) = true -> (97 <= i < 123)%nat.
Proof.
  intros Hi Hc.
  assert (Hall : forallb
            (fun i => negb (in_alphabet (ascii_of_nat i))
                      || ((97 <=? i)%nat && (i <? 123)%nat))
            (seq 0 255) = true) by (vm_compute; reflexivity).
  rewrite forallb_forall in Hall.
  specialize (Hall i ltac:(apply in_seq; lia)). rewrite Hc in Hall.
  cbn [negb orb] in Hall. apply andb_prop in Hall as [H1 H2].
  apply Nat.leb_le in H1. apply Nat.ltb_lt in H2. lia.
Qed.

Lemma letter_slot (i : nat) (n : Z) :
  (97 <= i < 123)%nat -> slot (ascii_of_nat i, n) = (i - 97)%nat.
Proof.
  intros Hi.
  assert (Hall : forallb
            (fun j => (slot (ascii_of_nat (97 + j), 0%Z) =? j)%nat) (seq 0 26) = true)
    by (vm_compute; reflexivity).
  rewrite forallb_forall in Hall.
  specialize (Hall (i - 97)%nat ltac:(apply in_seq; lia)).
  apply Nat.eqb_eq in Hall.
  replace (97 + (i - 97))%nat with i in Hall by lia. exact Hall.
Qed.

Lemma counted_NoDup : List.NoDup (counted col).
Proof.
  apply (NoDup_map_inv fst). unfold counted. rewrite map_map. cbn [fst].
  apply NoDup_ListNoDup.
  apply (bool_decide_unpack _). vm_compute. reflexivity.
Qed.

Lemma top_length : length (firstn 26 sorted) = 26%nat.
Proof.
  apply firstn_length_le.
  rewrite <- (Permutation_length (proj1 sorted_ok)).
  unfold counted. rewrite length_map, length_seq. lia.
Qed.

Lemma top_NoDup : List.NoDup (firstn 26 sorted).
Proof.
  apply (NoDup_app_remove_r _ (skipn 26 sorted)). rewrite firstn_skipn.
  eapply Permutation_NoDup; [exact (proj1 sorted_ok) | exact counted_NoDup].
Qed.

(** The entries written are entries of letters. *)
Lemma top_letters (e : ascii * Z) :
  In e (firstn 26 sorted) -> In e (letter_entries col).
Proof.
  intros He.
  assert (Htop : Forall (fun e => positive e = true) (firstn 26 sorted)).
  { apply top_positive; [exact (proj2 sorted_ok)|].
    rewrite <- (Permutation_length (filter_Permutation positive _ _ (proj1 sorted_ok))).
    now rewrite (positive_when_complete col col_letters col_complete). }
  rewrite List.Forall_forall in Htop. pose proof (Htop e He) as Hp.
  assert (Hin : In e sorted).
  { rewrite <- (firstn_skipn 26 sorted). apply in_or_app. now left. }
  apply (Permutation_in _ (Permutation_sym (proj1 sorted_ok))) in Hin.
  apply counted_entry in Hin as (i & Hi & ->).
  unfold positive in Hp. cbn [snd] in Hp. apply Z.ltb_lt in Hp.
  destruct (positive_entry col col_letters i Hi Hp) as [_ Hl].
  apply letter_codes in Hl; [|exact Hi].
  unfold letter_entries. apply in_map_iff. exists i. split; [reflexivity|].
  apply in_seq. lia.
Qed.

(** And every entry of a letter is written. *)
Lemma letters_top (e : ascii * Z) :
  In e (letter_entries col) -> In e (firstn 26 sorted).
Proof.
  apply (NoDup_length_incl top_NoDup).
  - rewrite top_length. unfold letter_entries. rewrite length_map, length_seq. lia.
  - intros x. apply top_letters.
Qed.

Lemma top_slots_NoDup : List.NoDup (map slot (firstn 26 sorted)).
Proof.
  apply NoDup_map_on; [|exact top_NoDup].
  intros x y Hx Hy Hs.
  apply top_letters in Hx, Hy. unfold letter_entries in Hx, Hy.
  apply in_map_iff in Hx as (i & <- & Hi). apply in_map_iff in Hy as (j & <- & Hj).
  apply in_seq in Hi, Hj.
  rewrite !letter_slot in Hs by lia.
  assert (i = j) by lia. now subst.
Qed.

Lemma top_in_bounds : Forall (fun e => in_bounds (fst e)) (firstn 26 sorted).
Proof. now apply (complete_in_bounds col col_letters). Qed.

Lemma col_not_empty : Z.of_nat (length col) <> 0.
Proof.
  assert (Hin : In "a"%char col) by (apply col_complete; now left).
  destruct col; [destruct Hin | cbn; lia].
Qed.

Lemma percentages_complete (A : arith) :
  percentages A sorted (Z.of_nat (length col)) = Ok (letter_percentages A col).
Proof.
  unfold percentages.
  rewrite (percentages_loop_writes A _ col_not_empty) by exact top_in_bounds.
  f_equal. apply list_eq. intros j.
  destruct (Nat.lt_ge_cases j 26) as [Hj | Hj].
  - set (e := (ascii_of_nat (97 + j), occurrences col (97 + j))).
    assert (He : In e (firstn 26 sorted)).
    { apply letters_top. unfold letter_entries. apply in_map_iff.
      exists (97 + j)%nat. split; [reflexivity | apply in_seq; lia]. }
    assert (Hs : slot e = j).
    { unfold e. rewrite letter_slot by lia. lia. }
    rewrite <- Hs at 1.
    rewrite (writes_at A _ _ _ e top_slots_NoDup He)
      by (rewrite repeat_length, Hs; exact Hj).
    unfold letter_percentages.
    change (map ?f ?l) with (f <$> l).
    rewrite list_lookup_fmap, lookup_seq_lt by exact Hj. reflexivity.
  - rewrite !lookup_ge_None_2; [reflexivity | |].
    + unfold letter_percentages. now rewrite length_map, length_seq.
    + now rewrite writes_length, repeat_length.
Qed.

End Complete.

(** X11. When every letter occurs in a column (of letters), the percentages
    do not depend on how the sort orders equal counts: for every outcome of
    the sort the vector [W] is computed without fault and holds, for each
    letter, its count in the column divided by the size of the column. *)
Theorem percentages_do_not_depend_on_ties (A : Vigenere.arith)
    (col : list ascii) (sorted : list (ascii * Z)) :
  Forall (fun c => Vigenere.in_alphabet c = true) col ->
  (forall c, In c Vigenere.ALPHABET -> In c col) ->
  Vigenere.sorted_by_count
    (Vigenere.countFrequencies col Vigenere.init_table Vigenere.inc) sorted ->
  Vigenere.percentages A sorted (Z.of_nat (length col))
  = Vigenere.Ok (Terms.letter_percentages A col).
Proof.
  intros Hletters Hcomplete Hsorted. rewrite countFrequencies_counted in Hsorted.
  now apply percentages_complete.
Qed.

(** The column [abcdefghijklmnopqrstuvwxyze], exact rationals, the stable
    sort. *)
Lemma percentages_do_not_depend_on_ties_witness :
  Vigenere.percentages Vigenere.Q_arith
    (Vigenere.sort_desc
       (Vigenere.countFrequencies (Examples.text "abcdefghijklmnopqrstuvwxyze")
          Vigenere.init_table Vigenere.inc))
    (Z.of_nat (length (Examples.text "abcdefghijklmnopqrstuvwxyze")))
  = Vigenere.Ok (Terms.letter_percentages Vigenere.Q_arith
                   (Examples.text "abcdefghijklmnopqrstuvwxyze")).
Proof.
  apply (percentages_do_not_depend_on_ties Vigenere.Q_arith
           (Examples.text "abcdefghijklmnopqrstuvwxyze")).
  - apply List.Forall_forall, forallb_forall. reflexivity.
  - intros c Hc.
    change (In c (Vigenere.ALPHABET ++ ["e"%char])). apply in_or_app. now left.
  - apply sort_desc_sorted.
Defined.

(** ** The writes of the percentages *)

(** With a size other than 0 the loop writes the entries of letters and
    stops at the first entry of another symbol. *)
Lemma percentages_loop_stops (A : Vigenere.arith) (size : Z)
    (top rest : list (ascii * Z)) (e : ascii * Z) (W : list (Vigenere.num A)) :
  size <> 0 ->
  Forall (fun x => Spec.in_bounds (fst x)) top ->
  ~ Spec.in_bounds (fst e) ->
  Vigenere.percentages_loop A (top ++ e :: rest) size W
  = Vigenere.Undefined (Vigenere.IndexOutOfBounds (Vigenere.write_index (fst e))).
Proof.
  intros Hsize Htop He. apply Z.eqb_neq in Hsize. revert W.
  induction Htop as [|x top Hx _ IH]; intro W.
  - cbn [app Vigenere.percentages_loop]. rewrite Hsize.
    unfold Spec.in_bounds in He.
    destruct ((0 <=? Vigenere.write_index (fst e))
              && (Vigenere.write_index (fst e) <? 26)) eqn:Hb; [|reflexivity].
    apply andb_true_iff in Hb as [H1 H2].
    apply Z.leb_le in H1. apply Z.ltb_lt in H2. lia.
  - cbn [app Vigenere.percentages_loop]. rewrite Hsize.
    unfold Spec.in_bounds in Hx.
    rewrite (proj2 (Z.leb_le _ _)) by lia. rewrite (proj2 (Z.ltb_lt _ _)) by lia.
    cbn [andb]. apply IH.
Qed.

Lemma percentages_loop_of_nothing (A : Vigenere.arith)
    (top : list (ascii * Z)) (W : list (Vigenere.num A)) :
  top <> [] ->
  Vigenere.percentages_loop A top 0 W = Vigenere.Undefined Vigenere.DivisionByZero.
Proof. destruct top; [congruence | reflexivity]. Qed.

(** A letter is missing from a column of letters: an outcome of the sort for
    which the loop of the percentages does not end well. *)
Lemma incomplete_faults (A : Vigenere.arith) (col : list ascii) (c0 : ascii) :
  Forall (fun c => Vigenere.in_alphabet c = true) col ->
  In c0 Vigenere.ALPHABET -> ~ In c0 col ->
  exists sorted e,
    Vigenere.sorted_by_count (Spec.counted col) sorted
    /\ In e (firstn 26 sorted)
    /\ snd e = 0 /\ Vigenere.in_alphabet (fst e) = false
    /\ ~ Spec.in_bounds (fst e)
    /\ (col <> [] ->
        Vigenere.percentages A sorted (Z.of_nat (length col))
        = Vigenere.Undefined
            (Vigenere.IndexOutOfBounds (Vigenere.write_index (fst e))))
    /\ (col = [] ->
        Vigenere.percentages A sorted (Z.of_nat (length col))
        = Vigenere.Undefined Vigenere.DivisionByZero).
Proof.
  intros Hletters Hc0 Hmiss.
  destruct (incomplete_out_of_bounds col Hletters c0 Hc0 Hmiss)
    as (sorted & e & Hs & He & H0 & Hna & Hout & top & rest & Htop & Hin).
  exists sorted, e.
  split; [exact Hs|]. split; [exact He|]. split; [exact H0|].
  split; [exact Hna|]. split; [exact Hout|].
  unfold Vigenere.percentages. rewrite Htop. split.
  - intro Hne. apply percentages_loop_stops; [|exact Hin | exact Hout].
    destruct col; [congruence | cbn [length]; lia].
  - intros ->. cbn [length Z.of_nat].
    apply percentages_loop_of_nothing. now destruct top.
Qed.

(** C10. The 26 highest-ranked entries of the sorted table are written at
    the index [freqs[i].first - 'a'].  When all 26 letters occur in the
    column, these indices lie in [[0, 26)] whatever order the sort gives to
    equal counts, and the loop that writes [W] ends well.  When some letter
    does not occur, the sort may rank an entry with count 0 of a symbol that
    is no letter (the character 0) among the first 26, and the index written
    for it lies outside [[0, 26)]: for that outcome the loop writes outside
    [W] (for an empty column it divides by zero before).  So the writes are
    in bounds for every outcome of the sort only if all 26 letters occur. *)
Theorem write_index_in_bounds_iff_all_letters
    (A : Vigenere.arith) (lines : list (list ascii)) (start len : nat)
    (col : list ascii) :
  Vigenere.column (Vigenere.read_sample lines []) start len = Vigenere.Ok col ->
  ((forall c, In c Vigenere.ALPHABET -> In c col) ->
     forall sorted,
       Vigenere.sorted_by_count
         (Vigenere.countFrequencies col Vigenere.init_table Vigenere.inc) sorted ->
       Forall (fun e => Spec.in_bounds (fst e)) (firstn 26 sorted)
       /\ exists W, Vigenere.percentages A sorted (Z.of_nat (length col))
                    = Vigenere.Ok W)
  /\ (forall c, In c Vigenere.ALPHABET -> ~ In c col ->
        exists sorted e,
          Vigenere.sorted_by_count
            (Vigenere.countFrequencies col Vigenere.init_table Vigenere.inc) sorted
          /\ In e (firstn 26 sorted)
          /\ snd e = 0 /\ Vigenere.in_alphabet (fst e) = false
          /\ ~ Spec.in_bounds (fst e)
          /\ (col <> [] ->
              Vigenere.percentages A sorted (Z.of_nat (length col))
              = Vigenere.Undefined
                  (Vigenere.IndexOutOfBounds (Vigenere.write_index (fst e))))
          /\ (col = [] ->
              Vigenere.percentages A sorted (Z.of_nat (length col))
              = Vigenere.Undefined Vigenere.DivisionByZero))
  /\ ((forall sorted,
         Vigenere.sorted_by_count
           (Vigenere.countFrequencies col Vigenere.init_table Vigenere.inc) sorted ->
         Forall (fun e => Spec.in_bounds (fst e)) (firstn 26 sorted)) ->
      forall c, In c Vigenere.ALPHABET -> In c col)
  /\ ((forall sorted,
         Vigenere.sorted_by_count
           (Vigenere.countFrequencies col Vigenere.init_table Vigenere.inc) sorted ->
         exists W, Vigenere.percentages A sorted (Z.of_nat (length col))
                   = Vigenere.Ok W) ->
      forall c, In c Vigenere.ALPHABET -> In c col).
Proof.
  intro Hcol.
  pose proof (column_letters lines start len col Hcol) as Hletters.
  rewrite countFrequencies_counted.
  split; [|split; [|split]].
  - intros Hall sorted Hs. split.
    + now apply (complete_in_bounds col Hletters).
    + eexists. now apply (percentages_complete col Hletters Hall sorted Hs A).
  - intros c Hc Hmiss. now apply (incomplete_faults A col c).
  - intros Hin c Hc.
    destruct (in_dec ascii_dec c col) as [Hyes | Hno]; [exact Hyes|].
    exfalso.
    destruct (incomplete_faults A col c Hletters Hc Hno)
      as (sorted & e & Hs & He & _ & _ & Hout & _).
    specialize (Hin sorted Hs). rewrite List.Forall_forall in Hin.
    exact (Hout (Hin e He)).
  - intros Hok c Hc.
    destruct (in_dec ascii_dec c col) as [Hyes | Hno]; [exact Hyes|].
    exfalso.
    destruct (incomplete_faults A col c Hletters Hc Hno)
      as (sorted & e & Hs & _ & _ & _ & _ & Hne & Hnil).
    destruct (Hok sorted Hs) as (W & HW).
    destruct col as [|x col'].
    + rewrite Hnil in HW by reflexivity. discriminate HW.
    + rewrite Hne in HW by discriminate. discriminate HW.
Qed.

(** The column of the sample [abc] for the length 1, with exact rationals. *)
Lemma write_index_in_bounds_iff_all_letters_witness :
  ((forall c, In c Vigenere.ALPHABET -> In c (Examples.text "abc")) ->
     forall sorted,
       Vigenere.sorted_by_count
         (Vigenere.countFrequencies (Examples.text "abc")
            Vigenere.init_table Vigenere.inc) sorted ->
       Forall (fun e => Spec.in_bounds (fst e)) (firstn 26 sorted)
       /\ exists W, Vigenere.percentages Vigenere.Q_arith sorted
                      (Z.of_nat (length (Examples.text "abc")))
                    = Vigenere.Ok W)
  /\ (forall c, In c Vigenere.ALPHABET -> ~ In c (Examples.text "abc") ->
        exists sorted e,
          Vigenere.sorted_by_count
            (Vigenere.countFrequencies (Examples.text "abc")
               Vigenere.init_table Vigenere.inc) sorted
          /\ In e (firstn 26 sorted)
          /\ snd e = 0 /\ Vigenere.in_alphabet (fst e) = false
          /\ ~ Spec.in_bounds (fst e)
          /\ (Examples.text "abc" <> [] ->
              Vigenere.percentages Vigenere.Q_arith sorted
                (Z.of_nat (length (Examples.text "abc")))
              = Vigenere.Undefined
                  (Vigenere.IndexOutOfBounds (Vigenere.write_index (fst e))))
          /\ (Examples.text "abc" = [] ->
              Vigenere.percentages Vigenere.Q_arith sorted
                (Z.of_nat (length (Examples.text "abc")))
              = Vigenere.Undefined Vigenere.DivisionByZero))
  /\ ((forall sorted,
         Vigenere.sorted_by_count
           (Vigenere.countFrequencies (Examples.text "abc")
              Vigenere.init_table Vigenere.inc) sorted ->
         Forall (fun e => Spec.in_bounds (fst e)) (firstn 26 sorted)) ->
      forall c, In c Vigenere.ALPHABET -> In c (Examples.text "abc"))
  /\ ((forall sorted,
         Vigenere.sorted_by_count
           (Vigenere.countFrequencies (Examples.text "abc")
              Vigenere.init_table Vigenere.inc) sorted ->
         exists W, Vigenere.percentages Vigenere.Q_arith sorted
                     (Z.of_nat (length (Examples.text "abc")))
                   = Vigenere.Ok W) ->
      forall c, In c Vigenere.ALPHABET -> In c (Examples.text "abc")).
Proof.
  apply (write_index_in_bounds_iff_all_letters Vigenere.Q_arith
           [Examples.text "abc"] 0 1 (Examples.text "abc")).
  reflexivity.
Defined.

(** ** The hexadecimal text of the DES tools *)

Lemma ascii_all (P : ascii -> Prop) :
  (forall b0 b1 b2 b3 b4 b5 b6 b7 : bool, P (Ascii b0 b1 b2 b3 b4 b5 b6 b7)) ->
  forall c, P c.
Proof. intros H [b0 b1 b2 b3 b4 b5 b6 b7]. apply H. Qed.

Lemma hex_of_byte (c : ascii) :
  let hi := Hex.digit_char (Z.shiftr (code c) 4) in
  let lo := Hex.digit_char (Z.land (code c) 15) in
  Hex.is_hex hi = true /\ Hex.is_hex lo = true
  /\ tolower hi = hi /\ tolower lo = lo
  /\ Hex.char_of_int (Z.lor (Z.shiftl (Hex.digit_value hi) 4) (Hex.digit_value lo)) = c.
Proof.
  revert c. apply ascii_all.
  intros [] [] [] [] [] [] [] []; vm_compute; repeat split; reflexivity.
Qed.

Lemma is_hex_digits (c : ascii) : Hex.is_hex c = true -> In c Hex.digits.
Proof.
  unfold Hex.is_hex. destruct (index_of c Hex.digits) as [i|] eqn:Hi; [|discriminate].
  intros _. apply index_of_nth_error in Hi. eapply nth_error_In. exact Hi.
Qed.

Lemma byte_of_hex (h l : ascii) :
  Hex.is_hex h = true -> Hex.is_hex l = true ->
  Hex.hexFromChars
    [Hex.char_of_int (Z.lor (Z.shiftl (Hex.digit_value h) 4) (Hex.digit_value l))]
  = [h; l].
Proof.
  intros Hh Hl. apply is_hex_digits in Hh, Hl.
  vm_compute in Hh, Hl.
  repeat (destruct Hh as [<- | Hh]; [|]); try contradiction;
    repeat (destruct Hl as [<- | Hl]; [|]); try contradiction; reflexivity.
Qed.

Lemma pairs_ind {X : Type} (P : list X -> Prop) :
  P [] -> (forall x, P [x]) -> (forall x y l, P l -> P (x :: y :: l)) ->
  forall l, P l.
Proof.
  intros Hnil Hone Hstep.
  assert (H : forall l, P l /\ forall x, P (x :: l)).
  { induction l as [|y l [IH1 IH2]].
    - split; [exact Hnil | exact Hone].
    - split; [apply IH2 | intro x; apply Hstep, IH1]. }
  intro l. apply H.
Qed.

Lemma hexFromChars_cons (c : ascii) (s : list ascii) :
  Hex.hexFromChars (c :: s) =
  Hex.digit_char (Z.shiftr (code c) 4) :: Hex.digit_char (Z.land (code c) 15)
  :: Hex.hexFromChars s.
Proof. reflexivity. Qed.

Lemma hexFromChars_shape (s : list ascii) :
  map tolower (Hex.hexFromChars s) = Hex.hexFromChars s
  /\ forallb Hex.is_hex (Hex.hexFromChars s) = true
  /\ Nat.odd (length (Hex.hexFromChars s)) = false
  /\ Hex.bytes_of_pairs (Hex.hexFromChars s) = s.
Proof.
  induction s as [|c s (IH1 & IH2 & IH3 & IH4)]; [repeat split|].
  destruct (hex_of_byte c) as (H1 & H2 & H3 & H4 & H5).
  rewrite hexFromChars_cons.
  cbn [map forallb length Hex.bytes_of_pairs].
  cbv zeta in H1, H2, H3, H4, H5.
  rewrite H1, H2, H3, H4, H5, IH1, IH2, IH4.
  repeat split.
  rewrite Nat.odd_succ, Nat.even_succ. exact IH3.
Qed.

Lemma hex_of_pairs (l : list ascii) :
  forallb Hex.is_hex l = true -> Nat.odd (length l) = false ->
  Hex.hexFromChars (Hex.bytes_of_pairs l) = l
  /\ (2 * length (Hex.bytes_of_pairs l) = length l)%nat.
Proof.
  induction l as [| x | x y l IH] using pairs_ind.
  - intros _ _. split; reflexivity.
  - intros _ H. discriminate H.
  - cbn [forallb length Hex.bytes_of_pairs]. intros H Hodd.
    apply andb_true_iff in H as [Hx H]. apply andb_true_iff in H as [Hy H].
    rewrite Nat.odd_succ, Nat.even_succ in Hodd.
    destruct (IH H Hodd) as [IH1 IH2].
    split; [|lia].
    change (Hex.hexFromChars (?c :: ?s)) with (Hex.hexFromChars [c] ++ Hex.hexFromChars s).
    rewrite byte_of_hex, IH1 by assumption. reflexivity.
Qed.

(** X12. Writing bytes in hexadecimal and reading them back gives the bytes
    again, for every string of bytes. *)
Theorem charsFromHex_of_hexFromChars (s : list ascii) :
  Hex.charsFromHex (Hex.hexFromChars s) = Some s.
Proof.
  destruct (hexFromChars_shape s) as (H1 & H2 & H3 & H4).
  unfold Hex.charsFromHex. rewrite H1, H2, H3, H4. reflexivity.
Qed.

(** X13. When [charsFromHex] accepts a text, the bytes it returns, written
    back in hexadecimal, are the text in lower case, followed by one [0] when
    its length is odd; so there is one byte for every two digits, rounded
    up. *)
Theorem hexFromChars_of_charsFromHex (text bytes : list ascii) :
  Hex.charsFromHex text = Some bytes ->
  Hex.hexFromChars bytes =
    map tolower text ++ (if Nat.odd (length text) then ["0"%char] else [])
  /\ (2 * length bytes = length text + (if Nat.odd (length text) then 1 else 0))%nat.
Proof.
  unfold Hex.charsFromHex.
  destruct (forallb Hex.is_hex (map tolower text)) eqn:Hhex; [|discriminate].
  intros [= <-]. rewrite length_map.
  destruct (Nat.odd (length text)) eqn:Hodd.
  - destruct (hex_of_pairs (map tolower text ++ ["0"%char])) as [H1 H2].
    + rewrite forallb_app, Hhex. reflexivity.
    + rewrite length_app, length_map. cbn [length].
      rewrite Nat.add_1_r, Nat.odd_succ, <- Nat.negb_odd, Hodd. reflexivity.
    + split; [exact H1|]. rewrite H2, length_app, length_map. reflexivity.
  - rewrite app_nil_r.
    destruct (hex_of_pairs (map tolower text)) as [H1 H2].
    + exact Hhex.
    + rewrite length_map. exact Hodd.
    + split; [exact H1|]. rewrite H2, length_map. lia.
Qed.

Lemma hexFromChars_of_charsFromHex_witness :
  Hex.hexFromChars (list_ascii_of_string "JP")
  = map tolower (list_ascii_of_string "4A5")
    ++ (if Nat.odd (length (list_ascii_of_string "4A5")) then ["0"%char] else [])
  /\ (2 * length (list_ascii_of_string "JP")
      = length (list_ascii_of_string "4A5")
        + (if Nat.odd (length (list_ascii_of_string "4A5")) then 1 else 0))%nat.
Proof.
  apply (hexFromChars_of_charsFromHex (list_ascii_of_string "4A5")).
  reflexivity.
Defined.

(** ** The blocks of the simplified DES tool *)

Lemma lor_shifted (a b k : Z) :
  0 <= k -> 0 <= b < 2 ^ k -> Z.lor (Z.shiftl a k) b = a * 2 ^ k + b.
Proof.
  intros Hk Hb.
  assert (H0 : Z.land (Z.shiftl a k) b = 0).
  { apply Z.bits_inj'. intros n Hn.
    rewrite Z.land_spec, Z.bits_0.
    destruct (Z.lt_ge_cases n k) as [Hlt | Hge].
    - rewrite Z.shiftl_spec_low by exact Hlt. reflexivity.
    - rewrite <- (Z.mod_small b (2 ^ k)) by exact Hb.
      rewrite Z.mod_pow2_bits_high by lia. apply andb_false_r. }
  rewrite <- Z.lxor_lor by exact H0.
  rewrite <- Z.add_nocarry_lxor by exact H0.
  rewrite Z.shiftl_mul_pow2 by exact Hk. reflexivity.
Qed.

Lemma join_arith (x y : Z) :
  Des4Tool.join x y =
  ((x / 16) mod 256, (x mod 16) * 16 + (y / 256) mod 16, y mod 256).
Proof.
  unfold Des4Tool.join.
  rewrite !Z.shiftr_land.
  change (Z.shiftr 4080 4) with (Z.ones 8).
  change (Z.shiftr 3840 8) with (Z.ones 4).
  change 15 with (Z.ones 4). change 255 with (Z.ones 8).
  rewrite !Z.land_ones by lia.
  rewrite !Z.shiftr_div_pow2 by lia.
  change (2 ^ 8) with 256. change (2 ^ 4) with 16.
  rewrite lor_shifted by (try lia; apply Z.mod_pos_bound; lia).
  change (2 ^ 4) with 16.
  rewrite !Z.mod_mod by lia.
  f_equal. f_equal.
  apply Z.mod_small.
  pose proof (Z.mod_pos_bound x 16 ltac:(lia)).
  pose proof (Z.mod_pos_bound (y / 256) 16 ltac:(lia)). lia.
Qed.

Lemma split_arith (b0 b1 b2 : Z) :
  Terms.byte b0 -> Terms.byte b1 -> Terms.byte b2 ->
  Des4Tool.split b0 b1 b2 = (b0 * 16 + b1 / 16, b1 * 256 + b2).
Proof.
  unfold Terms.byte, Des4Tool.split. intros H0 H1 H2.
  rewrite Z.shiftr_div_pow2 by lia. change (2 ^ 4) with 16.
  assert (Hq : 0 <= b1 / 16 < 16).
  { split; [apply Z.div_pos; lia | apply Z.div_lt_upper_bound; lia]. }
  rewrite !lor_shifted by (change (2 ^ 4) with 16; change (2 ^ 8) with 256; lia).
  change (2 ^ 4) with 16. change (2 ^ 8) with 256.
  rewrite !Z.mod_small by lia. reflexivity.
Qed.

Lemma join_bytes (x y : Z) :
  let '(c0, c1, c2) := Des4Tool.join x y in
  Terms.byte c0 /\ Terms.byte c1 /\ Terms.byte c2.
Proof.
  rewrite join_arith. unfold Terms.byte.
  pose proof (Z.mod_pos_bound (x / 16) 256 ltac:(lia)).
  pose proof (Z.mod_pos_bound x 16 ltac:(lia)).
  pose proof (Z.mod_pos_bound (y / 256) 16 ltac:(lia)).
  pose proof (Z.mod_pos_bound y 256 ltac:(lia)).
  lia.
Qed.

Lemma join_low_bits (x y x' y' : Z) :
  x mod 4096 = x' mod 4096 -> y mod 4096 = y' mod 4096 ->
  Des4Tool.join x y = Des4Tool.join x' y'.
Proof.
  intros Hx Hy. rewrite !join_arith.
  assert (H1 : forall z,
             (z / 16) mod 256 = (z mod 4096) / 16
             /\ z mod 16 = (z mod 4096) mod 16
             /\ (z / 256) mod 16 = (z mod 4096) / 256
             /\ z mod 256 = (z mod 4096) mod 256).
  { intro z. Z.div_mod_to_equations. lia. }
  destruct (H1 x) as (-> & -> & _ & _). destruct (H1 y) as (_ & _ & -> & ->).
  destruct (H1 x') as (-> & -> & _ & _). destruct (H1 y') as (_ & _ & -> & ->).
  rewrite Hx, Hy. reflexivity.
Qed.

Lemma join_of_split (b0 b1 b2 : Z) :
  Terms.byte b0 -> Terms.byte b1 -> Terms.byte b2 ->
  forall x y,
    x mod 4096 = fst (Des4Tool.split b0 b1 b2) mod 4096 ->
    y mod 4096 = snd (Des4Tool.split b0 b1 b2) mod 4096 ->
    Des4Tool.join x y = (b0, b1, b2).
Proof.
  intros H0 H1 H2 x y Hx Hy.
  rewrite (join_low_bits x y _ _ Hx Hy).
  rewrite split_arith by assumption. cbn [fst snd].
  rewrite join_arith. unfold Terms.byte in *.
  f_equal; [f_equal|]; Z.div_mod_to_equations; lia.
Qed.

Lemma split_of_join (x y : Z) :
  let '(c0, c1, c2) := Des4Tool.join x y in
  Des4Tool.split c0 c1 c2 = (x mod 4096, (x mod 16) * 4096 + y mod 4096).
Proof.
  pose proof (join_bytes x y) as Hb.
  rewrite join_arith in *. destruct Hb as (H0 & H1 & H2).
  rewrite split_arith by assumption.
  f_equal; Z.div_mod_to_equations; lia.
Qed.

Lemma process_round_trip (enc dec : Z -> Z) (b0 b1 b2 : Z) :
  (forall x, dec (enc x) mod 4096 = x mod 4096) ->
  (forall x y, x mod 4096 = y mod 4096 -> dec x mod 4096 = dec y mod 4096) ->
  Terms.byte b0 -> Terms.byte b1 -> Terms.byte b2 ->
  let '(c0, c1, c2) := Des4Tool.process enc b0 b1 b2 in
  Des4Tool.process dec c0 c1 c2 = (b0, b1, b2).
Proof.
  intros Hinv Hlow H0 H1 H2. unfold Des4Tool.process at 1.
  set (e1 := enc (fst (Des4Tool.split b0 b1 b2))).
  set (e2 := enc (snd (Des4Tool.split b0 b1 b2))).
  pose proof (split_of_join e1 e2) as Hs.
  destruct (Des4Tool.join e1 e2) as [[c0 c1] c2].
  unfold Des4Tool.process. rewrite Hs. cbn [fst snd].
  apply join_of_split; try assumption.
  - rewrite (Hlow (e1 mod 4096) e1) by (apply Z.mod_mod; lia). apply Hinv.
  - rewrite (Hlow (e1 mod 16 * 4096 + e2 mod 4096) e2); [apply Hinv|].
    rewrite Z.add_comm, Z.mod_add by lia. apply Z.mod_mod. lia.
Qed.

Lemma triples_ind {X : Type} (P : list X -> Prop) :
  P [] -> (forall a, P [a]) -> (forall a b, P [a; b]) ->
  (forall a b c l, P l -> P (a :: b :: c :: l)) ->
  forall l, P l.
Proof.
  intros H0 H1 H2 H3.
  assert (H : forall l, P l /\ (forall a, P (a :: l)) /\ (forall a b, P (a :: b :: l))).
  { induction l as [|c l (IH0 & IH1 & IH2)].
    - repeat split; assumption.
    - split; [apply IH1|]. split; [intro a; apply IH2|].
      intros a b. apply H3, IH0. }
  intro l. apply H.
Qed.

Lemma xor_cipher_inverse (k x : Z) : Z.lxor (Z.lxor x k) k mod 4096 = x mod 4096.
Proof. rewrite Z.lxor_assoc, Z.lxor_nilpotent, Z.lxor_0_r. reflexivity. Qed.

Lemma xor_cipher_low_bits (k x y : Z) :
  x mod 4096 = y mod 4096 -> Z.lxor x k mod 4096 = Z.lxor y k mod 4096.
Proof.
  change 4096 with (2 ^ 12). rewrite <- !Z.land_ones by lia.
  generalize (Z.ones 12). intros m H.
  apply Z.bits_inj'. intros n _.
  assert (Hb : Z.testbit (Z.land x m) n = Z.testbit (Z.land y m) n)
    by (rewrite H; reflexivity).
  rewrite !Z.land_spec in Hb. rewrite !Z.land_spec, !Z.lxor_spec.
  destruct (Z.testbit x n), (Z.testbit y n), (Z.testbit k n), (Z.testbit m n);
    simpl in *; congruence.
Qed.

(** X14. The two blocks made from three bytes: the first lies below 2^12, but
    the second keeps all of the middle byte, so it is a 16-bit value whose
    four highest bits repeat the four lowest of the first block.  Put back
    together, the two blocks give the three bytes again, and only their
    twelve low bits count. *)
Theorem split_blocks (b0 b1 b2 : Z) :
  Terms.byte b0 -> Terms.byte b1 -> Terms.byte b2 ->
  0 <= fst (Des4Tool.split b0 b1 b2) < 4096
  /\ 0 <= snd (Des4Tool.split b0 b1 b2) < 65536
  /\ snd (Des4Tool.split b0 b1 b2) / 4096 = fst (Des4Tool.split b0 b1 b2) mod 16
  /\ (snd (Des4Tool.split b0 b1 b2) < 4096 <-> b1 < 16)
  /\ forall x y,
       x mod 4096 = fst (Des4Tool.split b0 b1 b2) ->
       y mod 4096 = snd (Des4Tool.split b0 b1 b2) mod 4096 ->
       Des4Tool.join x y = (b0, b1, b2).
Proof.
  intros H0 H1 H2.
  assert (Hj := join_of_split b0 b1 b2 H0 H1 H2).
  rewrite split_arith in * by assumption. cbn [fst snd] in *.
  unfold Terms.byte in *.
  assert (Hq : 0 <= b1 / 16 < 16).
  { split; [apply Z.div_pos; lia | apply Z.div_lt_upper_bound; lia]. }
  split; [lia|]. split; [lia|].
  split; [Z.div_mod_to_equations; lia|].
  split; [lia|].
  intros x y Hx Hy. apply Hj; [|exact Hy].
  rewrite Hx. symmetry. apply Z.mod_small. lia.
Qed.

Lemma split_blocks_witness :
  0 <= fst (Des4Tool.split 171 205 239) < 4096
  /\ 0 <= snd (Des4Tool.split 171 205 239) < 65536
  /\ snd (Des4Tool.split 171 205 239) / 4096 = fst (Des4Tool.split 171 205 239) mod 16
  /\ (snd (Des4Tool.split 171 205 239) < 4096 <-> 205 < 16)
  /\ forall x y,
       x mod 4096 = fst (Des4Tool.split 171 205 239) ->
       y mod 4096 = snd (Des4Tool.split 171 205 239) mod 4096 ->
       Des4Tool.join x y = (171, 205, 239).
Proof.
  apply (split_blocks 171 205 239); unfold Terms.byte; lia.
Defined.

(** X15. Decrypting what the tool encrypted gives the input back, followed
    by as many zero bytes as are needed to make its length a multiple of
    three, provided that the cipher works on the twelve low bits of a block:
    the twelve low bits of a decryption depend only on the twelve low bits of
    the block, and decrypting an encrypted block gives its twelve low bits
    back. *)
Theorem run_decrypt_encrypt (enc dec : Z -> Z) (input : list Z) :
  (forall x, dec (enc x) mod 4096 = x mod 4096) ->
  (forall x y, x mod 4096 = y mod 4096 -> dec x mod 4096 = dec y mod 4096) ->
  Forall Terms.byte input ->
  Des4Tool.run dec (Des4Tool.run enc input)
  = input ++ repeat 0 ((3 - length input mod 3) mod 3).
Proof.
  intros Hinv Hlow.
  assert (Hz : Terms.byte 0) by (unfold Terms.byte; lia).
  induction input as [| a | a b | a b c l IH] using triples_ind; intros Hb.
  - reflexivity.
  - apply List.Forall_cons_iff in Hb as [Ha _].
    pose proof (process_round_trip enc dec a 0 0 Hinv Hlow Ha Hz Hz) as H.
    cbn [Des4Tool.run]. destruct (Des4Tool.process enc a 0 0) as [[c0 c1] c2].
    cbn [Des4Tool.run]. rewrite H. reflexivity.
  - apply List.Forall_cons_iff in Hb as [Ha Hb].
    apply List.Forall_cons_iff in Hb as [Hb _].
    pose proof (process_round_trip enc dec a b 0 Hinv Hlow Ha Hb Hz) as H.
    cbn [Des4Tool.run]. destruct (Des4Tool.process enc a b 0) as [[c0 c1] c2].
    cbn [Des4Tool.run]. rewrite H. reflexivity.
  - apply List.Forall_cons_iff in Hb as [Ha Hb].
    apply List.Forall_cons_iff in Hb as [Hb Hc].
    apply List.Forall_cons_iff in Hc as [Hc Hl].
    pose proof (process_round_trip enc dec a b c Hinv Hlow Ha Hb Hc) as H.
    cbn [Des4Tool.run]. destruct (Des4Tool.process enc a b c) as [[c0 c1] c2].
    cbn [Des4Tool.run]. rewrite H, (IH Hl).
    replace (length (a :: b :: c :: l)) with (length l + 1 * 3)%nat
      by (cbn [length]; lia).
    rewrite Nat.Div0.mod_add. reflexivity.
Qed.

Lemma run_decrypt_encrypt_witness :
  Des4Tool.run (fun x => Z.lxor x 1365)
    (Des4Tool.run (fun x => Z.lxor x 1365) [72; 105; 33; 200])
  = [72; 105; 33; 200] ++ repeat 0 ((3 - length [72; 105; 33; 200] mod 3) mod 3).
Proof.
  apply (run_decrypt_encrypt (fun x => Z.lxor x 1365) (fun x => Z.lxor x 1365)).
  - intro x. apply xor_cipher_inverse.
  - intros x y. apply xor_cipher_low_bits.
  - repeat (apply List.Forall_cons; [unfold Terms.byte; lia|]). apply List.Forall_nil.
Defined.

(** X16. Whatever the cipher returns, the tool writes three bytes for every
    group of up to three bytes it reads: the output holds only bytes and its
    length is the length of the input rounded up to a multiple of three. *)
Theorem run_writes_whole_groups (op : Z -> Z) (input : list Z) :
  length (Des4Tool.run op input) = (3 * ((length input + 2) / 3))%nat
  /\ Forall Terms.byte (Des4Tool.run op input).
Proof.
  induction input as [| a | a b | a b c l [IH1 IH2]] using triples_ind.
  - split; [reflexivity | constructor].
  - cbn [Des4Tool.run]. unfold Des4Tool.process.
    pose proof (join_bytes (op (fst (Des4Tool.split a 0 0)))
                           (op (snd (Des4Tool.split a 0 0)))) as H.
    destruct (Des4Tool.join _ _) as [[c0 c1] c2]. destruct H as (H0 & H1 & H2).
    split; [reflexivity|].
    repeat (apply List.Forall_cons; [assumption|]). apply List.Forall_nil.
  - cbn [Des4Tool.run]. unfold Des4Tool.process.
    pose proof (join_bytes (op (fst (Des4Tool.split a b 0)))
                           (op (snd (Des4Tool.split a b 0)))) as H.
    destruct (Des4Tool.join _ _) as [[c0 c1] c2]. destruct H as (H0 & H1 & H2).
    split; [reflexivity|].
    repeat (apply List.Forall_cons; [assumption|]). apply List.Forall_nil.
  - cbn [Des4Tool.run]. unfold Des4Tool.process.
    pose proof (join_bytes (op (fst (Des4Tool.split a b c)))
                           (op (snd (Des4Tool.split a b c)))) as H.
    destruct (Des4Tool.join _ _) as [[c0 c1] c2]. destruct H as (H0 & H1 & H2).
    split; [|repeat (apply List.Forall_cons; [assumption|]); exact IH2].
    cbn [length]. rewrite IH1.
    replace (S (S (S (length l))) + 2)%nat with (length l + 2 + 1 * 3)%nat by lia.
    rewrite Nat.div_add by lia. lia.
Qed.

Lemma key_digit (c : ascii) :
  Ascii.eqb c "0" || Ascii.eqb c "1" = true -> c = "0"%char \/ c = "1"%char.
Proof.
  intro H. apply orb_true_iff in H as [H | H]; apply Ascii.eqb_eq in H; auto.
Qed.

(** X17. A key the tool accepts, nine characters [0] or [1], is read as a
    binary number with the first character as the highest bit: the value
    lies below 2^9 and its nine binary digits are the key. *)
Theorem key_val_binary (key : list ascii) :
  Des4Tool.key_ok key = true ->
  0 <= Des4Tool.key_val key < 512 /\ Terms.key_text (Des4Tool.key_val key) = key.
Proof.
  unfold Des4Tool.key_ok. intro H. apply andb_true_iff in H as [Hc Hl].
  apply Nat.eqb_eq in Hl.
  do 9 (destruct key as [|? key]; [discriminate Hl|]).
  destruct key; [|discriminate Hl]. clear Hl.
  cbn [forallb] in Hc.
  repeat (apply andb_true_iff in Hc as [?%key_digit Hc]). clear Hc.
  repeat match goal with
         | H : _ \/ _ |- _ => destruct H as [-> | ->]
         end;
    vm_compute; (split; [split; [discriminate | reflexivity] | reflexivity]).
Qed.

Lemma key_val_binary_witness :
  0 <= Des4Tool.key_val (list_ascii_of_string "101100111") < 512
  /\ Terms.key_text (Des4Tool.key_val (list_ascii_of_string "101100111"))
     = list_ascii_of_string "101100111".
Proof.
  apply (key_val_binary (list_ascii_of_string "101100111")). reflexivity.
Defined.

(** ** The blocks of the RSA tool *)

Lemma blockSize_loop_spec (n : Z) (fuel : nat) (a p : Z) :
  0 <= p -> a = 256 ^ p -> n <= 255 * a * 256 ^ Z.of_nat fuel ->
  p <= RsaTool.blockSize_loop fuel a p n
  /\ n <= 255 * 256 ^ RsaTool.blockSize_loop fuel a p n
  /\ (p < RsaTool.blockSize_loop fuel a p n ->
      255 * 256 ^ (RsaTool.blockSize_loop fuel a p n - 1) < n).
Proof.
  revert a p. induction fuel as [|fuel IH]; intros a p Hp Ha Hn.
  - cbn [RsaTool.blockSize_loop]. change (256 ^ Z.of_nat 0) with 1 in Hn.
    subst a. split; [lia|]. split; lia.
  - cbn [RsaTool.blockSize_loop]. destruct (a * 255 <? n) eqn:Hlt.
    + apply Z.ltb_lt in Hlt.
      destruct (IH (a * 256) (p + 1)) as (H1 & H2 & H3).
      * lia.
      * subst a. rewrite Z.pow_add_r by lia. reflexivity.
      * rewrite Nat2Z.inj_succ, Z.pow_succ_r in Hn by lia. lia.
      * split; [lia|]. split; [exact H2|]. intros _.
        destruct (Z.eq_dec (RsaTool.blockSize_loop fuel (a * 256) (p + 1) n) (p + 1))
          as [-> | Hne].
        -- replace (p + 1 - 1) with p by lia. subst a. lia.
        -- apply H3. lia.
    + apply Z.ltb_ge in Hlt. subst a. split; [lia|]. split; lia.
Qed.

Lemma blockSize_loop_fuel (n : Z) (fuel : nat) :
  forall a p fuel', 0 < a -> n <= 255 * a * 256 ^ Z.of_nat fuel -> (fuel <= fuel')%nat ->
  RsaTool.blockSize_loop fuel' a p n = RsaTool.blockSize_loop fuel a p n.
Proof.
  induction fuel as [|fuel IH]; intros a p fuel' Ha Hn Hle.
  - change (256 ^ Z.of_nat 0) with 1 in Hn.
    destruct fuel' as [|fuel']; [reflexivity|].
    cbn [RsaTool.blockSize_loop].
    destruct (a * 255 <? n) eqn:Hlt; [apply Z.ltb_lt in Hlt; lia | reflexivity].
  - destruct fuel' as [|fuel']; [lia|].
    cbn [RsaTool.blockSize_loop].
    destruct (a * 255 <? n) eqn:Hlt; [|reflexivity].
    apply IH; [lia | | lia].
    rewrite Nat2Z.inj_succ, Z.pow_succ_r in Hn by lia. lia.
Qed.

Lemma blockSize_fuel_enough (n : Z) : n <= 255 * 1 * 256 ^ Z.of_nat (Z.to_nat n).
Proof.
  destruct (Z.le_gt_cases n 0) as [Hn | Hn].
  - pose proof (Z.pow_nonneg 256 (Z.of_nat (Z.to_nat n)) ltac:(lia)). lia.
  - rewrite Z2Nat.id by lia.
    pose proof (Z.pow_gt_lin_r 256 n ltac:(lia) ltac:(lia)). lia.
Qed.

Lemma blockSize_spec (n : Z) :
  0 <= RsaTool.blockSize n
  /\ n <= 255 * 256 ^ RsaTool.blockSize n
  /\ (0 < RsaTool.blockSize n -> 255 * 256 ^ (RsaTool.blockSize n - 1) < n).
Proof.
  apply blockSize_loop_spec; [lia | reflexivity | apply blockSize_fuel_enough].
Qed.

Lemma number_from (cs : list Z) (v : Z) :
  fold_left (fun v c => v * 256 + c) cs v
  = v * 256 ^ Z.of_nat (length cs) + Terms.number cs.
Proof.
  unfold Terms.number. revert v.
  induction cs as [|c cs IH]; intro v.
  - cbn. lia.
  - cbn [fold_left length]. rewrite IH, (IH (0 * 256 + c)).
    rewrite Nat2Z.inj_succ, Z.pow_succ_r by lia. lia.
Qed.

Lemma number_cons (c : Z) (cs : list Z) :
  Terms.number (c :: cs) = c * 256 ^ Z.of_nat (length cs) + Terms.number cs.
Proof.
  unfold Terms.number at 1. cbn [fold_left]. rewrite number_from. lia.
Qed.

Lemma number_bound (cs : list Z) :
  Forall Terms.byte cs -> 0 <= Terms.number cs < 256 ^ Z.of_nat (length cs).
Proof.
  induction 1 as [|c cs Hc _ IH].
  - cbn. lia.
  - rewrite number_cons. cbn [length].
    rewrite Nat2Z.inj_succ, Z.pow_succ_r by lia.
    unfold Terms.byte in Hc.
    pose proof (Z.pow_pos_nonneg 256 (Z.of_nat (length cs)) ltac:(lia) ltac:(lia)).
    nia.
Qed.

Lemma power_quot (L : Z) : 0 <= L -> Z.quot (256 ^ L) 256 = 256 ^ (L - 1).
Proof.
  intro HL. destruct (Z.eq_dec L 0) as [-> | Hne]; [reflexivity|].
  replace (256 ^ L) with (256 ^ (L - 1) * 256).
  - apply Z.quot_mul. lia.
  - replace L with (Z.succ (L - 1)) at 2 by lia.
    rewrite Z.pow_succ_r by lia. lia.
Qed.

Lemma chars_of_loop_number (cs : list Z) :
  Forall Terms.byte cs ->
  RsaTool.chars_of_loop (length cs) (Terms.number cs)
                        (256 ^ (Z.of_nat (length cs) - 1)) = cs.
Proof.
  induction 1 as [|c cs Hc Hcs IH]; [reflexivity|].
  cbn [length RsaTool.chars_of_loop].
  replace (Z.of_nat (S (length cs)) - 1) with (Z.of_nat (length cs)) by lia.
  set (P := 256 ^ Z.of_nat (length cs)).
  assert (HP : 0 < P) by (apply Z.pow_pos_nonneg; lia).
  pose proof (number_bound cs Hcs) as Hb. fold P in Hb.
  unfold Terms.byte in Hc.
  assert (Hq : Z.abs (Z.quot (Terms.number (c :: cs)) P) mod 256 = c).
  { rewrite number_cons. fold P.
    rewrite Z.quot_div_nonneg by nia.
    rewrite Z.div_add_l by lia. rewrite Z.div_small by lia.
    rewrite Z.add_0_r, Z.abs_eq by lia. apply Z.mod_small. lia. }
  rewrite Hq. f_equal.
  replace (Terms.number (c :: cs) - c * P) with (Terms.number cs)
    by (rewrite number_cons; fold P; lia).
  unfold P. rewrite power_quot by lia. exact IH.
Qed.

Lemma chars_of_number (powInt : Z -> Z -> Z) (cs : list Z) :
  (forall k, 0 <= k -> powInt 256 k = 256 ^ k) ->
  (1 <= length cs)%nat -> Z.of_nat (length cs) < 2 ^ 64 ->
  Forall Terms.byte cs ->
  RsaTool.chars_of powInt (Z.of_nat (length cs)) (Terms.number cs) = cs.
Proof.
  intros Hpow H1 H64 Hb. unfold RsaTool.chars_of.
  rewrite Z.mod_small by lia. rewrite Hpow by lia.
  rewrite Nat2Z.id. apply chars_of_loop_number. exact Hb.
Qed.

Lemma read_block_full (powInt : Z -> Z -> Z) (chars : Z) (cs more : list Z) :
  (forall k, 0 <= k -> powInt 256 k = 256 ^ k) ->
  Forall (fun c => 1 <= c < 256) cs ->
  forall i block, chars - i = Z.of_nat (length cs) ->
  RsaTool.read_block powInt (length cs) chars i block (RsaTool.Stream (cs ++ more) true)
  = (block + Terms.number cs, RsaTool.Stream more true).
Proof.
  intros Hpow Hcs. induction Hcs as [|c cs Hc _ IH]; intros i block Hi.
  - cbn. f_equal. unfold Terms.number. cbn. lia.
  - cbn [length RsaTool.read_block RsaTool.get RsaTool.good RsaTool.rest app].
    destruct (c =? 0) eqn:Hz; [apply Z.eqb_eq in Hz; lia|].
    cbn [length] in Hi.
    rewrite IH by lia. rewrite number_cons, Hpow by lia.
    replace (chars - i - 1) with (Z.of_nat (length cs)) by lia.
    f_equal. lia.
Qed.

Lemma read_block_end (powInt : Z -> Z -> Z) (chars : Z) (todo : nat) :
  (forall k, 0 <= k -> powInt 256 k = 256 ^ k) ->
  forall i block good,
    chars - i = Z.of_nat todo -> (good = false \/ (1 <= todo)%nat) ->
    RsaTool.read_block powInt todo chars i block (RsaTool.Stream [] good)
    = (block + Terms.number (repeat 255 todo), RsaTool.Stream [] false).
Proof.
  intros Hpow. induction todo as [|todo IH]; intros i block good Hi Hg.
  - destruct Hg as [-> | Hg]; [|lia]. cbn. f_equal. unfold Terms.number. cbn. lia.
  - cbn [RsaTool.read_block].
    assert (Hget : RsaTool.get (RsaTool.Stream [] good) = (255, RsaTool.Stream [] false)).
    { destruct good; reflexivity. }
    rewrite Hget. change (255 =? 0) with false. cbv iota.
    rewrite IH by (try lia; left; reflexivity).
    cbn [repeat]. rewrite number_cons, repeat_length, Hpow by lia.
    replace (chars - i - 1) with (Z.of_nat todo) by lia.
    f_equal. lia.
Qed.

Lemma read_block_partial (powInt : Z -> Z -> Z) (chars : Z) (cs : list Z) :
  (forall k, 0 <= k -> powInt 256 k = 256 ^ k) ->
  Forall (fun c => 1 <= c < 256) cs ->
  forall todo i block,
    chars - i = Z.of_nat todo -> (length cs < todo)%nat ->
    RsaTool.read_block powInt todo chars i block (RsaTool.Stream cs true)
    = (block + Terms.number (cs ++ repeat 255 (todo - length cs)),
       RsaTool.Stream [] false).
Proof.
  intros Hpow Hcs. induction Hcs as [|c cs Hc _ IH]; intros todo i block Hi Hlt.
  - cbn [length app]. rewrite Nat.sub_0_r.
    apply read_block_end; [exact Hpow | exact Hi | right; lia].
  - destruct todo as [|todo]; [cbn [length] in Hlt; lia|].
    cbn [length] in Hlt.
    cbn [RsaTool.read_block RsaTool.get RsaTool.good RsaTool.rest].
    destruct (c =? 0) eqn:Hz; [apply Z.eqb_eq in Hz; lia|].
    rewrite IH by lia.
    cbn [length app]. replace (S todo - S (length cs))%nat with (todo - length cs)%nat by lia.
    rewrite number_cons, length_app, repeat_length, Hpow by lia.
    replace (chars - i - 1) with (Z.of_nat todo) by lia.
    replace (length cs + (todo - length cs))%nat with todo by lia.
    f_equal. lia.
Qed.

Lemma nonzero_bytes (cs : list Z) :
  Forall (fun c => 1 <= c < 256) cs -> Forall Terms.byte cs.
Proof. apply List.Forall_impl. unfold Terms.byte. lia. Qed.

Lemma padding_bytes (k : nat) : Forall Terms.byte (repeat 255 k).
Proof.
  induction k; [apply List.Forall_nil|].
  apply List.Forall_cons; [unfold Terms.byte; lia | assumption].
Qed.

Lemma encrypt_loop_blocks (powInt : Z -> Z -> Z) (k : nat) :
  (forall j, 0 <= j -> powInt 256 j = 256 ^ j) ->
  (1 <= k)%nat -> Z.of_nat k < 2 ^ 64 ->
  forall fuel input,
    Forall (fun c => 1 <= c < 256) input -> (length input < fuel)%nat ->
    exists blocks,
      RsaTool.encrypt_loop powInt fuel (Z.of_nat k) (RsaTool.Stream input true)
      = Some blocks
      /\ concat (map (RsaTool.chars_of powInt (Z.of_nat k)) blocks)
         = input ++ repeat 255 (k - length input mod k).
Proof.
  intros Hpow Hk H64.
  induction fuel as [|fuel IH]; intros input Hin Hlen; [lia|].
  cbn [RsaTool.encrypt_loop RsaTool.good]. rewrite Nat2Z.id.
  destruct (Nat.lt_ge_cases (length input) k) as [Hshort | Hlong].
  - rewrite read_block_partial by (try assumption; lia).
    assert (Hend : RsaTool.encrypt_loop powInt fuel (Z.of_nat k) (RsaTool.Stream [] false)
                   = Some []) by (destruct fuel; reflexivity).
    rewrite Hend. cbn [option_map].
    eexists. split; [reflexivity|].
    cbn [map concat]. rewrite app_nil_r, Z.add_0_l.
    rewrite Nat.mod_small by exact Hshort.
    set (cs := input ++ repeat 255 (k - length input)).
    assert (Hcs : length cs = k).
    { unfold cs. rewrite length_app, repeat_length. lia. }
    rewrite <- Hcs at 1.
    apply chars_of_number; [exact Hpow | lia | lia |].
    unfold cs. apply List.Forall_app. split; [apply nonzero_bytes, Hin | apply padding_bytes].
  - assert (Hcs : length (firstn k input) = k) by (rewrite length_firstn; lia).
    assert (Hfirst : Forall (fun c => 1 <= c < 256) (firstn k input)).
    { apply List.Forall_forall. intros c Hc.
      rewrite <- (firstn_skipn k input) in Hin.
      apply List.Forall_app in Hin as [Hin _].
      rewrite List.Forall_forall in Hin. apply Hin, Hc. }
    assert (Hmore : Forall (fun c => 1 <= c < 256) (skipn k input)).
    { rewrite <- (firstn_skipn k input) in Hin.
      apply List.Forall_app in Hin as [_ Hin]. exact Hin. }
    pose proof (read_block_full powInt (Z.of_nat k) (firstn k input) (skipn k input)
                  Hpow Hfirst 0 0 ltac:(lia)) as Hread.
    rewrite firstn_skipn, Hcs in Hread. rewrite Hread.
    destruct (IH (skipn k input) Hmore) as (blocks & Hrun & Hout).
    { rewrite length_skipn. lia. }
    rewrite Hrun. cbn [option_map].
    eexists. split; [reflexivity|].
    cbn [map concat]. rewrite Hout, Z.add_0_l.
    rewrite <- Hcs at 1.
    rewrite chars_of_number by (try assumption; try lia; apply nonzero_bytes, Hfirst).
    rewrite length_skipn.
    assert (Hmod : ((length input - k) mod k = length input mod k)%nat).
    { rewrite <- (Nat.Div0.mod_add (length input - k) 1 k). f_equal. lia. }
    rewrite Hmod, app_assoc, firstn_skipn. reflexivity.
Qed.

(** X18. [blockSize] ends, and returns the least number [p] of bytes with
    [n <= 255 * 256^p]: it is 0 exactly for [n <= 255], and running the loop
    any longer than [n] turns changes nothing. *)
Theorem blockSize_least (n : Z) :
  0 <= RsaTool.blockSize n
  /\ n <= 255 * 256 ^ RsaTool.blockSize n
  /\ (forall k, 0 <= k < RsaTool.blockSize n -> 255 * 256 ^ k < n)
  /\ (RsaTool.blockSize n = 0 <-> n <= 255)
  /\ (forall fuel, (Z.to_nat n <= fuel)%nat ->
        RsaTool.blockSize_loop fuel 1 0 n = RsaTool.blockSize n).
Proof.
  destruct (blockSize_spec n) as (H0 & H1 & H2).
  split; [exact H0|]. split; [exact H1|].
  assert (Hmin : forall k, 0 <= k < RsaTool.blockSize n -> 255 * 256 ^ k < n).
  { intros k Hk. specialize (H2 ltac:(lia)).
    assert (256 ^ k <= 256 ^ (RsaTool.blockSize n - 1))
      by (apply Z.pow_le_mono_r; lia).
    lia. }
  split; [exact Hmin|]. split.
  - split.
    + intros Hp. rewrite Hp in H1. change (256 ^ 0) with 1 in H1. lia.
    + intros Hn. destruct (Z.eq_dec (RsaTool.blockSize n) 0) as [|Hne]; [assumption|].
      specialize (Hmin 0 ltac:(lia)). change (256 ^ 0) with 1 in Hmin. lia.
  - intros fuel Hfuel. unfold RsaTool.blockSize.
    apply blockSize_loop_fuel; [lia | apply blockSize_fuel_enough | exact Hfuel].
Qed.

(** X19. A block of [blockSize n] bytes whose first byte is not 255 is a
    number below [n]; the block of bytes 255 is below [n] only when
    [256^p <= n].  ([number] is the value the bytes have in base 256.) *)
Theorem block_below_modulus (n : Z) (c : Z) (cs : list Z) :
  Forall Terms.byte (c :: cs) ->
  Z.of_nat (length (c :: cs)) = RsaTool.blockSize n ->
  (c < 255 -> Terms.number (c :: cs) < n)
  /\ (Terms.number (repeat 255 (length (c :: cs))) < n
      <-> 256 ^ RsaTool.blockSize n <= n).
Proof.
  intros Hb Hlen.
  destruct (blockSize_spec n) as (_ & _ & H2).
  specialize (H2 ltac:(cbn [length] in Hlen; lia)).
  assert (HL : RsaTool.blockSize n - 1 = Z.of_nat (length cs))
    by (cbn [length] in Hlen; lia).
  rewrite HL in H2.
  split.
  - intro Hc. rewrite number_cons.
    apply List.Forall_cons_iff in Hb as [Hc' Hcs].
    pose proof (number_bound cs Hcs). unfold Terms.byte in Hc'.
    pose proof (Z.pow_pos_nonneg 256 (Z.of_nat (length cs)) ltac:(lia) ltac:(lia)).
    nia.
  - assert (Hall : forall k, Terms.number (repeat 255 k) = 256 ^ Z.of_nat k - 1).
    { induction k as [|k IHk]; [reflexivity|].
      cbn [repeat]. rewrite number_cons, repeat_length, IHk.
      rewrite Nat2Z.inj_succ, Z.pow_succ_r by lia. lia. }
    rewrite Hall, Hlen. lia.
Qed.

Lemma block_below_modulus_witness :
  (65 < 255 -> Terms.number [65; 66] < 65281)
  /\ (Terms.number (repeat 255 (length [65; 66])) < 65281
      <-> 256 ^ RsaTool.blockSize 65281 <= 65281).
Proof.
  apply (block_below_modulus 65281 65 [66]).
  - repeat (apply List.Forall_cons; [unfold Terms.byte; lia|]). apply List.Forall_nil.
  - reflexivity.
Defined.

(** X20. Taking a block apart as [decrypt] does gives back the bytes it was
    made of: for [chars >= 1] bytes, the [chars] characters written for the
    number the bytes have in base 256 are those bytes. *)
Theorem chars_of_inverts_number (powInt : Z -> Z -> Z) (cs : list Z) :
  (forall k, 0 <= k -> powInt 256 k = 256 ^ k) ->
  (1 <= length cs)%nat -> Z.of_nat (length cs) < 2 ^ 64 ->
  Forall Terms.byte cs ->
  RsaTool.chars_of powInt (Z.of_nat (length cs)) (Terms.number cs) = cs.
Proof. apply chars_of_number. Qed.

Lemma chars_of_inverts_number_witness :
  RsaTool.chars_of Z.pow (Z.of_nat (length [82; 0; 255])) (Terms.number [82; 0; 255])
  = [82; 0; 255].
Proof.
  apply (chars_of_inverts_number Z.pow [82; 0; 255]).
  - reflexivity.
  - cbn [length]. lia.
  - cbn [length]. lia.
  - repeat (apply List.Forall_cons; [unfold Terms.byte; lia|]). apply List.Forall_nil.
Defined.

(** X21. The blocks [encrypt] builds from a text without NUL bytes, with
    blocks of [k >= 1] bytes: the loop ends within one turn more than the
    text has bytes, and the blocks, taken apart again, spell the text
    followed by bytes 255, between 1 and [k] of them, up to a multiple of
    [k]: the end of the input is read as the byte 255. *)
Theorem encrypt_pads_with_255
    (powInt : Z -> Z -> Z) (k : nat) (input : list Z) (fuel : nat) :
  (forall j, 0 <= j -> powInt 256 j = 256 ^ j) ->
  (1 <= k)%nat -> Z.of_nat k < 2 ^ 64 ->
  Forall (fun c => 1 <= c < 256) input ->
  (length input < fuel)%nat ->
  exists blocks,
    RsaTool.encrypt_loop powInt fuel (Z.of_nat k) (RsaTool.Stream input true)
    = Some blocks
    /\ concat (map (RsaTool.chars_of powInt (Z.of_nat k)) blocks)
       = input ++ repeat 255 (k - length input mod k).
Proof.
  intros Hpow Hk H64 Hin Hfuel.
  apply encrypt_loop_blocks; assumption.
Qed.

Lemma encrypt_pads_with_255_witness :
  exists blocks,
    RsaTool.encrypt_loop Z.pow 5 (Z.of_nat 2) (RsaTool.Stream [72; 105; 33; 10] true)
    = Some blocks
    /\ concat (map (RsaTool.chars_of Z.pow (Z.of_nat 2)) blocks)
       = [72; 105; 33; 10] ++ repeat 255 (2 - length [72; 105; 33; 10] mod 2).
Proof.
  apply (encrypt_pads_with_255 Z.pow 2 [72; 105; 33; 10] 5).
  - reflexivity.
  - lia.
  - cbn. lia.
  - repeat (apply List.Forall_cons; [lia|]). apply List.Forall_nil.
  - cbn [length]. lia.
Defined.

(** X22. With a modulus [n <= 255] the blocks hold no byte at all and
    [encrypt] never ends: every turn of its loop leaves the stream as it is,
    whatever number of turns is allowed. *)
Theorem encrypt_never_ends_for_small_modulus
    (powInt : Z -> Z -> Z) (n : Z) (input : list Z) (fuel : nat) :
  n <= 255 ->
  RsaTool.encrypt_loop powInt fuel (RsaTool.blockSize n) (RsaTool.Stream input true)
  = None.
Proof.
  intro Hn.
  assert (Hp : RsaTool.blockSize n = 0).
  { destruct (blockSize_spec n) as (H0 & _ & H2).
    destruct (Z.eq_dec (RsaTool.blockSize n) 0) as [|Hne]; [assumption|].
    specialize (H2 ltac:(lia)).
    pose proof (Z.pow_pos_nonneg 256 (RsaTool.blockSize n - 1) ltac:(lia) ltac:(lia)).
    lia. }
  rewrite Hp. induction fuel as [|fuel IH]; [reflexivity|].
  cbn [RsaTool.encrypt_loop RsaTool.good]. change (Z.to_nat 0) with O.
  cbn [RsaTool.read_block]. rewrite IH. reflexivity.
Qed.

Lemma encrypt_never_ends_for_small_modulus_witness :
  RsaTool.encrypt_loop Z.pow 1000 (RsaTool.blockSize 187) (RsaTool.Stream [72; 105] true)
  = None.
Proof.
  apply (encrypt_never_ends_for_small_modulus Z.pow 187 [72; 105] 1000). lia.
Defined.

(** ** The command lines *)

Lemma affine_read_refl (stoll : string -> option Z) (args : list string)
    (o : AffineCli.options) :
  Terms.affine_read stoll args o o.
Proof. unfold Terms.affine_read. repeat split; left; auto. Qed.

Lemma affine_read_trans (stoll : string -> option Z) (l1 l2 : list string)
    (o o1 o' : AffineCli.options) :
  Terms.affine_read stoll l1 o o1 -> Terms.affine_read stoll l2 o1 o' ->
  Terms.affine_read stoll (l1 ++ l2) o o'.
Proof.
  unfold Terms.affine_read.
  intros (A1 & A2 & A3 & A4 & A5) (B1 & B2 & B3 & B4 & B5).
  repeat split.
  - destruct B1 as [-> | B1]; [destruct A1; [left | right; apply in_or_app; left]; assumption|].
    right. apply in_or_app. right. exact B1.
  - destruct B2 as [[-> ->] | [B2 B2']].
    + destruct A2 as [A2 | [A2 A2']]; [left; exact A2|].
      right. split; apply in_or_app; left; assumption.
    + right. split; apply in_or_app; right; assumption.
  - destruct B3 as [-> | B3]; [destruct A3; [left | right; apply in_or_app; left]; assumption|].
    right. apply in_or_app. right. exact B3.
  - destruct B4 as [-> | (B4 & v & Hv & Hs)].
    + destruct A4 as [A4 | (A4 & v & Hv & Hs)]; [left; exact A4|].
      right. split; [apply in_or_app; left; exact A4|].
      exists v. split; [apply in_or_app; left; exact Hv | exact Hs].
    + right. split; [apply in_or_app; right; exact B4|].
      exists v. split; [apply in_or_app; right; exact Hv | exact Hs].
  - destruct B5 as [-> | (B5 & v & Hv & Hs)].
    + destruct A5 as [A5 | (A5 & v & Hv & Hs)]; [left; exact A5|].
      right. split; [apply in_or_app; left; exact A5|].
      exists v. split; [apply in_or_app; left; exact Hv | exact Hs].
    + right. split; [apply in_or_app; right; exact B5|].
      exists v. split; [apply in_or_app; right; exact Hv | exact Hs].
Qed.

Ltac affine_step :=
  unfold Terms.affine_read; cbn;
  repeat split;
  first [ left; (reflexivity || (split; reflexivity))
        | right; (tauto || (split; [tauto | eexists; split; [|eassumption]; tauto])) ].

Lemma affine_parse_sound (stoll : string -> option Z) (n : nat) :
  forall args o o', (length args <= n)%nat ->
    AffineCli.parse stoll args o = inr o' -> Terms.affine_read stoll args o o'.
Proof.
  induction n as [|n IH]; intros args o o' Hlen H.
  - destruct args; [|cbn [length] in Hlen; lia].
    cbn in H. injection H as <-. apply affine_read_refl.
  - destruct args as [|arg rest].
    { cbn in H. injection H as <-. apply affine_read_refl. }
    cbn [length] in Hlen. cbn [AffineCli.parse] in H.
    repeat match type of H with
           | (if String.eqb arg ?f then _ else _) = _ =>
               let E := fresh "E" in
               destruct (String.eqb arg f) eqn:E;
               [apply String.eqb_eq in E; subst arg | clear E]
           end.
    + destruct (AffineCli.a o) eqn:Ha; [discriminate|].
      destruct rest as [|v rest]; [discriminate|].
      destruct (stoll v) as [x|] eqn:Hv; [|discriminate].
      apply IH in H; [|cbn [length] in Hlen; lia].
      apply (affine_read_trans stoll ["-a"%string; v] rest _ _ _) with (2 := H).
      affine_step.
    + destruct (AffineCli.b o) eqn:Hb; [discriminate|].
      destruct rest as [|v rest]; [discriminate|].
      destruct (stoll v) as [x|] eqn:Hv; [|discriminate].
      apply IH in H; [|cbn [length] in Hlen; lia].
      apply (affine_read_trans stoll ["-b"%string; v] rest _ _ _) with (2 := H).
      affine_step.
    + destruct (AffineCli.is_none_in (AffineCli.inMode o)); [|discriminate].
      destruct rest as [|v rest]; [discriminate|].
      apply IH in H; [|cbn [length] in Hlen; lia].
      apply (affine_read_trans stoll ["-it"%string; v] rest _ _ _) with (2 := H).
      affine_step.
    + destruct (AffineCli.is_none_in (AffineCli.inMode o)); [|discriminate].
      destruct rest as [|v rest]; [discriminate|].
      apply IH in H; [|cbn [length] in Hlen; lia].
      apply (affine_read_trans stoll ["-if"%string; v] rest _ _ _) with (2 := H).
      affine_step.
    + destruct (AffineCli.is_none_out (AffineCli.outMode o)); [|discriminate].
      apply IH in H; [|lia].
      apply (affine_read_trans stoll ["-ot"%string] rest _ _ _) with (2 := H).
      affine_step.
    + destruct (AffineCli.is_none_out (AffineCli.outMode o)); [|discriminate].
      destruct rest as [|v rest]; [discriminate|].
      apply IH in H; [|cbn [length] in Hlen; lia].
      apply (affine_read_trans stoll ["-of"%string; v] rest _ _ _) with (2 := H).
      affine_step.
    + destruct (AffineCli.is_none_op (AffineCli.op o)); [|discriminate].
      apply IH in H; [|lia].
      apply (affine_read_trans stoll ["-e"%string] rest _ _ _) with (2 := H).
      affine_step.
    + destruct (AffineCli.is_none_op (AffineCli.op o)); [|discriminate].
      apply IH in H; [|lia].
      apply (affine_read_trans stoll ["-d"%string] rest _ _ _) with (2 := H).
      affine_step.
    + destruct (AffineCli.is_none_op (AffineCli.op o)); [|discriminate].
      apply IH in H; [|lia].
      apply (affine_read_trans stoll ["-ca"%string] rest _ _ _) with (2 := H).
      affine_step.
    + destruct (AffineCli.is_none_op (AffineCli.op o)); [|discriminate].
      apply IH in H; [|lia].
      apply (affine_read_trans stoll ["-cb"%string] rest _ _ _) with (2 := H).
      affine_step.
    + destruct rest as [|from [|to rest]].
      * apply IH in H; [|cbn [length]; lia].
        apply (affine_read_trans stoll ["-k"%string] [] _ _ _) with (2 := H).
        apply affine_read_refl.
      * apply IH in H; [|cbn [length] in *; lia].
        apply (affine_read_trans stoll ["-k"%string] [from] _ _ _) with (2 := H).
        apply affine_read_refl.
      * apply IH in H; [|cbn [length] in *; lia].
        apply (affine_read_trans stoll ["-k"%string; from; to] rest _ _ _) with (2 := H).
        affine_step.
    + discriminate.
Qed.

Lemma affine_parse_hints (stoll : string -> option Z)
    (pairs : list (string * string)) (rest : list string) (o : AffineCli.options) :
  AffineCli.parse stoll (flat_map Terms.hint pairs ++ rest) o
  = AffineCli.parse stoll rest
      (AffineCli.Options (AffineCli.inMode o) (AffineCli.outMode o) (AffineCli.op o)
         (AffineCli.a o) (AffineCli.b o) (AffineCli.input o) (AffineCli.output o)
         (AffineCli.known o ++ map Terms.hint_chars pairs)).
Proof.
  revert o. induction pairs as [|[from to] pairs IH]; intro o.
  - cbn [flat_map map app]. rewrite app_nil_r. destruct o; reflexivity.
  - cbn [flat_map Terms.hint fst snd app map].
    cbn [AffineCli.parse]. cbn [String.eqb Ascii.eqb Bool.eqb].
    rewrite IH. cbn [AffineCli.inMode AffineCli.outMode AffineCli.op AffineCli.a
                     AffineCli.b AffineCli.input AffineCli.output AffineCli.known].
    rewrite <- app_assoc. reflexivity.
Qed.

Lemma affine_crack_line (stoll : string -> option Z) (flag text : string)
    (m : AffineCli.Mode) (before after : list (string * string)) :
  (forall rest o,
      AffineCli.parse stoll (flag :: rest) o
      = if AffineCli.is_none_op (AffineCli.op o)
        then AffineCli.parse stoll rest (AffineCli.set_op m o)
        else inl AffineCli.one_operation) ->
  AffineCli.is_none_op m = false ->
  match m with AffineCli.Encrypt | AffineCli.Decrypt => False | _ => True end ->
  AffineCli.processArgs stoll
    (flat_map Terms.hint before ++ [flag; "-it"%string; text] ++ flat_map Terms.hint after)
  = inr (AffineCli.Options AffineCli.Input_Term AffineCli.Output_None m
           None None text EmptyString (map Terms.hint_chars (before ++ after))).
Proof.
  intros Hflag Hm Hcrack. unfold AffineCli.processArgs.
  rewrite affine_parse_hints. cbn [app]. rewrite Hflag.
  unfold AffineCli.set_op.
  cbn [AffineCli.start AffineCli.op AffineCli.is_none_op AffineCli.set_op
       AffineCli.inMode AffineCli.outMode AffineCli.a AffineCli.b AffineCli.input
       AffineCli.output AffineCli.known app].
  cbn [AffineCli.parse String.eqb Ascii.eqb Bool.eqb AffineCli.is_none_in
       AffineCli.inMode AffineCli.outMode AffineCli.op AffineCli.a AffineCli.b
       AffineCli.input AffineCli.output AffineCli.known].
  rewrite <- (app_nil_r (flat_map Terms.hint after)), affine_parse_hints.
  cbn [AffineCli.parse AffineCli.inMode AffineCli.outMode AffineCli.op AffineCli.a
       AffineCli.b AffineCli.input AffineCli.output AffineCli.known].
  unfold AffineCli.complete.
  cbn [AffineCli.inMode AffineCli.outMode AffineCli.op AffineCli.is_none_in].
  rewrite Hm, map_app. destruct m; try contradiction; reflexivity.
Qed.

(** X23. A cracking command line is accepted with any number of hints, before
    or after the other arguments: [-ca] or [-cb], [-it text] and hints
    [-k from to] give the mode, the text and, in their order, the pairs of the
    first characters of [from] and [to] (the NUL character for an empty
    argument); no output mode, [-a] or [-b] is asked for. *)
Theorem processArgs_crack_with_hints (stoll : string -> option Z) (text : string)
    (before after : list (string * string)) :
  AffineCli.processArgs stoll
    (flat_map Terms.hint before ++ ["-cb"%string; "-it"%string; text]
     ++ flat_map Terms.hint after)
  = inr (AffineCli.Options AffineCli.Input_Term AffineCli.Output_None
           AffineCli.Crack_Best None None text EmptyString
           (map Terms.hint_chars (before ++ after)))
  /\ AffineCli.processArgs stoll
       (flat_map Terms.hint before ++ ["-ca"%string; "-it"%string; text]
        ++ flat_map Terms.hint after)
     = inr (AffineCli.Options AffineCli.Input_Term AffineCli.Output_None
              AffineCli.Crack_All None None text EmptyString
              (map Terms.hint_chars (before ++ after))).
Proof.
  split; apply affine_crack_line; try reflexivity; exact I.
Qed.

(** X24. [processArgs] accepts a command line only when it is complete, and
    what it returns was read from the arguments: the flag of the operation
    and the flag of the input mode are among the arguments, and so is the
    input; for [-e] and [-d] the flags [-a] and [-b] are among them, [a] and
    [b] are the values of arguments, and the flag of the output mode is
    among them. *)
Theorem processArgs_accepts_only_complete (stoll : string -> option Z)
    (args : list string) (o : AffineCli.options) :
  AffineCli.processArgs stoll args = inr o ->
  AffineCli.op o <> AffineCli.Mode_None
  /\ In (Terms.affine_op_flag (AffineCli.op o)) args
  /\ AffineCli.inMode o <> AffineCli.Input_None
  /\ In (Terms.affine_in_flag (AffineCli.inMode o)) args
  /\ In (AffineCli.input o) args
  /\ (AffineCli.op o = AffineCli.Encrypt \/ AffineCli.op o = AffineCli.Decrypt ->
      In "-a"%string args
      /\ (exists v x, In v args /\ stoll v = Some x /\ AffineCli.a o = Some x)
      /\ In "-b"%string args
      /\ (exists v x, In v args /\ stoll v = Some x /\ AffineCli.b o = Some x)
      /\ AffineCli.outMode o <> AffineCli.Output_None
      /\ In (Terms.affine_out_flag (AffineCli.outMode o)) args).
Proof.
  unfold AffineCli.processArgs.
  destruct (AffineCli.parse stoll args AffineCli.start) as [msg | o1] eqn:Hparse;
    [discriminate|].
  apply (affine_parse_sound stoll (length args)) in Hparse; [|lia].
  destruct Hparse as (H1 & H2 & H3 & H4 & H5). cbn in H1, H2, H3, H4, H5.
  unfold AffineCli.complete. intro H.
  destruct (AffineCli.op o1) eqn:Hop; cbn in H; try discriminate;
    destruct (AffineCli.inMode o1) eqn:Hin; cbn in H; try discriminate.
  all: try (destruct (AffineCli.a o1) as [x|] eqn:Ha; [|discriminate];
            destruct (AffineCli.b o1) as [y|] eqn:Hb; [|discriminate];
            destruct (AffineCli.outMode o1) eqn:Hout; cbn in H; try discriminate).
  all: injection H as <-; rewrite ?Hop, ?Hin, ?Ha, ?Hb, ?Hout.
  all: destruct H1 as [H1 | H1]; [discriminate H1|].
  all: destruct H2 as [[H2 _] | [H2 H2']]; [discriminate H2|].
  all: split; [discriminate|]; split; [exact H1|]; split; [discriminate|];
       split; [exact H2|]; split; [exact H2'|].
  all: try (intros [Hcontra | Hcontra]; discriminate Hcontra).
  all: intros _.
  all: destruct H3 as [H3 | H3]; [discriminate H3|].
  all: destruct H4 as [H4 | (H4 & v & Hv & Hs)]; [discriminate H4|].
  all: destruct H5 as [H5 | (H5 & w & Hw & Ht)]; [discriminate H5|].
  all: split; [exact H4|]; split; [exists v, x; auto|]; split; [exact H5|];
       split; [exists w, y; auto|]; split; [discriminate | exact H3].
Qed.

Lemma processArgs_accepts_only_complete_witness :
  AffineCli.Encrypt <> AffineCli.Mode_None
  /\ In (Terms.affine_op_flag AffineCli.Encrypt)
        ["-e"; "-a"; "5"; "-b"; "8"; "-it"; "hello"; "-ot"]%string
  /\ AffineCli.Input_Term <> AffineCli.Input_None
  /\ In (Terms.affine_in_flag AffineCli.Input_Term)
        ["-e"; "-a"; "5"; "-b"; "8"; "-it"; "hello"; "-ot"]%string
  /\ In "hello"%string ["-e"; "-a"; "5"; "-b"; "8"; "-it"; "hello"; "-ot"]%string
  /\ (AffineCli.Encrypt = AffineCli.Encrypt \/ AffineCli.Encrypt = AffineCli.Decrypt ->
      In "-a"%string ["-e"; "-a"; "5"; "-b"; "8"; "-it"; "hello"; "-ot"]%string
      /\ (exists v x, In v ["-e"; "-a"; "5"; "-b"; "8"; "-it"; "hello"; "-ot"]%string
                      /\ Terms.one_digit v = Some x /\ Some 5 = Some x)
      /\ In "-b"%string ["-e"; "-a"; "5"; "-b"; "8"; "-it"; "hello"; "-ot"]%string
      /\ (exists v x, In v ["-e"; "-a"; "5"; "-b"; "8"; "-it"; "hello"; "-ot"]%string
                      /\ Terms.one_digit v = Some x /\ Some 8 = Some x)
      /\ AffineCli.Output_Term <> AffineCli.Output_None
      /\ In (Terms.affine_out_flag AffineCli.Output_Term)
            ["-e"; "-a"; "5"; "-b"; "8"; "-it"; "hello"; "-ot"]%string).
Proof.
  apply (processArgs_accepts_only_complete Terms.one_digit
           ["-e"; "-a"; "5"; "-b"; "8"; "-it"; "hello"; "-ot"]%string
           (AffineCli.Options AffineCli.Input_Term AffineCli.Output_Term
              AffineCli.Encrypt (Some 5) (Some 8) "hello" EmptyString [])).
  reflexivity.
Defined.

Lemma vigenere_read_refl (stoull : string -> option Z) (args : list string)
    (o : VigenereCli.options) :
  Terms.vigenere_read stoull args o o.
Proof. unfold Terms.vigenere_read. repeat split; left; auto. Qed.

Lemma vigenere_read_trans (stoull : string -> option Z) (l1 l2 : list string)
    (o o1 o' : VigenereCli.options) :
  Terms.vigenere_read stoull l1 o o1 -> Terms.vigenere_read stoull l2 o1 o' ->
  Terms.vigenere_read stoull (l1 ++ l2) o o'.
Proof.
  unfold Terms.vigenere_read.
  intros (A1 & A2 & A3 & A4) (B1 & B2 & B3 & B4).
  repeat split.
  - destruct B1 as [[-> ->] | [B1 B1']].
    + destruct A1 as [A1 | [A1 A1']]; [left; exact A1|].
      right. split; [apply in_or_app; left; exact A1|].
      intro Hc. destruct (A1' Hc) as (v & Hv & Hs).
      exists v. split; [apply in_or_app; left; exact Hv | exact Hs].
    + right. split; [apply in_or_app; right; exact B1|].
      intro Hc. destruct (B1' Hc) as (v & Hv & Hs).
      exists v. split; [apply in_or_app; right; exact Hv | exact Hs].
  - destruct B2 as [[-> ->] | [B2 B2']].
    + destruct A2 as [A2 | [A2 A2']]; [left; exact A2|].
      right. split; apply in_or_app; left; assumption.
    + right. split; apply in_or_app; right; assumption.
  - destruct B3 as [-> | B3]; [destruct A3; [left | right; apply in_or_app; left]; assumption|].
    right. apply in_or_app. right. exact B3.
  - destruct B4 as [-> | [B4 B4']].
    + destruct A4 as [A4 | [A4 A4']]; [left; exact A4|].
      right. split; apply in_or_app; left; assumption.
    + right. split; apply in_or_app; right; assumption.
Qed.

Ltac vigenere_step :=
  unfold Terms.vigenere_read; cbn;
  repeat split;
  first [ left; (reflexivity || (split; reflexivity))
        | right; (tauto
                  || (split; [tauto | intros _; eexists; split; [|eassumption]; tauto])
                  || (split; [tauto | discriminate])) ].

Lemma vigenere_parse_sound (stoull : string -> option Z) (n : nat) :
  forall args o o', (length args <= n)%nat ->
    VigenereCli.parse stoull args o = inr o' -> Terms.vigenere_read stoull args o o'.
Proof.
  induction n as [|n IH]; intros args o o' Hlen H.
  - destruct args; [|cbn [length] in Hlen; lia].
    cbn in H. injection H as <-. apply vigenere_read_refl.
  - destruct args as [|arg rest].
    { cbn in H. injection H as <-. apply vigenere_read_refl. }
    cbn [length] in Hlen. cbn [VigenereCli.parse] in H.
    repeat match type of H with
           | (if String.eqb arg ?f then _ else _) = _ =>
               let E := fresh "E" in
               destruct (String.eqb arg f) eqn:E;
               [apply String.eqb_eq in E; subst arg | clear E]
           end.
    + destruct rest as [|v rest]; [discriminate|].
      apply IH in H; [|cbn [length] in Hlen; lia].
      apply (vigenere_read_trans stoull ["-k"%string; v] rest _ _ _) with (2 := H).
      vigenere_step.
    + destruct (VigenereCli.is_none_in (VigenereCli.inMode o)); [|discriminate].
      destruct rest as [|v rest]; [discriminate|].
      apply IH in H; [|cbn [length] in Hlen; lia].
      apply (vigenere_read_trans stoull ["-it"%string; v] rest _ _ _) with (2 := H).
      vigenere_step.
    + destruct (VigenereCli.is_none_in (VigenereCli.inMode o)); [|discriminate].
      destruct rest as [|v rest]; [discriminate|].
      apply IH in H; [|cbn [length] in Hlen; lia].
      apply (vigenere_read_trans stoull ["-if"%string; v] rest _ _ _) with (2 := H).
      vigenere_step.
    + destruct (VigenereCli.is_none_out (VigenereCli.outMode o)); [|discriminate].
      apply IH in H; [|lia].
      apply (vigenere_read_trans stoull ["-ot"%string] rest _ _ _) with (2 := H).
      vigenere_step.
    + destruct (VigenereCli.is_none_out (VigenereCli.outMode o)); [|discriminate].
      destruct rest as [|v rest]; [discriminate|].
      apply IH in H; [|cbn [length] in Hlen; lia].
      apply (vigenere_read_trans stoull ["-of"%string; v] rest _ _ _) with (2 := H).
      vigenere_step.
    + destruct (VigenereCli.is_none_op (VigenereCli.op o)); [|discriminate].
      apply IH in H; [|lia].
      apply (vigenere_read_trans stoull ["-e"%string] rest _ _ _) with (2 := H).
      vigenere_step.
    + destruct (VigenereCli.is_none_op (VigenereCli.op o)); [|discriminate].
      apply IH in H; [|lia].
      apply (vigenere_read_trans stoull ["-d"%string] rest _ _ _) with (2 := H).
      vigenere_step.
    + destruct (VigenereCli.is_none_op (VigenereCli.op o)); [|discriminate].
      destruct rest as [|v rest]; [discriminate|].
      destruct (stoull v) as [x|] eqn:Hv; [|discriminate].
      apply IH in H; [|cbn [length] in Hlen; lia].
      apply (vigenere_read_trans stoull ["-c"%string; v] rest _ _ _) with (2 := H).
      vigenere_step.
    + discriminate.
Qed.

(** X25. The Vigenere tool accepts a command line only when it is complete,
    and what it returns was read from the arguments: the flags of the
    operation and of the input mode are among the arguments, and so is the
    input; for [-c] the bound [key_max] is the value of an argument; for
    [-e] and [-d] the flag of the output mode and [-k] are among the
    arguments and the key is a non-empty argument. *)
Theorem vigenere_processArgs_accepts_only_complete (stoull : string -> option Z)
    (args : list string) (o : VigenereCli.options) :
  VigenereCli.processArgs stoull args = inr o ->
  VigenereCli.op o <> VigenereCli.Mode_None
  /\ In (Terms.vigenere_op_flag (VigenereCli.op o)) args
  /\ VigenereCli.inMode o <> VigenereCli.Input_None
  /\ In (Terms.vigenere_in_flag (VigenereCli.inMode o)) args
  /\ In (VigenereCli.input o) args
  /\ (VigenereCli.op o = VigenereCli.Crack ->
      exists v, In v args /\ stoull v = Some (VigenereCli.key_max o))
  /\ (VigenereCli.op o <> VigenereCli.Crack ->
      VigenereCli.outMode o <> VigenereCli.Output_None
      /\ In (Terms.vigenere_out_flag (VigenereCli.outMode o)) args
      /\ VigenereCli.key o <> EmptyString
      /\ In "-k"%string args
      /\ In (VigenereCli.key o) args).
Proof.
  unfold VigenereCli.processArgs.
  destruct (VigenereCli.parse stoull args VigenereCli.start) as [msg | o1] eqn:Hparse;
    [discriminate|].
  apply (vigenere_parse_sound stoull (length args)) in Hparse; [|lia].
  destruct Hparse as (H1 & H2 & H3 & H4). cbn in H1, H2, H3, H4.
  unfold VigenereCli.complete. intro H.
  destruct (VigenereCli.op o1) eqn:Hop; cbn [VigenereCli.is_none_out VigenereCli.is_crack VigenereCli.is_none_op VigenereCli.is_none_in] in H; try discriminate;
    destruct (VigenereCli.inMode o1) eqn:Hin; cbn [VigenereCli.is_none_out VigenereCli.is_crack VigenereCli.is_none_op VigenereCli.is_none_in] in H; try discriminate.
  all: try (destruct (VigenereCli.outMode o1) eqn:Hout; cbn [VigenereCli.is_none_out VigenereCli.is_crack VigenereCli.is_none_op VigenereCli.is_none_in] in H; try discriminate;
            (destruct (String.eqb (VigenereCli.key o1) "") eqn:Hkey; [discriminate|]);
            apply String.eqb_neq in Hkey).
  all: injection H as <-; rewrite ?Hop, ?Hin, ?Hout.
  all: destruct H1 as [[H1 _] | [H1 H1']]; [discriminate H1|].
  all: destruct H2 as [[H2 _] | [H2 H2']]; [discriminate H2|].
  all: split; [discriminate|]; split; [exact H1|]; split; [discriminate|];
       split; [exact H2|]; split; [exact H2'|].
  all: split; [try discriminate; intros _; apply H1'; reflexivity|].
  all: try (intros Hcontra; contradiction Hcontra; reflexivity).
  all: intros _.
  all: destruct H3 as [H3 | H3]; [discriminate H3|].
  all: destruct H4 as [H4 | [H4 H4']]; [contradiction Hkey; exact H4|].
  all: split; [discriminate|]; split; [exact H3|]; split; [exact Hkey|];
       split; [exact H4 | exact H4'].
Qed.

Lemma vigenere_processArgs_accepts_only_complete_witness :
  VigenereCli.Crack <> VigenereCli.Mode_None
  /\ In (Terms.vigenere_op_flag VigenereCli.Crack) ["-c"; "7"; "-if"; "cipher.txt"]%string
  /\ VigenereCli.Input_File <> VigenereCli.Input_None
  /\ In (Terms.vigenere_in_flag VigenereCli.Input_File)
        ["-c"; "7"; "-if"; "cipher.txt"]%string
  /\ In "cipher.txt"%string ["-c"; "7"; "-if"; "cipher.txt"]%string
  /\ (VigenereCli.Crack = VigenereCli.Crack ->
      exists v, In v ["-c"; "7"; "-if"; "cipher.txt"]%string
                /\ Terms.one_digit v = Some 7)
  /\ (VigenereCli.Crack <> VigenereCli.Crack ->
      VigenereCli.Output_None <> VigenereCli.Output_None
      /\ In (Terms.vigenere_out_flag VigenereCli.Output_None)
            ["-c"; "7"; "-if"; "cipher.txt"]%string
      /\ EmptyString <> EmptyString
      /\ In "-k"%string ["-c"; "7"; "-if"; "cipher.txt"]%string
      /\ In EmptyString ["-c"; "7"; "-if"; "cipher.txt"]%string).
Proof.
  apply (vigenere_processArgs_accepts_only_complete Terms.one_digit
           ["-c"; "7"; "-if"; "cipher.txt"]%string
           (VigenereCli.Options VigenereCli.Input_File VigenereCli.Output_None
              VigenereCli.Crack EmptyString 7 "cipher.txt" EmptyString)).
  reflexivity.
Defined.

(** ** The search without hints *)

Lemma for_until_idle {I S : Type} (stop : S -> bool) (body : I -> S -> S)
    (idx : list I) (s : S) :
  (forall i s', body i s' = s') -> for_until stop body idx s = s.
Proof.
  intro Hb. induction idx as [|i rest IH]; cbn [for_until]; [reflexivity|].
  rewrite Hb, IH. now destruct (stop s).
Qed.

Lemma verify_without_hints (decrypt : Z -> Z -> list ascii -> list ascii)
    (ciph : list ascii) (soln : Z * Z) (s : Affine.search) :
  Affine.verify decrypt ciph [] soln s =
  if Affine.fresh soln s
  then Affine.Search ({[soln]} ∪ Affine.tested s) (Affine.done s)
         (Affine.out s ++ [Affine.Row (fst soln) (snd soln)
                             (decrypt (fst soln) (snd soln) ciph)])
  else s.
Proof. reflexivity. Qed.

Lemma search_without_hints (decrypt : Z -> Z -> list ascii -> list ascii)
    (ciph : list ascii) (sol : nat * nat -> Z * Z) (l : list (nat * nat)) :
  forall (s : Affine.search) (seen : list (Z * Z)),
    Affine.done s = false ->
    (forall k, k ∈ Affine.tested s <-> k ∈ seen) ->
    Affine.done (for_until Affine.done
                   (fun k => Affine.verify decrypt ciph [] (sol k)) l s) = false
    /\
    Affine.out (for_until Affine.done
                  (fun k => Affine.verify decrypt ciph [] (sol k)) l s)
    = Affine.out s
      ++ map (fun k => Affine.Row (fst k) (snd k) (decrypt (fst k) (snd k) ciph))
             (Terms.first_occurrences seen
                (List.filter (fun k => negb (fst k =? 0)) (map sol l))).
Proof.
  induction l as [|k rest IH]; intros s seen Hdone Hseen.
  - cbn. now rewrite app_nil_r.
  - cbn [for_until map List.filter]. rewrite Hdone.
    rewrite verify_without_hints. unfold Affine.fresh.
    destruct (negb (fst (sol k) =? 0)) eqn:Hnz; cbn [andb].
    + cbn [Terms.first_occurrences].
      destruct (bool_decide (sol k ∈ Affine.tested s)) eqn:Hin; cbn [negb].
      * apply bool_decide_eq_true in Hin. apply Hseen in Hin.
        rewrite (bool_decide_eq_true_2 _ Hin). now apply IH.
      * apply bool_decide_eq_false in Hin.
        assert (Hnot : sol k ∉ seen) by (intro Hc; apply Hin, Hseen, Hc).
        rewrite (bool_decide_eq_false_2 _ Hnot).
        destruct (IH (Affine.Search ({[sol k]} ∪ Affine.tested s) (Affine.done s)
                        (Affine.out s ++ [Affine.Row (fst (sol k)) (snd (sol k))
                                            (decrypt (fst (sol k)) (snd (sol k)) ciph)]))
                     (sol k :: seen)) as [IH1 IH2].
        -- exact Hdone.
        -- intro k'. cbn [Affine.tested]. rewrite elem_of_union, elem_of_singleton,
             elem_of_cons, Hseen. reflexivity.
        -- split; [exact IH1|]. rewrite IH2. cbn [Affine.out map].
           now rewrite <- app_assoc.
    + now apply IH.
Qed.

Lemma tier1_without_hints (decrypt : Z -> Z -> list ascii -> list ascii)
    (ciph : list ascii) (s : Affine.search) :
  Affine.tier1 decrypt ciph [] s = s.
Proof. reflexivity. Qed.

Lemma tier2_without_hints (decrypt : Z -> Z -> list ascii -> list ascii)
    (ciph : list ascii) (freqs : list (ascii * Z)) (s : Affine.search) :
  Affine.tier2 decrypt ciph [] freqs s = s.
Proof. unfold Affine.tier2. apply for_until_idle. reflexivity. Qed.

Lemma tier3_flat (decrypt : Z -> Z -> list ascii -> list ascii)
    (ciph : list ascii) (known : list (ascii * ascii)) (freqs : list (ascii * Z))
    (s : Affine.search) :
  Affine.tier3 decrypt ciph known freqs s =
  for_until Affine.done
    (fun k => Affine.verify decrypt ciph known
                (Affine.linsolve (Affine.possible freqs (fst k))
                                 (Affine.possible freqs (snd k))))
    Terms.rank_pairs s.
Proof.
  unfold Affine.tier3, Terms.rank_pairs.
  exact (for_until_nested_dep Affine.done (Affine.tier3_body decrypt ciph known freqs)
           (seq 0 26) (fun i => seq (i + 1) (26 - (i + 1))) s).
Qed.

Lemma Crack_Best_tiers (decrypt : Z -> Z -> list ascii -> list ascii)
    (ciph : list ascii) (known : list (ascii * ascii)) (freqs : list (ascii * Z)) :
  Affine.Crack_Best decrypt ciph known freqs =
  if Affine.done (Affine.tier1 decrypt ciph known (Affine.Search ∅ false []))
  then Affine.out (Affine.tier1 decrypt ciph known (Affine.Search ∅ false []))
  else if Affine.done (Affine.tier2 decrypt ciph known freqs
                         (Affine.tier1 decrypt ciph known (Affine.Search ∅ false [])))
       then Affine.out (Affine.tier2 decrypt ciph known freqs
                          (Affine.tier1 decrypt ciph known (Affine.Search ∅ false [])))
       else Affine.out (Affine.tier3 decrypt ciph known freqs
                          (Affine.tier2 decrypt ciph known freqs
                             (Affine.tier1 decrypt ciph known (Affine.Search ∅ false [])))).
Proof. reflexivity. Qed.

(** X26. Without hints the [-cb] search goes straight to the search by
    frequencies, which nothing stops: for all the pairs of ranks [i < j]
    below 26, in order, it solves the two hypotheses, and it prints each key
    found (other than the sentinel) the first time it is found, with the
    decryption under it. *)
Theorem Crack_Best_without_hints (decrypt : Z -> Z -> list ascii -> list ascii)
    (ciph : list ascii) (freqs : list (ascii * Z)) :
  Affine.Crack_Best decrypt ciph [] freqs
  = map (fun k => Affine.Row (fst k) (snd k) (decrypt (fst k) (snd k) ciph))
        (Terms.first_occurrences []
           (List.filter (fun k => negb (fst k =? 0)) (Terms.rank_solutions freqs))).
Proof.
  rewrite Crack_Best_tiers, tier1_without_hints, tier2_without_hints, tier3_flat.
  destruct (search_without_hints decrypt ciph
              (fun k => Affine.linsolve (Affine.possible freqs (fst k))
                                        (Affine.possible freqs (snd k)))
              Terms.rank_pairs (Affine.Search ∅ false []) []) as [_ Hout].
  - reflexivity.
  - intro k. rewrite elem_of_nil. cbn [Affine.tested]. set_solver.
  - rewrite Hout. reflexivity.
Qed.
